(** * jm_unmixer: the JoinMarket classifier, pairer and unmix score

    A shallow embedding of [jm_unmixer/jmtx.py], of the three passes of
    [bin/analyze_jmtxs.py], of [process_tx] of [bin/find_jmtxs.py] and of
    the choice of the file to open in [jm_unmixer/misc.py], with the
    properties the specification states about them and further properties
    read off the code.

    A transaction carries, for each input, the previous output that the
    input spends, as the node returns it.  [map_with_progressbar] is
    modelled by its results taken in order; an [OrderedDict] by the list
    of its items; the file system that [gzopen] consults by the function
    [isfile].

    ** Numeric model

    Amounts reach the program as [Decimal]s with eight decimal places (the
    node's JSON is parsed with [parse_float = Decimal]); they are modelled
    as [Z], counted in satoshi (1e-8 BTC), and [btc] maps them to [Q].
    Sums and differences of such amounts are exact in Python's 28-digit
    context, and so they are here.

    [MIN_JM_FEE] and [MAX_JM_FEE] are binary64 literals.  Python compares a
    [Decimal] with a float exactly, so both are modelled by the exact
    rational value of the binary64 number (not by 1e-6 and 0.03).  The
    products [MIN_JM_FEE * 2**k] are exact in binary64.

    The quotient of [unmix_level] is an [int / int], a binary64 number; it
    is modelled by [binary64], the rounding of the exact quotient to 53
    significant bits.  Two quantities are computed by the source with a
    rounding step and are modelled by the exact rational:
    - the [Decimal] quotient [total_jmfee / (num_parties-1)], rounded by
      Python to 28 significant digits.  It is only compared with the two
      thresholds, and a quotient of a satoshi amount by a party count
      cannot come that close to either of them;
    - the binary64 cost [ii[0]**2 + 0.1 * ii[1]**2].  It is only compared
      with other costs; two costs that differ do so by 0.1 at least, and
      costs that are equal as rationals ((2,3) with (0,7), (3,1) with
      (1,9), ...) are equal in binary64 too.
    [float(x)] is only ever tested for its sign, which is the sign of [x]. *)

From Stdlib Require Import String Ascii ZArith QArith List Permutation Sorted Lia Bool Arith.
Import ListNotations.
Local Open Scope Z_scope.

(** ** Python results: a value or a raised exception *)

Inductive message : Type :=
| msg (s : string)
| msg_unpairable_change_values (change_values : list Z).

Inductive exn : Type :=
| Unpairable (m : message)
| AssertionError
| IndexError
| ValueError
| TypeError
| ZeroDivisionError
| InvalidOperation.

Inductive result (A : Type) : Type :=
| Ok (a : A)
| Raise (e : exn).

Arguments Ok {A} a.
Arguments Raise {A} e.

Definition bind {A B : Type} (r : result A) (k : A -> result B) : result B :=
  match r with
  | Ok a => k a
  | Raise e => Raise e
  end.

Notation "x <- e ;; k" := (bind e (fun x => k))
  (at level 61, e at next level, right associativity).
Notation "' p <- e ;; k" := (bind e (fun p => k))
  (at level 61, p pattern, e at next level, right associativity).

(** ** Python built-ins on lists *)

(** [sum(l)] *)
Definition sum (l : list Z) : Z := fold_left Z.add l 0.

(** [l[i]] for [i >= 0]. *)
Definition getitem {A : Type} (l : list A) (i : nat) : result A :=
  match nth_error l i with
  | Some x => Ok x
  | None => Raise IndexError
  end.

(** [l[:i] + l[i+1:]] for [i >= 0]. *)
Definition delitem {A : Type} (l : list A) (i : nat) : list A :=
  firstn i l ++ skipn (S i) l.

(** [l.pop()]: the last element and the list without it. *)
Definition pop {A : Type} (l : list A) : result (A * list A) :=
  match rev l with
  | x :: r => Ok (x, rev r)
  | [] => Raise IndexError
  end.

(** [l.remove(x)], where [x] may be [None]: the first element equal to [x]
    is removed; [None] stands for the [ValueError]. *)
Fixpoint list_remove (x : option Z) (l : list Z) : option (list Z) :=
  match l with
  | [] => None
  | y :: t =>
      match x with
      | Some v =>
          if y =? v then Some t
          else match list_remove x t with
               | Some t' => Some (y :: t')
               | None => None
               end
      | None => None
      end
  end.

(** [l.sort()] on amounts. *)
Fixpoint insert_sorted (x : Z) (l : list Z) : list Z :=
  match l with
  | [] => [x]
  | y :: t => if x <=? y then x :: l else y :: insert_sorted x t
  end.

Fixpoint sorted (l : list Z) : list Z :=
  match l with
  | [] => []
  | x :: t => insert_sorted x (sorted t)
  end.

(** [range(start, stop)] for [0 <= start]. *)
Definition range (start stop : Z) : list nat :=
  seq (Z.to_nat start) (Z.to_nat (stop - start)).

(** [itertools.combinations(l, k)], in its lexicographic order. *)
Fixpoint combinations {A : Type} (l : list A) (k : nat) {struct l} : list (list A) :=
  match k, l with
  | O, _ => [[]]
  | S _, [] => []
  | S k', x :: t => map (cons x) (combinations t k') ++ combinations t k
  end.

(** [collections.Counter(l)] as an association list in the order of first
    occurrence (the iteration order of the underlying dict). *)
Fixpoint counter_incr (x : Z) (c : list (Z * nat)) : list (Z * nat) :=
  match c with
  | [] => [(x, 1%nat)]
  | (y, n) :: t => if x =? y then (y, S n) :: t else (y, n) :: counter_incr x t
  end.

Definition Counter (l : list Z) : list (Z * nat) :=
  fold_left (fun c x => counter_incr x c) l [].

(** [max(items, key=itemgetter(1))]: the first entry with the largest count. *)
Fixpoint max_count (best : Z * nat) (c : list (Z * nat)) : Z * nat :=
  match c with
  | [] => best
  | e :: t => max_count (if (snd best <? snd e)%nat then e else best) t
  end.

(** [c.most_common(1)] *)
Definition most_common_1 (c : list (Z * nat)) : list (Z * nat) :=
  match c with
  | [] => []
  | e :: t => [max_count e t]
  end.

(** [c.pop(key)] (the counter that remains). *)
Definition counter_pop (key : Z) (c : list (Z * nat)) : list (Z * nat) :=
  filter (fun e => negb (fst e =? key)) c.

(** [addresses.add(addr)] on a set of strings, kept as a list without
    duplicates. *)
Definition set_add (addr : string) (addresses : list string) : list string :=
  if existsb (String.eqb addr) addresses then addresses else addresses ++ [addr].

(** ** NumPy: [argsort] of a flat array of keys *)

Definition Qltb (x y : Q) : bool := Qnum x * QDen y <? Qnum y * QDen x.

Fixpoint insert_by_key (keys : list Q) (i : nat) (l : list nat) : list nat :=
  match l with
  | [] => [i]
  | j :: t =>
      if Qltb (nth j keys 0%Q) (nth i keys 0%Q) then j :: insert_by_key keys i t
      else i :: l
  end.

(** [np.argsort(d, axis=None)] sorts with NumPy's default kind, which is
    not stable: it returns the indices in an order along which the keys do
    not decrease, and the order it gives to equal keys is that of the
    NumPy build at hand.  [argsort] is the sorting function that keeps equal
    keys in index order.  The candidate generator is written for any
    sorting function ([gen_bucket_size_dist_pairs_by]); the pairer below
    runs it with this one.  With one or two bucket sizes no two costs are
    equal, and the order is the same for every sorting function. *)
Definition argsort (keys : list Q) : list nat :=
  fold_right (insert_by_key keys) [] (seq 0 (length keys)).

(** ** Python floats: the quotient of two integers *)

(** The integer nearest to [n / d], for [d > 0]; of two nearest integers
    the even one. *)
Definition round_half_even (n d : Z) : Z :=
  let q := n / d in
  let r := n mod d in
  if 2 * r <? d then q
  else if d <? 2 * r then q + 1
  else if Z.even q then q else q + 1.

(** The binary64 number nearest to [x], ties to even, as Python's [int / int]
    returns it for the quotient [x]: [k] is the exponent for which
    [|x| * 2**k] lies between [2**52] and [2**53], and the 53-bit significand
    is [|x| * 2**k] rounded to an integer.  The number is given as a
    rational in lowest terms.  The range of the exponent is not modelled:
    the quotients of the program are quotients of list lengths, which lie
    between [2**-63] and [2**63]. *)
Definition binary64 (x : Q) : Q :=
  let a := Z.abs (Qnum x) in
  let b := Z.pos (Qden x) in
  if a =? 0 then 0%Q
  else
    let k0 := 52 + Z.log2 b - Z.log2 a in
    let k := if a * 2 ^ Z.max k0 0 <? 2 ^ 52 * (b * 2 ^ Z.max (- k0) 0)
             then k0 + 1 else k0 in
    let m := round_half_even (a * 2 ^ Z.max k 0) (b * 2 ^ Z.max (- k) 0) in
    Qred ((Z.sgn (Qnum x) * m * 2 ^ Z.max (- k) 0) # Z.to_pos (2 ^ Z.max k 0)).

(** ** Constants of jmtx.py *)

Definition MIN_NUM_INPUTS : nat := 3.
Definition MIN_NUM_OUTPUTS : nat := 3.

(** The binary64 number written [0.000001]. *)
Definition MIN_JM_FEE : Q := 4722366482869645 # 4722366482869645213696.
(** The binary64 number written [0.03]. *)
Definition MAX_JM_FEE : Q := 1080863910568919 # 36028797018963968.
(** [Decimal('0.01')], in satoshi. *)
Definition MIN_MIX_VALUE : Z := 1000000.

(** An amount in satoshi as a number of BTC. *)
Definition btc (v : Z) : Q := v # 100000000.

(** ** Transactions *)

(** An output: [vout['value']] and [vout['scriptPubKey']['addresses']]. *)
Record Vout : Type := mkVout {
  value : Z;
  addresses : list string
}.

(** A transaction.  Each entry of [vin] is the previous output that the
    input spends, as [get_vout_being_spent_by_vin] resolves it. *)
Record Tx : Type := mkTx {
  vin : list Vout;
  vout : list Vout
}.

Definition vout_values (tx : Tx) : list Z := map value (vout tx).
Definition vin_values (tx : Tx) : list Z := map value (vin tx).

Definition get_vout_addresses (v : Vout) : list string := addresses v.

(** [Tx.total_vout_value], [Tx.total_vin_value] and [Tx.fee] of
    btccommon.py. *)
Definition total_vout_value (tx : Tx) : Z := sum (vout_values tx).

Definition total_vin_value (tx : Tx) : Z := sum (vin_values tx).

Definition fee (tx : Tx) : Z := total_vin_value tx - total_vout_value tx.

(** ** The classifier *)

(** [(None, None)] is [None]; [(v, count)] is [Some (v, count)]. *)
Definition get_value_mixed_from_values (in_values out_values : list Z)
  : result (option (Z * nat)) :=
  let output_values_counter := Counter out_values in
  match most_common_1 output_values_counter with
  | [] => Raise IndexError
  | (common_output_value, common_output_value_count) :: _ =>
      let output_values_counter := counter_pop common_output_value output_values_counter in
      if (common_output_value_count <=? 2)%nat then Ok None
      else
        match most_common_1 output_values_counter with
        | (v2, v2_count) :: _ =>
            if (v2_count =? common_output_value_count)%nat then Ok None
            else Ok (Some (common_output_value, common_output_value_count))
        | [] => Ok (Some (common_output_value, common_output_value_count))
        end
  end.

Definition get_value_mixed (tx : Tx) : result (option (Z * nat)) :=
  get_value_mixed_from_values (vin_values tx) (vout_values tx).

Definition check_potential_joinmarket_tx (tx : Tx) : result (bool * string) :=
  let num_inputs := length (vin tx) in
  let num_outputs := length (vout tx) in
  if (num_outputs <=? MIN_NUM_OUTPUTS)%nat then Ok (false, "MIN_NUM_OUTPUTS"%string)
  else if (num_inputs <=? MIN_NUM_INPUTS)%nat then Ok (false, "MIN_NUM_INPUTS"%string)
  else
    r <- get_value_mixed tx ;;
    match r with
    | None => Ok (false, "no value_mixed"%string)
    | Some (value_mixed, count) =>
        if value_mixed <? MIN_MIX_VALUE then Ok (false, "MIN_MIX_VALUE"%string)
        else if negb ((2 * Z.of_nat count - 1 <=? Z.of_nat num_outputs)
                      && (Z.of_nat num_outputs <=? 2 * Z.of_nat count))
        then Ok (false, "UNUSUAL NUMBER OF OUTPUTS"%string)
        else if (25 <? num_inputs)%nat then Ok (false, "TOO MANY INPUTS"%string)
        else Ok (true, ""%string)
    end.

Definition fee_paid_to_pair (p : list Z * list Z) : Z := sum (snd p) - sum (fst p).

Definition fee_paid_by_pair (p : list Z * list Z) : Z := - fee_paid_to_pair p.

(** ** The pairing algorithm *)

Definition DIST_PENALTY_FACTOR : Q := 1 # 10.

(** [np.indices((n, m))], flattened in row-major order as [argsort] with
    [axis=None] sees it: entry [k] is the index pair [(k // m, k % m)]. *)
Definition indices (n m : nat) : list (nat * nat) :=
  map (fun k => ((k / m)%nat, (k mod m)%nat)) (seq 0 (n * m)).

(** [d = ii[0]**2 + DIST_PENALTY_FACTOR * ii[1]**2] at one index pair. *)
Definition cost (ij : nat * nat) : Q :=
  (inject_Z (Z.of_nat (fst ij) ^ 2)
   + DIST_PENALTY_FACTOR * inject_Z (Z.of_nat (snd ij) ^ 2))%Q.

(** The index pairs [(bucket_idx, dist_idx)] in the order
    [zip( *divmod(np.argsort(d, axis=None), d.shape[1]))] gives them, with
    [np.argsort] as an argument. *)
Definition gen_index_pairs_by (np_argsort : list Q -> list nat)
    (num_bucket_sizes num_dists : nat) : list (nat * nat) :=
  let d := map cost (indices num_bucket_sizes num_dists) in
  map (fun k => ((k / num_dists)%nat, (k mod num_dists)%nat)) (np_argsort d).

Definition gen_bucket_size_dist_pairs_by (np_argsort : list Q -> list nat)
    (bucket_sizes : list nat) (dists : list Q) : list (nat * Q) :=
  let num_bucket_sizes := length bucket_sizes in
  let num_dists := length dists in
  map (fun ij => (nth (fst ij) bucket_sizes O, nth (snd ij) dists 0%Q))
      (gen_index_pairs_by np_argsort num_bucket_sizes num_dists).

Definition gen_index_pairs (num_bucket_sizes num_dists : nat) : list (nat * nat) :=
  gen_index_pairs_by argsort num_bucket_sizes num_dists.

Definition gen_bucket_size_dist_pairs (bucket_sizes : list nat) (dists : list Q)
  : list (nat * Q) :=
  gen_bucket_size_dist_pairs_by argsort bucket_sizes dists.

(** [dists = MIN_JM_FEE * 2**np.arange(4, 40)], then
    [dists = dists[dists < MAX_JM_FEE]]. *)
Definition dists : list Q :=
  filter (fun d => Qltb d MAX_JM_FEE)
         (map (fun k => (MIN_JM_FEE * inject_Z (2 ^ Z.of_nat k))%Q) (seq 4 36)).

(** The loop that splits the outputs: [change_values.remove(value_mixed)]
    and [mix_values.append(value_mixed)] until [remove] raises.  Every
    round but the last shortens [change_values], so [S (length out_values)]
    rounds are enough (lemma [split_mix_values_Some]). *)
Fixpoint split_mix_values (fuel : nat) (value_mixed : option Z)
    (change_values mix_values : list Z) : list Z * list Z :=
  match fuel with
  | O => (change_values, mix_values)
  | S fuel' =>
      match list_remove value_mixed change_values, value_mixed with
      | Some change_values', Some v =>
          split_mix_values fuel' value_mixed change_values' (mix_values ++ [v])
      | _, _ => (change_values, mix_values)
      end
  end.

(** [in_values[iidx] for iidx in iidxs] *)
Fixpoint getitems (l : list Z) (idxs : list nat) : result (list Z) :=
  match idxs with
  | [] => Ok []
  | i :: r => x <- getitem l i ;; xs <- getitems l r ;; Ok (x :: xs)
  end.

(** The loop over [enumerate(change_values)]; [cidx] is the index of the
    head of [change_values]. *)
Fixpoint scan_change (value_mixed : option Z) (sum_bucket_input : Z) (cidx : Z)
    (change_values : list Z) (min_dist : Q) (min_dist_cidx : Z) : result (Q * Z) :=
  match change_values with
  | [] => Ok (min_dist, min_dist_cidx)
  | change_value :: rest =>
      match value_mixed with
      | None => Raise TypeError
      | Some v =>
          let dist := change_value + v - sum_bucket_input in
          if Qltb MIN_JM_FEE (btc dist) && Qltb (btc dist) min_dist
          then scan_change value_mixed sum_bucket_input (cidx + 1) rest (btc dist) cidx
          else scan_change value_mixed sum_bucket_input (cidx + 1) rest min_dist min_dist_cidx
      end
  end.

(** The loop over [combinations(range(len(in_values)), bucket_size)], up
    to its [break]: the first bucket with a matching change value. *)
Fixpoint scan_buckets (value_mixed : option Z) (in_values change_values : list Z)
    (cur_max_jmfee : Q) (buckets : list (list nat)) : result (option (list nat * nat)) :=
  match buckets with
  | [] => Ok None
  | iidxs :: rest =>
      bucket <- getitems in_values iidxs ;;
      let sum_bucket_input := sum bucket in
      r <- scan_change value_mixed sum_bucket_input 0 change_values cur_max_jmfee (-1) ;;
      let min_dist_cidx := snd r in
      if 0 <=? min_dist_cidx then Ok (Some (iidxs, Z.to_nat min_dist_cidx))
      else scan_buckets value_mixed in_values change_values cur_max_jmfee rest
  end.

(** The loop over [gen_bucket_size_dist_pairs(bucket_sizes, dists)], up to
    its [break]; [None] is the [else] branch of the [for]. *)
Fixpoint find_new_pair (value_mixed : option Z) (in_values change_values : list Z)
    (candidates : list (nat * Q)) : result (option (list nat * nat)) :=
  match candidates with
  | [] => Ok None
  | (bucket_size, cur_max_jmfee) :: rest =>
      r <- scan_buckets value_mixed in_values change_values cur_max_jmfee
             (combinations (range 0 (Z.of_nat (length in_values))) bucket_size) ;;
      match r with
      | Some found => Ok (Some found)
      | None => find_new_pair value_mixed in_values change_values rest
      end
  end.

(** [for iidx in reversed(iidxs)]: move [in_values[iidx]] to [cur_inputs]. *)
Fixpoint take_inputs (ridxs : list nat) (in_values cur_inputs : list Z)
  : result (list Z * list Z) :=
  match ridxs with
  | [] => Ok (cur_inputs, in_values)
  | iidx :: rest =>
      x <- getitem in_values iidx ;;
      take_inputs rest (delitem in_values iidx) (cur_inputs ++ [x])
  end.

(** The variables of [_pair_up_inout_values] that its main loop updates. *)
Record state : Type := mkState {
  s_in_values : list Z;
  s_change_values : list Z;
  s_mix_values : list Z;
  s_pairs : list (list Z * list Z);
  s_num_pairs_left : nat
}.

(** [while num_pairs_left > 1: ...].  Every round that does not [break]
    decrements [num_pairs_left], which the recursion follows.  (The first
    assignment [cur_max_jmfee = 16*MIN_JM_FEE] is never read: the [for]
    rebinds the variable.) *)
Fixpoint pairing_loop (value_mixed : option Z) (bucket_sizes : list nat)
    (num_pairs_left : nat) (in_values change_values mix_values : list Z)
    (pairs : list (list Z * list Z)) {struct num_pairs_left} : result state :=
  match num_pairs_left with
  | S (S n as num_pairs_left') =>
      r <- find_new_pair value_mixed in_values change_values
             (gen_bucket_size_dist_pairs bucket_sizes dists) ;;
      match r with
      | Some (iidxs, min_dist_cidx) =>
          ' (cur_inputs, in_values') <- take_inputs (rev iidxs) in_values [] ;;
          ' (m, mix_values') <- pop mix_values ;;
          c <- getitem change_values min_dist_cidx ;;
          let cur_outputs := [m; c] in
          pairing_loop value_mixed bucket_sizes num_pairs_left' in_values'
            (delitem change_values min_dist_cidx) mix_values'
            (pairs ++ [(cur_inputs, cur_outputs)])
      | None => Ok (mkState in_values change_values mix_values pairs num_pairs_left)
      end
  | _ => Ok (mkState in_values change_values mix_values pairs num_pairs_left)
  end.

(** [Decimal / int].  Dividing zero by zero raises
    [decimal.InvalidOperation], which is no [ZeroDivisionError]; dividing
    another number by zero raises [decimal.DivisionByZero], which is one. *)
Definition decimal_div (x : Z) (n : Z) : result Q :=
  if n =? 0 then
    if x =? 0 then Raise InvalidOperation else Raise ZeroDivisionError
  else Ok (btc x / inject_Z n)%Q.

Definition is_nonempty {A : Type} (l : list A) : bool :=
  match l with
  | [] => false
  | _ :: _ => true
  end.

Definition _pair_up_inout_values (in_values out_values : list Z)
    (value_mixed : option Z) : result (list (list Z * list Z)) :=
  let '(change_values, mix_values) :=
    split_mix_values (S (length out_values)) value_mixed out_values [] in
  let change_values := sorted change_values in
  let num_parties := length mix_values in
  let txfee := sum in_values - sum out_values in
  if negb (0 <=? txfee) then Raise AssertionError
  else if negb ((Z.of_nat num_parties - 1 <=? Z.of_nat (length change_values))
                && (Z.of_nat (length change_values) <=? Z.of_nat num_parties))
  then Raise AssertionError
  else
    let num_pairs_left := num_parties in
    let bucket_sizes :=
      range 1 (Z.of_nat (length in_values) - Z.of_nat num_pairs_left + 2) in
    st <- pairing_loop value_mixed bucket_sizes num_pairs_left
            in_values change_values mix_values [] ;;
    st <- (if (s_num_pairs_left st =? 1)%nat then
             if negb (length (s_mix_values st) =? s_num_pairs_left st)%nat
             then Raise AssertionError
             else
               let sum_inputs := sum (s_in_values st) in
               let sum_outputs := sum (s_change_values st) + sum (s_mix_values st) in
               let total_jmfee := sum_inputs - sum_outputs - txfee in
               q <- decimal_div total_jmfee (Z.of_nat num_parties - 1) ;;
               if negb (Qltb MIN_JM_FEE q && Qltb q MAX_JM_FEE)
               then Raise (Unpairable (msg "taker fees dont add up"))
               else
                 let pair := (s_in_values st, s_mix_values st ++ s_change_values st) in
                 Ok (mkState [] [] [] (pair :: s_pairs st) (s_num_pairs_left st))
           else Ok st) ;;
    if is_nonempty (s_mix_values st) || is_nonempty (s_in_values st)
       || is_nonempty (s_change_values st)
    then Raise (Unpairable (msg_unpairable_change_values (s_change_values st)))
    else Ok (s_pairs st).

(** [value_mixed = None] is the default of the source's third argument. *)
Definition pair_up_inout_values (in_values out_values : list Z)
    (value_mixed : option Z) : result (list (list Z * list Z)) :=
  value_mixed <-
    match value_mixed with
    | None => r <- get_value_mixed_from_values in_values out_values ;; Ok (option_map fst r)
    | Some v => Ok (Some v)
    end ;;
  _pair_up_inout_values in_values out_values value_mixed.

(** ** Transactions with a pairing *)

Module JoinMarketTx.

Record t : Type := mk {
  tx : Tx;
  pairs : list (list Z * list Z)
}.

(** [set(a) & set(b)], on duplicate-free lists. *)
Definition set_inter (a b : list Z) : list Z :=
  filter (fun x => existsb (Z.eqb x) b) a.

(** The one value common to the outputs of every pair; [x, = values]
    raises [ValueError] unless exactly one value is left. *)
Definition value_mixed (self : t) : result Z :=
  match pairs self with
  | [] => Raise IndexError
  | pair0 :: rest =>
      let values :=
        fold_left (fun values pair => set_inter values (nodup Z.eq_dec (snd pair)))
                  rest (nodup Z.eq_dec (snd pair0)) in
      match values with
      | [x] => Ok x
      | _ => Raise ValueError
      end
  end.

(** [[vout for vout in self.vout if vout['value'] == self.value_mixed]]:
    the condition, and with it [value_mixed], is evaluated for each
    output, so nothing is evaluated when there is no output. *)
Definition mixed_vouts (self : t) : result (list Vout) :=
  match vout (tx self) with
  | [] => Ok []
  | _ :: _ =>
      value_mixed <- value_mixed self ;;
      Ok (filter (fun vout => value vout =? value_mixed) (vout (tx self)))
  end.

Definition num_parties (self : t) : nat := length (pairs self).

(** [float(fee_paid_by_pair(p)) > 0] *)
Definition taker_value_pair (self : t) : result (list Z * list Z) :=
  getitem (filter (fun p => 0 <? fee_paid_by_pair p) (pairs self)) 0.

(** [float(fee_paid_to_pair(p)) >= 0] *)
Definition maker_value_pairs (self : t) : list (list Z * list Z) :=
  filter (fun p => 0 <=? fee_paid_to_pair p) (pairs self).

Definition txfee (self : t) : Z :=
  sum (map (fun p => sum (fst p)) (pairs self))
  - sum (map (fun p => sum (snd p)) (pairs self)).

Definition taker_input_values (self : t) : result (list Z) :=
  taker_value_pair <- taker_value_pair self ;; Ok (fst taker_value_pair).

Definition taker_output_values (self : t) : result (list Z) :=
  taker_value_pair <- taker_value_pair self ;; Ok (snd taker_value_pair).

Definition total_jm_fee (self : t) : result Z :=
  taker_pair <- taker_value_pair self ;;
  let total_taker_fee := sum (fst taker_pair) - sum (snd taker_pair) in
  Ok (total_taker_fee - txfee self).

End JoinMarketTx.

Definition to_joinmarket_tx (tx : Tx) : result JoinMarketTx.t :=
  r <- check_potential_joinmarket_tx tx ;;
  let '(is_ok, desc) := r in
  if negb is_ok then Raise (Unpairable (msg desc))
  else
    pairs <- pair_up_inout_values (vin_values tx) (vout_values tx) None ;;
    Ok (JoinMarketTx.mk tx pairs).

Module UnmixedJoinMarketTx.

Record t : Type := mk {
  jmtx : JoinMarketTx.t;
  maker_addresses : list string
}.

(** [not (self.maker_addresses & set(get_vout_addresses(vout)))] *)
Definition no_maker_address (self : t) (vout : Vout) : bool :=
  negb (existsb (fun a => existsb (String.eqb a) (maker_addresses self))
                (get_vout_addresses vout)).

Definition possible_taker_mixed_vouts (self : t) : result (list Vout) :=
  mixed_vouts <- JoinMarketTx.mixed_vouts (jmtx self) ;;
  Ok (filter (no_maker_address self) mixed_vouts).

(** [None] is Python's [None]; the quotient is [int / int], a float. *)
Definition unmix_level (self : t) : result (option Q) :=
  vouts <- possible_taker_mixed_vouts self ;;
  let possible_takers := Z.of_nat (length vouts) in
  if possible_takers =? 0 then Ok None
  else
    let num_parties := Z.of_nat (JoinMarketTx.num_parties (jmtx self)) in
    let possible_makers := num_parties - possible_takers in
    if num_parties - 1 =? 0 then Raise ZeroDivisionError
    else Ok (Some (binary64 (inject_Z possible_makers / inject_Z (num_parties - 1)))).

Definition add_maker_address (self : t) (addr : string) : t :=
  mk (jmtx self) (set_add addr (maker_addresses self)).

Definition possible_taker_mix_addresses (self : t) : result (list (list string)) :=
  vouts <- possible_taker_mixed_vouts self ;;
  Ok (map get_vout_addresses vouts).

End UnmixedJoinMarketTx.

(** ** Pass 1 of analyze_jmtxs.py *)

(** [vin_values.index(value)] on a list whose consumed entries are [None]. *)
Fixpoint index (value : Z) (vin_values : list (option Z)) : result nat :=
  match vin_values with
  | [] => Raise ValueError
  | Some v :: t => if v =? value then Ok O else i <- index value t ;; Ok (S i)
  | None :: t => i <- index value t ;; Ok (S i)
  end.

(** [vin_values[i] = None] *)
Fixpoint set_None (vin_values : list (option Z)) (i : nat) : list (option Z) :=
  match vin_values, i with
  | [], _ => []
  | _ :: t, O => None :: t
  | x :: t, S i' => x :: set_None t i'
  end.

(** [for addr in ...: assert 30 <= len(addr) <= 36; addresses.add(addr)] *)
Fixpoint add_addresses (addrs : list string) (addresses : list string)
  : result (list string) :=
  match addrs with
  | [] => Ok addresses
  | addr :: rest =>
      if negb ((30 <=? String.length addr)%nat && (String.length addr <=? 36)%nat)
      then Raise AssertionError
      else add_addresses rest (set_add addr addresses)
  end.

(** The body of [for value in maker_pair[0]], for the values of one pair
    (or of several pairs in a row). *)
Fixpoint seed_values (jmtx : JoinMarketTx.t) (values : list Z)
    (vin_values : list (option Z)) (addresses : list string)
  : result (list (option Z) * list string) :=
  match values with
  | [] => Ok (vin_values, addresses)
  | value :: rest =>
      i <- index value vin_values ;;
      let vin_values := set_None vin_values i in
      back_vout <- getitem (vin (JoinMarketTx.tx jmtx)) i ;;
      addresses <- add_addresses (get_vout_addresses back_vout) addresses ;;
      seed_values jmtx rest vin_values addresses
  end.

Fixpoint seed_pairs (jmtx : JoinMarketTx.t) (maker_pairs : list (list Z * list Z))
    (vin_values : list (option Z)) (addresses : list string)
  : result (list (option Z) * list string) :=
  match maker_pairs with
  | [] => Ok (vin_values, addresses)
  | maker_pair :: rest =>
      r <- seed_values jmtx (fst maker_pair) vin_values addresses ;;
      seed_pairs jmtx rest (fst r) (snd r)
  end.

Definition extract_maker_addresses_from_tx (jmtx : JoinMarketTx.t)
  : result (list string) :=
  let addresses := [] in
  let vin_values := map Some (vin_values (JoinMarketTx.tx jmtx)) in
  r <- seed_pairs jmtx (JoinMarketTx.maker_value_pairs jmtx) vin_values addresses ;;
  Ok (snd r).

(** ** Vocabulary of the properties *)

(** Index lists that increase strictly, from [lo] or more to less than [hi]. *)
Fixpoint increasing (lo : nat) (l : list nat) (hi : nat) : Prop :=
  match l with
  | [] => True
  | i :: r => (lo <= i < hi)%nat /\ increasing (S i) r hi
  end.

(** The order that [argsort] establishes on the indices of [keys]. *)
Definition by_key (keys : list Q) (i j : nat) : Prop :=
  (nth i keys 0 <= nth j keys 0)%Q.

(** What [np.argsort] promises of its result, whatever the kind of sort:
    every index once, in an order along which the keys do not decrease. *)
Definition is_argsort (keys : list Q) (order : list nat) : Prop :=
  Permutation order (seq 0 (length keys)) /\ StronglySorted (by_key keys) order.

(** What a found bucket is: in-range increasing input indices and a change
    index whose excess lies between the fee floor and a tolerance [d]. *)
Definition is_match (v : Z) (in_values change_values : list Z) (tolerances : list Q)
    (found : list nat * nat) : Prop :=
  increasing 0 (fst found) (length in_values)
  /\ exists bucket c d,
      In d tolerances
      /\ getitems in_values (fst found) = Ok bucket
      /\ nth_error change_values (snd found) = Some c
      /\ (MIN_JM_FEE < btc (c + v - sum bucket))%Q
      /\ (btc (c + v - sum bucket) < d)%Q.

(** A group found by the main loop: one mix output, one change output, and
    a fee between the floor and the ceiling. *)
Definition maker_group (v : Z) (change_values : list Z) (p : list Z * list Z) : Prop :=
  exists c,
    snd p = [v; c] /\ In c change_values
    /\ (MIN_JM_FEE < btc (fee_paid_to_pair p))%Q
    /\ (btc (fee_paid_to_pair p) < MAX_JM_FEE)%Q.

(** What the main loop guarantees about its final state [st], started with
    [n] mix values [v]; [makers] are the groups it appended to [pairs]. *)
Definition loop_post (v : Z) (n : nat) (in_values change_values : list Z)
    (pairs : list (list Z * list Z)) (st : state)
    (makers : list (list Z * list Z)) : Prop :=
  s_pairs st = pairs ++ makers
  /\ Forall (maker_group v change_values) makers
  /\ Permutation in_values (s_in_values st ++ concat (map fst makers))
  /\ Permutation (repeat v n ++ change_values)
       (s_mix_values st ++ s_change_values st ++ concat (map snd makers))
  /\ s_mix_values st = repeat v (s_num_pairs_left st)
  /\ (s_num_pairs_left st + length makers = n)%nat
  /\ (length (s_change_values st) + length makers = length change_values)%nat
  /\ (1 <= n -> 1 <= s_num_pairs_left st)%nat
  /\ (forall c, In c (s_change_values st) -> In c change_values).

(** A successful pairing is empty (no mix value at all, no inputs and no
    outputs), or it is the taker's group followed by the groups the main
    loop found. *)
Definition pairing_shape (in_values out_values : list Z) (value_mixed : option Z)
    (pairs : list (list Z * list Z)) : Prop :=
  (in_values = [] /\ out_values = [] /\ pairs = [])
  \/ exists v taker_inputs taker_change makers change_values,
      value_mixed = Some v
      /\ pairs = (taker_inputs, v :: taker_change) :: makers
      /\ makers <> []
      /\ Forall (maker_group v change_values) makers
      /\ ~ In v change_values
      /\ (forall c, In c taker_change -> In c change_values)
      /\ (length taker_change <= 1)%nat
      /\ Permutation in_values (taker_inputs ++ concat (map fst makers))
      /\ Permutation out_values ((v :: taker_change) ++ concat (map snd makers))
      /\ Permutation out_values (repeat v (S (length makers)) ++ change_values)
      /\ 0 <= sum in_values - sum out_values
      /\ fee_paid_to_pair (taker_inputs, v :: taker_change) < 0.

(** [c[x]]: the count stored for [x], 0 when [x] is no key. *)
Fixpoint counter_get (c : list (Z * nat)) (x : Z) : nat :=
  match c with
  | [] => O
  | (y, n) :: t => if x =? y then n else counter_get t x
  end.

(** The number of mix values that [_pair_up_inout_values] splits off. *)
Definition mix_count (value_mixed : option Z) (out_values : list Z) : nat :=
  match value_mixed with
  | Some v => count_occ Z.eq_dec out_values v
  | None => O
  end.

(** The ends of [_pair_up_inout_values]: a pairing, [Unpairable] with one
    of its two messages, a failed [assert] on the fee or on the number of
    change values, or the division of zero by [num_parties - 1 = 0]. *)
Definition expected_outcome (in_values out_values : list Z) (value_mixed : option Z)
    (r : result (list (list Z * list Z))) : Prop :=
  match r with
  | Ok _ => True
  | Raise (Unpairable (msg s)) => s = "taker fees dont add up"%string
  | Raise (Unpairable (msg_unpairable_change_values _)) => True
  | Raise AssertionError =>
      sum in_values < sum out_values
      \/ let n := Z.of_nat (mix_count value_mixed out_values) in
         ~ (n - 1 <= Z.of_nat (length out_values) - n <= n)
  | Raise InvalidOperation => mix_count value_mixed out_values = 1%nat
  | Raise _ => False
  end.

(** The ends of [pair_up_inout_values] called without a third argument. *)
Definition expected_default_outcome (in_values out_values : list Z)
    (r : result (list (list Z * list Z))) : Prop :=
  match r with
  | Ok _ => True
  | Raise (Unpairable (msg s)) => s = "taker fees dont add up"%string
  | Raise (Unpairable (msg_unpairable_change_values _)) => True
  | Raise AssertionError =>
      sum in_values < sum out_values
      \/ exists r,
          get_value_mixed_from_values in_values out_values = Ok r
          /\ let n := Z.of_nat (mix_count (option_map fst r) out_values) in
             ~ (n - 1 <= Z.of_nat (length out_values) - n <= n)
  | Raise IndexError => out_values = []
  | Raise _ => False
  end.

(** The candidates as pairs of a bucket size and the index of a tolerance
    in [dists]. *)
Definition candidate_indices (bucket_sizes : list nat) (num_dists : nat)
  : list (nat * nat) :=
  map (fun ij => (nth (fst ij) bucket_sizes O, snd ij))
      (gen_index_pairs (length bucket_sizes) num_dists).

(** The values still to be found in a partly consumed [vin_values]. *)
Definition unconsumed (vin_values : list (option Z)) : list Z :=
  flat_map (fun o => match o with Some v => [v] | None => [] end) vin_values.

(** What a run of the seeding loop over [values] guarantees: it ends
    normally having consumed exactly [values], or it fails the [assert] on
    an address length; the lookup itself never fails. *)
Definition seeded (values : list Z) (vin_values : list (option Z))
    (r : result (list (option Z) * list string)) : Prop :=
  match r with
  | Ok (vin_values', _) =>
      length vin_values' = length vin_values
      /\ Permutation (unconsumed vin_values) (values ++ unconsumed vin_values')
  | Raise e => e = AssertionError
  end.

(** ** Worked transactions *)

(** A three-party join: two makers fund 1.1 BTC each and earn 1000
    satoshi, the taker funds 0.5 + 0.55 BTC and pays them and a mining fee of
    1000 satoshi. *)
Definition example_tx : Tx :=
  mkTx
    [ mkVout 110000000 ["1MakerOneFundingAddressxxxxxxxxxxx"%string];
      mkVout 110000000 ["1MakerTwoFundingAddressxxxxxxxxxxx"%string];
      mkVout 50000000 ["1TakerFundingAddressAxxxxxxxxxxxxx"%string];
      mkVout 55000000 ["1TakerFundingAddressBxxxxxxxxxxxxx"%string] ]
    [ mkVout 100000000 ["1MixOutputOfMakerOnexxxxxxxxxxxxxx"%string];
      mkVout 100000000 ["1MixOutputOfMakerTwoxxxxxxxxxxxxxx"%string];
      mkVout 100000000 ["1MixOutputOfTheTakerxxxxxxxxxxxxxx"%string];
      mkVout 10001000 ["1ChangeOfMakerOnexxxxxxxxxxxxxxxxx"%string];
      mkVout 10001000 ["1ChangeOfMakerTwoxxxxxxxxxxxxxxxxx"%string];
      mkVout 4997000 ["1ChangeOfTheTakerxxxxxxxxxxxxxxxxx"%string] ].

Definition example_pairs : list (list Z * list Z) :=
  [ ([50000000; 55000000], [100000000; 4997000]);
    ([110000000], [100000000; 10001000]);
    ([110000000], [100000000; 10001000]) ].

(** Scenario A of the specification, in satoshi. *)
Definition scenario_A_inputs : list Z :=
  [110000000; 110000000; 110000000; 110000000;
   20000000; 20000000; 20000000; 20000000; 5000000].

Definition scenario_A_outputs : list Z :=
  [100000000; 100000000; 100000000; 100000000; 100000000;
   9900000; 9900000; 9900000; 9900000].

(** A transaction with two inputs and two outputs (scenario B). *)
Definition scenario_B_tx : Tx :=
  mkTx [ mkVout 60000000 []; mkVout 50000000 [] ]
       [ mkVout 100000000 []; mkVout 9990000 [] ].

(** A four-party join: three makers fund 1.1 BTC each and earn 1000
    satoshi, the taker funds 0.5 + 0.55 BTC and pays them and a mining fee
    of 1000 satoshi. *)
Definition four_party_tx : Tx :=
  mkTx
    [ mkVout 110000000 ["1MakerOneFundingAddressxxxxxxxxxxx"%string];
      mkVout 110000000 ["1MakerTwoFundingAddressxxxxxxxxxxx"%string];
      mkVout 110000000 ["1MakerThreeFundingAddressxxxxxxxxx"%string];
      mkVout 50000000 ["1TakerFundingAddressAxxxxxxxxxxxxx"%string];
      mkVout 55000000 ["1TakerFundingAddressBxxxxxxxxxxxxx"%string] ]
    [ mkVout 100000000 ["1MixOutputOfMakerOnexxxxxxxxxxxxxx"%string];
      mkVout 100000000 ["1MixOutputOfMakerTwoxxxxxxxxxxxxxx"%string];
      mkVout 100000000 ["1MixOutputOfMakerThreexxxxxxxxxxxx"%string];
      mkVout 100000000 ["1MixOutputOfTheTakerxxxxxxxxxxxxxx"%string];
      mkVout 10001000 ["1ChangeOfMakerOnexxxxxxxxxxxxxxxxx"%string];
      mkVout 10001000 ["1ChangeOfMakerTwoxxxxxxxxxxxxxxxxx"%string];
      mkVout 10001000 ["1ChangeOfMakerThreexxxxxxxxxxxxxxx"%string];
      mkVout 4996000 ["1ChangeOfTheTakerxxxxxxxxxxxxxxxxx"%string] ].

Definition four_party_pairs : list (list Z * list Z) :=
  [ ([50000000; 55000000], [100000000; 4996000]);
    ([110000000], [100000000; 10001000]);
    ([110000000], [100000000; 10001000]);
    ([110000000], [100000000; 10001000]) ].

(** Inputs worth less than the outputs. *)
Definition overspending_inputs : list Z := [50000000; 50000000; 50000000; 50000000].
Definition overspending_outputs : list Z := [100000000; 100000000; 100000000; 100000000].

(** The change value that the scan of [change_values] settles on for a
    bucket: its excess lies between the fee floor and the tolerance, no
    change value with an excess above the floor is smaller, and among equal
    ones it is the first. *)
Definition best_change (v : Z) (change_values bucket : list Z) (tolerance : Q)
    (cidx : nat) (c : Z) : Prop :=
  nth_error change_values cidx = Some c
  /\ (MIN_JM_FEE < btc (c + v - sum bucket))%Q
  /\ (btc (c + v - sum bucket) < tolerance)%Q
  /\ forall j c',
      nth_error change_values j = Some c' ->
      (MIN_JM_FEE < btc (c' + v - sum bucket))%Q ->
      c <= c' /\ (c' = c -> (cidx <= j)%nat).

(** A found pair of a bucket and a change index, with the candidate and
    the combination it comes from. *)
Definition found_by (v : Z) (in_values change_values : list Z)
    (candidates : list (nat * Q)) (found : list nat * nat)
    (bucket : list Z) (c : Z) : Prop :=
  exists bucket_size d,
    In (bucket_size, d) candidates
    /\ In (fst found) (combinations (seq 0 (length in_values)) bucket_size)
    /\ getitems in_values (fst found) = Ok bucket
    /\ best_change v change_values bucket d (snd found) c.

(** The last and largest entry of [dists], [0.000001 * 2**14]. *)
Definition largest_dist : Q := (MIN_JM_FEE * inject_Z (2 ^ Z.of_nat 14))%Q.

(** ** find_jmtxs.py *)

(** [process_tx], from the point where the transaction has been fetched:
    [Unpairable] is caught and gives [None], anything else propagates. *)
Definition process_tx (tx : Tx) : result (option JoinMarketTx.t) :=
  match to_joinmarket_tx tx with
  | Ok jmtx => Ok (Some jmtx)
  | Raise (Unpairable _) => Ok None
  | Raise e => Raise e
  end.

(** A value that occurs more than twice among the outputs and strictly
    more often than any other value. *)
Definition unique_mix_value (out_values : list Z) (v : Z) (count : nat) : Prop :=
  count = count_occ Z.eq_dec out_values v
  /\ (2 < count)%nat
  /\ forall w, w <> v -> (count_occ Z.eq_dec out_values w < count)%nat.

(** The ends of [to_joinmarket_tx]. *)
Definition expected_to_joinmarket_tx (tx : Tx) (r : result JoinMarketTx.t) : Prop :=
  match r with
  | Ok _ => True
  | Raise (Unpairable (msg desc)) => check_potential_joinmarket_tx tx = Ok (false, desc)
  | Raise (Unpairable (msg_unpairable_change_values _)) => True
  | Raise AssertionError => fee tx < 0
  | Raise _ => False
  end.

(** ** Passes 1 and 2 of analyze_jmtxs.py over a corpus *)

(** An [OrderedDict] keyed by transaction id, as the list of its items.
    [odict_set] is [d[key] = value]: a key that is present keeps its place
    and gets the new value, a new key goes to the end. *)
Fixpoint odict_set {V : Type} (key : string) (value : V) (d : list (string * V))
  : list (string * V) :=
  match d with
  | [] => [(key, value)]
  | (k, x) :: t =>
      if String.eqb k key then (k, value) :: t else (k, x) :: odict_set key value t
  end.

(** [d[key]], [None] standing for the [KeyError]. *)
Fixpoint odict_get {V : Type} (key : string) (d : list (string * V)) : option V :=
  match d with
  | [] => None
  | (k, x) :: t => if String.eqb k key then Some x else odict_get key t
  end.

(** [get_all_jmtxs]; each file is the list of the transactions that
    [iter_pkl_list] yields from it, each given with its [tx.id]. *)
Definition get_all_jmtxs (infiles : list (list (string * JoinMarketTx.t)))
  : list (string * JoinMarketTx.t) :=
  fold_left (fun txs tx => odict_set (fst tx) (snd tx) txs) (concat infiles) [].

(** [addresses.update(tx_addresses)] *)
Definition set_update (addresses tx_addresses : list string) : list string :=
  fold_left (fun s a => set_add a s) tx_addresses addresses.

(** The loop of [extract_maker_addresses] over the results of the workers,
    which come in the order of the corpus. *)
Fixpoint extract_maker_addresses_from (jmtxs : list JoinMarketTx.t)
    (addresses : list string) : result (list string) :=
  match jmtxs with
  | [] => Ok addresses
  | jmtx :: rest =>
      tx_addresses <- extract_maker_addresses_from_tx jmtx ;;
      extract_maker_addresses_from rest (set_update addresses tx_addresses)
  end.

Definition extract_maker_addresses (jmtxs : list (string * JoinMarketTx.t))
  : result (list string) :=
  extract_maker_addresses_from (map snd jmtxs) [].

(** [maker_address_set & set(vout_addrs)] is not empty. *)
Definition has_maker_address (maker_address_set vout_addrs : list string) : bool :=
  existsb (fun a => existsb (String.eqb a) maker_address_set) vout_addrs.

(** The body of [for vout in tx.vout] in [mark_makers]. *)
Definition mark_vout (maker_address_set : list string) (ttx : UnmixedJoinMarketTx.t)
    (vout : Vout) : UnmixedJoinMarketTx.t :=
  let vout_addrs := get_vout_addresses vout in
  if has_maker_address maker_address_set vout_addrs
  then fold_left UnmixedJoinMarketTx.add_maker_address vout_addrs ttx
  else ttx.

(** The body of [for txid, tx in ITEMS] in [mark_makers], up to the
    assignment [tjmtxs[txid] = ttx]. *)
Definition mark_tx (maker_address_set : list string) (tx : JoinMarketTx.t)
  : UnmixedJoinMarketTx.t :=
  fold_left (mark_vout maker_address_set) (vout (JoinMarketTx.tx tx))
            (UnmixedJoinMarketTx.mk tx []).

Definition mark_makers (jmtxs : list (string * JoinMarketTx.t))
    (maker_address_set : list string) : list (string * UnmixedJoinMarketTx.t) :=
  fold_left (fun tjmtxs item =>
               odict_set (fst item) (mark_tx maker_address_set (snd item)) tjmtxs)
            jmtxs [].

Definition get_unmix_level (tx : UnmixedJoinMarketTx.t) : result (option Q) :=
  UnmixedJoinMarketTx.unmix_level tx.

(** The inputs that a run of Pass 1 consumed, by index: input [i] has the
    value [v]. *)
Definition input_has_value (tx : Tx) (i : nat) (v : Z) : Prop :=
  exists w, nth_error (vin tx) i = Some w /\ value w = v.

(** [30 <= len(addr) <= 36] *)
Definition address_length_ok (addr : string) : Prop :=
  (30 <= String.length addr <= 36)%nat.

(** What [extract_maker_addresses_from_tx] returns for the inputs
    [idxs]: the addresses of these inputs, each once. *)
Definition addresses_of_inputs (tx : Tx) (idxs : list nat) (addrs : list string) : Prop :=
  NoDup addrs
  /\ forall a, In a addrs
       <-> exists i w, In i idxs /\ nth_error (vin tx) i = Some w /\ In a (addresses w).

(** The state that the seeding loop keeps: the entries of [vin_values]
    are the values of the inputs, with [None] at the indices [idxs]
    consumed so far, and [addrs] holds the addresses of these inputs. *)
Definition seeding_inv (tx : Tx) (vin_values : list (option Z)) (addrs : list string)
    (idxs : list nat) : Prop :=
  (forall i v, nth_error vin_values i = Some (Some v) -> input_has_value tx i v)
  /\ (forall i, In i idxs -> nth_error vin_values i = Some None)
  /\ NoDup idxs
  /\ addresses_of_inputs tx idxs addrs
  /\ Forall address_length_ok addrs.

(** [list(map_with_progressbar(get_unmix_level, tjmtxs, ...))]: the levels
    in the order of the transactions; the first exception is re-raised. *)
Fixpoint get_unmix_levels (tjmtxs : list UnmixedJoinMarketTx.t)
  : result (list (option Q)) :=
  match tjmtxs with
  | [] => Ok []
  | tx :: rest =>
      level <- get_unmix_level tx ;;
      levels <- get_unmix_levels rest ;;
      Ok (level :: levels)
  end.

(** The last entry loaded with a given id. *)
Definition last_loaded (txid : string) (loaded : list (string * JoinMarketTx.t))
  : option JoinMarketTx.t :=
  option_map snd (find (fun tx => String.eqb (fst tx) txid) (rev loaded)).

(** An earlier join of the same amounts, one of whose mix outputs pays the
    address that maker one spends from in [example_tx]; and the corpus of
    the two. *)
Definition earlier_tx : Tx :=
  mkTx
    [ mkVout 110000000 ["1EarlierFundingOfMakerOnexxxxxxxxx"%string];
      mkVout 110000000 ["1EarlierFundingOfMakerTwoxxxxxxxxx"%string];
      mkVout 50000000 ["1EarlierFundingOfTakerAxxxxxxxxxxx"%string];
      mkVout 55000000 ["1EarlierFundingOfTakerBxxxxxxxxxxx"%string] ]
    [ mkVout 100000000 ["1MakerOneFundingAddressxxxxxxxxxxx"%string];
      mkVout 100000000 ["1EarlierMixOutputTwoxxxxxxxxxxxxxx"%string];
      mkVout 100000000 ["1EarlierMixOutputThreexxxxxxxxxxxx"%string];
      mkVout 10001000 ["1EarlierChangeOnexxxxxxxxxxxxxxxxx"%string];
      mkVout 10001000 ["1EarlierChangeTwoxxxxxxxxxxxxxxxxx"%string];
      mkVout 4997000 ["1EarlierChangeThreexxxxxxxxxxxxxxx"%string] ].

Definition example_corpus : list (string * JoinMarketTx.t) :=
  [ ("earlier"%string, JoinMarketTx.mk earlier_tx example_pairs);
    ("later"%string, JoinMarketTx.mk example_tx example_pairs) ].

(** A level as [unmix_level] documents it: [None], or a number in [0,1]. *)
Definition level_in_range (level : option Q) : Prop :=
  match level with
  | None => True
  | Some q => (0 <= q <= 1)%Q
  end.

(** ** misc.py: choosing the file to open *)

(** [s.endswith(suffix)] *)
Fixpoint endswith (s suffix : string) : bool :=
  String.eqb s suffix
  || match s with
     | EmptyString => false
     | String _ s' => endswith s' suffix
     end.

(** [path[:-n]] for [n > 0] *)
Definition drop_last (path : string) (n : nat) : string :=
  substring 0 (String.length path - n) path.

Definition GZIP_EXTENSIONS : list (string * string) :=
  [ (".tgz", ".tar"); (".gz", EmptyString) ]%string.

(** The second loop of [_modify_gzip_extension]: the path rewritten for
    the first pair whose source extension it ends with. *)
Fixpoint replace_extension (path : string) (extensions : list (string * string))
  : option string :=
  match extensions with
  | [] => None
  | (tgt_ext, src_ext) :: rest =>
      if endswith path src_ext
      then
        let base_path :=
          if (0 <? String.length src_ext)%nat
          then drop_last path (String.length src_ext) else path in
        Some (base_path ++ tgt_ext)%string
      else replace_extension path rest
  end.

Definition _modify_gzip_extension (path : string) (extensions : list (string * string))
    (strict : bool) : result string :=
  if negb strict && existsb (fun e => endswith path (fst e)) extensions
  then Ok path
  else
    match replace_extension path extensions with
    | Some p => Ok p
    | None => if strict then Raise AssertionError else Ok path
    end.

Definition _to_gzip_extension (path : string) (strict : bool) : result string :=
  _modify_gzip_extension path GZIP_EXTENSIONS strict.

Definition _is_gzip (path : string) : result bool :=
  p <- _to_gzip_extension path false ;;
  Ok (String.eqb p path).

Inductive open_func : Type := GzipFile | builtin_open.

(** [gzopen] up to the call [open_func(target_path, mode, **kwargs)] that
    it ends with: the function and the path of that call.  [isfile] is
    [os.path.isfile] on the file system of the moment; [add_ext] is [None]
    when the argument is left out. *)
Definition gzopen (isfile : string -> bool) (path mode : string) (add_ext : option bool)
  : result (open_func * string) :=
  match String.get 0 mode with
  | None => Raise IndexError
  | Some c =>
      let look_for_existing := (Ascii.eqb c "r" || Ascii.eqb c "a")%char in
      let add_ext :=
        match add_ext with
        | None => look_for_existing
        | Some b => b
        end in
      let orig_path := path in
      let orig_path_exists := isfile orig_path in
      gz_path <- (if add_ext then _to_gzip_extension orig_path false else Ok orig_path) ;;
      let gz_path_exists := isfile gz_path in
      let target_path := if add_ext then gz_path else orig_path in
      let target_path :=
        if look_for_existing
        then if negb orig_path_exists && gz_path_exists then gz_path else orig_path
        else target_path in
      is_gzip <- _is_gzip target_path ;;
      Ok (if is_gzip then GzipFile else builtin_open, target_path)
  end.

(** The file system after a file was created at [target]. *)
Definition created (isfile : string -> bool) (target : string) : string -> bool :=
  fun p => String.eqb p target || isfile p.

(** A path that names a gzip file. *)
Definition gzip_like (path : string) : bool :=
  endswith path ".tgz" || endswith path ".gz".

(** * Properties *)

(** ** Results *)

Lemma bind_Ok {A B : Type} (r : result A) (k : A -> result B) (b : B) :
  bind r k = Ok b -> exists a, r = Ok a /\ k a = Ok b.
Proof.
  destruct r as [a | e]; simpl; intros H.
  - exists a. split; [reflexivity | exact H].
  - discriminate H.
Qed.

Ltac bind_inv H :=
  let a := fresh "a" in
  let Ha := fresh "Ha" in
  apply bind_Ok in H; destruct H as [a [Ha H]].

Lemma decimal_div_Ok (x n : Z) (q : Q) :
  decimal_div x n = Ok q -> n <> 0 /\ q = (btc x / inject_Z n)%Q.
Proof.
  unfold decimal_div. destruct (n =? 0) eqn:E.
  - destruct (x =? 0); discriminate.
  - apply Z.eqb_neq in E. intros [= <-]. split; [exact E | reflexivity].
Qed.

(** ** Sums *)

Lemma fold_left_add_acc (l : list Z) (a : Z) :
  fold_left Z.add l a = a + fold_left Z.add l 0.
Proof.
  revert a. induction l as [| x l IH]; intros a; simpl.
  - lia.
  - rewrite (IH (a + x)), (IH x). lia.
Qed.

Lemma sum_nil : sum [] = 0.
Proof. reflexivity. Qed.

Lemma sum_cons (x : Z) (l : list Z) : sum (x :: l) = x + sum l.
Proof. unfold sum. simpl. apply fold_left_add_acc. Qed.

Lemma sum_app (l1 l2 : list Z) : sum (l1 ++ l2) = sum l1 + sum l2.
Proof.
  induction l1 as [| x l1 IH]; cbn [app].
  - rewrite sum_nil. lia.
  - rewrite !sum_cons, IH. lia.
Qed.

Lemma sum_Permutation (l1 l2 : list Z) : Permutation l1 l2 -> sum l1 = sum l2.
Proof.
  induction 1 as [| x l l' _ IH | x y l | l l' l'' _ IH1 _ IH2].
  - reflexivity.
  - rewrite !sum_cons, IH. reflexivity.
  - rewrite !sum_cons. lia.
  - congruence.
Qed.

Lemma sum_rev (l : list Z) : sum (rev l) = sum l.
Proof. apply sum_Permutation, Permutation_sym, Permutation_rev. Qed.

Lemma sum_repeat (v : Z) (n : nat) : sum (repeat v n) = Z.of_nat n * v.
Proof.
  induction n as [| n IH].
  - reflexivity.
  - cbn [repeat]. rewrite sum_cons, IH. lia.
Qed.

(** ** Comparisons of rationals and amounts *)

Lemma Qltb_lt (x y : Q) : Qltb x y = true <-> (x < y)%Q.
Proof. unfold Qltb, Qlt. apply Z.ltb_lt. Qed.

Lemma btc_lt (a b : Z) : (btc a < btc b)%Q <-> a < b.
Proof. unfold btc, Qlt. simpl. lia. Qed.

Lemma btc_pos (a : Z) : (0 < btc a)%Q <-> 0 < a.
Proof. unfold btc, Qlt. simpl. lia. Qed.

Lemma MIN_JM_FEE_pos : (0 < MIN_JM_FEE)%Q.
Proof. reflexivity. Qed.

(** On satoshi amounts the two thresholds are [100 <= v] and
    [v < 3000000]: the binary64 [0.000001] lies just below 100 satoshi
    and the binary64 [0.03] just below 3000000 satoshi. *)
Lemma MIN_JM_FEE_lt_btc (v : Z) : (MIN_JM_FEE < btc v)%Q <-> 100 <= v.
Proof. unfold MIN_JM_FEE, btc, Qlt. simpl. lia. Qed.

Lemma btc_lt_MAX_JM_FEE (v : Z) : (btc v < MAX_JM_FEE)%Q <-> v < 3000000.
Proof. unfold MAX_JM_FEE, btc, Qlt. simpl. lia. Qed.

Lemma dists_below_MAX : Forall (fun d => (d < MAX_JM_FEE)%Q) (0%Q :: dists).
Proof.
  constructor.
  - reflexivity.
  - unfold dists. apply Forall_forall. intros d Hd.
    apply filter_In in Hd. destruct Hd as [_ Hd]. apply Qltb_lt. exact Hd.
Qed.

(** ** Lists: indexing, removal and sorting *)

Lemma getitem_Ok {A : Type} (l : list A) (i : nat) (x : A) :
  getitem l i = Ok x <-> nth_error l i = Some x.
Proof.
  unfold getitem. destruct (nth_error l i); split; intros H; congruence.
Qed.

Lemma getitem_lt {A : Type} (l : list A) (i : nat) :
  (i < length l)%nat -> exists x, getitem l i = Ok x.
Proof.
  intros H. unfold getitem. destruct (nth_error l i) as [x |] eqn:E.
  - exists x. reflexivity.
  - apply nth_error_None in E. lia.
Qed.

Lemma delitem_Permutation {A : Type} (l : list A) (i : nat) (x : A) :
  nth_error l i = Some x -> Permutation l (x :: delitem l i).
Proof.
  revert i. induction l as [| y l IH]; intros [| i] H; simpl in H.
  - discriminate.
  - discriminate.
  - injection H as ->. reflexivity.
  - unfold delitem. cbn [firstn skipn app].
    rewrite perm_swap. constructor. apply IH. exact H.
Qed.

Lemma delitem_length {A : Type} (l : list A) (i : nat) :
  (i < length l)%nat -> length (delitem l i) = pred (length l).
Proof.
  intros H. unfold delitem. rewrite length_app, length_firstn, length_skipn. lia.
Qed.

Lemma delitem_nth_error_lt {A : Type} (l : list A) (i j : nat) :
  (j < i)%nat -> nth_error (delitem l i) j = nth_error l j.
Proof.
  revert i j. induction l as [| y l IH]; intros i j Hji.
  - unfold delitem. rewrite firstn_nil, skipn_nil. reflexivity.
  - destruct i as [| i]; [lia |]. unfold delitem. cbn [firstn skipn app].
    destruct j as [| j]; [reflexivity |]. simpl. apply IH. lia.
Qed.

Lemma pop_app {A : Type} (l : list A) (x : A) : pop (l ++ [x]) = Ok (x, l).
Proof. unfold pop. rewrite rev_app_distr. simpl. rewrite rev_involutive. reflexivity. Qed.

Lemma pop_Ok {A : Type} (l l' : list A) (x : A) : pop l = Ok (x, l') -> l = l' ++ [x].
Proof.
  unfold pop. destruct (rev l) as [| y r] eqn:E; intros H; [discriminate |].
  injection H as -> <-. rewrite <- (rev_involutive l), E. reflexivity.
Qed.

Lemma insert_sorted_Permutation (x : Z) (l : list Z) :
  Permutation (x :: l) (insert_sorted x l).
Proof.
  induction l as [| y l IH]; simpl.
  - reflexivity.
  - destruct (x <=? y).
    + reflexivity.
    + rewrite perm_swap. constructor. exact IH.
Qed.

Lemma sorted_Permutation (l : list Z) : Permutation l (sorted l).
Proof.
  induction l as [| x l IH]; simpl.
  - constructor.
  - rewrite <- insert_sorted_Permutation. constructor. exact IH.
Qed.

(** ** Splitting the outputs into mix values and change values *)

Lemma list_remove_Some (v : Z) (l l' : list Z) :
  list_remove (Some v) l = Some l' ->
  Permutation l (v :: l') /\ length l = S (length l').
Proof.
  revert l'. induction l as [| y l IH]; intros l' H; simpl in H.
  - discriminate.
  - destruct (y =? v) eqn:E.
    + apply Z.eqb_eq in E. subst y. injection H as <-. split; reflexivity.
    + destruct (list_remove (Some v) l) as [t |]; [| discriminate].
      injection H as <-. destruct (IH t eq_refl) as [HP HL]. split.
      * rewrite perm_swap. constructor. exact HP.
      * simpl. rewrite HL. reflexivity.
Qed.

Lemma list_remove_None (v : Z) (l : list Z) :
  list_remove (Some v) l = None -> ~ In v l.
Proof.
  induction l as [| y l IH]; simpl; intros H.
  - intros [].
  - destruct (y =? v) eqn:E; [discriminate |].
    apply Z.eqb_neq in E.
    destruct (list_remove (Some v) l); [discriminate |].
    intros [Hy | Hin]; [congruence | exact (IH eq_refl Hin)].
Qed.

Lemma split_mix_values_None (fuel : nat) (change mix : list Z) :
  split_mix_values fuel None change mix = (change, mix).
Proof.
  destruct fuel as [| fuel]; [reflexivity |]. simpl.
  destruct change; reflexivity.
Qed.

(** With more fuel than [change_values] is long the loop ends by the
    [ValueError] of [remove]: no mix value is left among the change values. *)
Lemma split_mix_values_Some (v : Z) (fuel : nat) :
  forall change mix c' m',
    (length change < fuel)%nat ->
    split_mix_values fuel (Some v) change mix = (c', m') ->
    exists k, m' = mix ++ repeat v k /\ Permutation change (repeat v k ++ c') /\ ~ In v c'.
Proof.
  induction fuel as [| fuel IH]; intros change mix c' m' Hlen H.
  - lia.
  - simpl in H. destruct (list_remove (Some v) change) as [change' |] eqn:E.
    + destruct (list_remove_Some _ _ _ E) as [HP HL].
      apply IH in H; [| lia]. destruct H as [k [Hm [HP' Hnin]]].
      exists (S k). split; [| split].
      * rewrite Hm, <- app_assoc. reflexivity.
      * rewrite HP. cbn [repeat app]. constructor. exact HP'.
      * exact Hnin.
    + injection H as <- <-. exists O. split; [| split].
      * rewrite app_nil_r. reflexivity.
      * reflexivity.
      * apply list_remove_None. exact E.
Qed.

(** ** Buckets: index lists from [combinations] *)

Lemma increasing_weaken (lo lo' hi hi' : nat) (l : list nat) :
  (lo' <= lo)%nat -> (hi <= hi')%nat -> increasing lo l hi -> increasing lo' l hi'.
Proof.
  revert lo lo'. induction l as [| i r IH]; intros lo lo' Hlo Hhi H; simpl in *.
  - exact I.
  - destruct H as [Hi Hr]. split; [lia |]. apply (IH (S i)); [lia | exact Hhi | exact Hr].
Qed.

Lemma increasing_snoc (lo hi i : nat) (l : list nat) :
  increasing lo (l ++ [i]) hi -> increasing lo l i /\ (lo <= i < hi)%nat.
Proof.
  revert lo. induction l as [| j r IH]; intros lo H; simpl in *.
  - split; [exact I | tauto].
  - destruct H as [Hj Hr]. apply IH in Hr. destruct Hr as [Hr Hi].
    split; [split; [lia | exact Hr] | lia].
Qed.

Lemma increasing_Forall (lo hi : nat) (l : list nat) :
  increasing lo l hi -> Forall (fun i => (i < hi)%nat) l.
Proof.
  revert lo. induction l as [| j r IH]; intros lo H; simpl in *.
  - constructor.
  - destruct H as [Hj Hr]. constructor; [lia | exact (IH _ Hr)].
Qed.

Lemma combinations_increasing (m : nat) :
  forall a k c, In c (combinations (seq a m) k) -> increasing a c (a + m).
Proof.
  induction m as [| m IH]; intros a k c H.
  - destruct k; simpl in H; [| contradiction].
    destruct H as [<- | []]. exact I.
  - destruct k as [| k]; cbn [seq combinations] in H.
    + destruct H as [<- | []]. exact I.
    + apply in_app_or in H. destruct H as [H | H].
      * apply in_map_iff in H. destruct H as [c' [<- Hc']].
        apply IH in Hc'. simpl. split; [lia |].
        replace (a + S m)%nat with (S a + m)%nat by lia. exact Hc'.
      * apply IH in H. apply (increasing_weaken (S a) a (S a + m)); [lia | lia | exact H].
Qed.

Lemma range_0_length (n : nat) : range 0 (Z.of_nat n) = seq 0 n.
Proof. unfold range. rewrite Z.sub_0_r, Nat2Z.id. reflexivity. Qed.

Lemma getitems_app (l : list Z) (c1 c2 : list nat) (v1 v2 : list Z) :
  getitems l c1 = Ok v1 -> getitems l c2 = Ok v2 -> getitems l (c1 ++ c2) = Ok (v1 ++ v2).
Proof.
  revert v1. induction c1 as [| i c1 IH]; intros v1 H1 H2; simpl in *.
  - injection H1 as <-. exact H2.
  - bind_inv H1. bind_inv H1. injection H1 as <-.
    rewrite Ha. simpl. rewrite (IH _ Ha0 H2). reflexivity.
Qed.

Lemma getitems_delitem (l : list Z) (i : nat) (c : list nat) :
  Forall (fun j => (j < i)%nat) c -> getitems (delitem l i) c = getitems l c.
Proof.
  induction 1 as [| j c Hj _ IH]; simpl.
  - reflexivity.
  - unfold getitem. rewrite delitem_nth_error_lt by exact Hj. rewrite IH. reflexivity.
Qed.

Lemma getitems_length (l : list Z) (c : list nat) (vals : list Z) :
  getitems l c = Ok vals -> length vals = length c.
Proof.
  revert vals. induction c as [| i c IH]; intros vals H; simpl in H.
  - injection H as <-. reflexivity.
  - bind_inv H. bind_inv H. injection H as <-. simpl. rewrite (IH _ Ha0). reflexivity.
Qed.

(** Taking the inputs of a bucket out of [in_values], from the largest
    index down, never indexes out of range and moves exactly the
    bucket's values. *)
Lemma take_inputs_spec (c : list nat) :
  forall lo l acc,
    increasing lo c (length l) ->
    exists vals l',
      getitems l c = Ok vals
      /\ take_inputs (rev c) l acc = Ok (acc ++ rev vals, l')
      /\ Permutation l (vals ++ l')
      /\ (length l' + length c = length l)%nat.
Proof.
  induction c as [| i c IH] using rev_ind; intros lo l acc H.
  - exists [], l. simpl. rewrite app_nil_r. repeat split; try reflexivity. lia.
  - apply increasing_snoc in H. destruct H as [Hc Hi].
    destruct (getitem_lt l i) as [x Hx]; [lia |].
    assert (Hc' : increasing lo c (length (delitem l i))).
    { rewrite delitem_length by lia.
      apply (increasing_weaken lo lo i); [lia | lia | exact Hc]. }
    destruct (IH lo (delitem l i) (acc ++ [x]) Hc') as [vals [l' [Hg [Ht [HP HL]]]]].
    rewrite getitems_delitem in Hg by exact (increasing_Forall _ _ _ Hc).
    exists (vals ++ [x]), l'. split; [| split; [| split]].
    + apply getitems_app; [exact Hg |]. simpl. rewrite Hx. reflexivity.
    + rewrite rev_app_distr. cbn [rev app take_inputs]. rewrite Hx. cbn [bind].
      rewrite Ht, rev_app_distr, <- app_assoc. reflexivity.
    + apply getitem_Ok in Hx. rewrite (delitem_Permutation _ _ _ Hx), HP.
      rewrite <- app_assoc. cbn [app]. apply Permutation_middle.
    + rewrite delitem_length in HL by lia. rewrite length_app. simpl. lia.
Qed.

(** ** The search for one maker group *)

Lemma scan_change_spec (v sum_bucket_input : Z) :
  forall rest cidx md mi,
    exists md' mi',
      scan_change (Some v) sum_bucket_input cidx rest md mi = Ok (md', mi')
      /\ ((md' = md /\ mi' = mi)
          \/ (cidx <= mi' < cidx + Z.of_nat (length rest)
              /\ exists c,
                  nth_error rest (Z.to_nat (mi' - cidx)) = Some c
                  /\ md' = btc (c + v - sum_bucket_input)
                  /\ (MIN_JM_FEE < md')%Q /\ (md' < md)%Q)).
Proof.
  induction rest as [| c rest IH]; intros cidx md mi.
  - exists md, mi. split; [reflexivity | left; split; reflexivity].
  - cbn [scan_change].
    destruct (Qltb MIN_JM_FEE (btc (c + v - sum_bucket_input))
              && Qltb (btc (c + v - sum_bucket_input)) md) eqn:E.
    + apply andb_true_iff in E. destruct E as [E1 E2].
      apply Qltb_lt in E1. apply Qltb_lt in E2.
      destruct (IH (cidx + 1) (btc (c + v - sum_bucket_input)) cidx)
        as [md' [mi' [Hs Hcases]]].
      exists md', mi'. split; [exact Hs | right].
      destruct Hcases as [[-> ->] | [Hr [c' [Hn [Hd [Hlo Hhi]]]]]].
      * split; [cbn [length]; lia |]. exists c.
        rewrite Z.sub_diag. repeat split; assumption.
      * split; [cbn [length]; lia |]. exists c'.
        replace (Z.to_nat (mi' - cidx)) with (S (Z.to_nat (mi' - (cidx + 1)))) by lia.
        repeat split; try assumption. exact (Qlt_trans _ _ _ Hhi E2).
    + destruct (IH (cidx + 1) md mi) as [md' [mi' [Hs Hcases]]].
      exists md', mi'. split; [exact Hs |].
      destruct Hcases as [[-> ->] | [Hr [c' [Hn [Hd [Hlo Hhi]]]]]].
      * left. split; reflexivity.
      * right. split; [cbn [length]; lia |]. exists c'.
        replace (Z.to_nat (mi' - cidx)) with (S (Z.to_nat (mi' - (cidx + 1)))) by lia.
        repeat split; assumption.
Qed.

Lemma scan_buckets_spec (v : Z) (in_values change_values : list Z) (d : Q)
    (buckets : list (list nat)) :
  Forall (fun c => increasing 0 c (length in_values)) buckets ->
  exists r,
    scan_buckets (Some v) in_values change_values d buckets = Ok r
    /\ forall found, r = Some found -> is_match v in_values change_values [d] found.
Proof.
  induction 1 as [| iidxs rest Hc _ IH].
  - exists None. split; [reflexivity | discriminate].
  - cbn [scan_buckets].
    destruct (take_inputs_spec iidxs 0%nat in_values [] Hc) as [vals [_ [Hg _]]].
    rewrite Hg. cbn [bind].
    destruct (scan_change_spec v (sum vals) change_values 0 d (-1))
      as [md' [mi' [Hs Hcases]]].
    rewrite Hs. cbn [bind snd].
    destruct Hcases as [[_ ->] | [Hr [c [Hn [Hd [Hlo Hhi]]]]]].
    + exact IH.
    + destruct (0 <=? mi') eqn:E; [| apply Z.leb_gt in E; lia].
      eexists. split; [reflexivity |]. intros found [= <-].
      split; [exact Hc |]. exists vals, c, d. cbn [fst snd].
      rewrite Z.sub_0_r in Hn. subst md'.
      repeat split; try assumption. left. reflexivity.
Qed.

Lemma find_new_pair_spec (v : Z) (in_values change_values : list Z)
    (candidates : list (nat * Q)) :
  exists r,
    find_new_pair (Some v) in_values change_values candidates = Ok r
    /\ forall found,
        r = Some found ->
        is_match v in_values change_values (map snd candidates) found.
Proof.
  induction candidates as [| [bucket_size d] rest IH].
  - exists None. split; [reflexivity | discriminate].
  - cbn [find_new_pair].
    destruct (scan_buckets_spec v in_values change_values d
                (combinations (range 0 (Z.of_nat (length in_values))) bucket_size))
      as [r [Hr Hfound]].
    { apply Forall_forall. intros c Hc. rewrite range_0_length in Hc.
      exact (combinations_increasing _ _ _ _ Hc). }
    rewrite Hr. cbn [bind]. destruct r as [found |].
    + eexists. split; [reflexivity |]. intros found' [= <-].
      destruct (Hfound found eq_refl) as [Hinc [bucket [c [d' [Hd' H]]]]].
      split; [exact Hinc |]. exists bucket, c, d'. split; [| exact H].
      cbn [map snd]. destruct Hd' as [<- | []]. left. reflexivity.
    + destruct IH as [r [Hr' Hfound']]. exists r. split; [exact Hr' |].
      intros found Hf. destruct (Hfound' found Hf) as [Hinc [bucket [c [d' [Hd' H]]]]].
      split; [exact Hinc |]. exists bucket, c, d'. split; [| exact H].
      right. exact Hd'.
Qed.

Lemma gen_bucket_size_dist_pairs_tolerances (bucket_sizes : list nat) (ds : list Q) (d : Q) :
  In d (map snd (gen_bucket_size_dist_pairs bucket_sizes ds)) -> In d (0%Q :: ds).
Proof.
  unfold gen_bucket_size_dist_pairs, gen_bucket_size_dist_pairs_by. rewrite map_map. cbn [snd].
  intros H. apply in_map_iff in H. destruct H as [[i j] [<- _]]. cbn [snd].
  destruct (nth_in_or_default j ds 0%Q) as [Hin | ->].
  - right. exact Hin.
  - left. reflexivity.
Qed.

(** ** The main loop *)

Lemma maker_group_weaken (v : Z) (l l' : list Z) (p : list Z * list Z) :
  (forall c, In c l -> In c l') -> maker_group v l p -> maker_group v l' p.
Proof.
  intros Hsub [c [Hs [Hin Hb]]]. exists c. split; [exact Hs |]. split; [auto | exact Hb].
Qed.

Lemma repeat_snoc (v : Z) (n : nat) : repeat v (S n) = repeat v n ++ [v].
Proof. cbn [repeat]. apply repeat_cons. Qed.

Lemma loop_post_stop (v : Z) (n : nat) (in_values change_values : list Z)
    (pairs : list (list Z * list Z)) :
  loop_post v n in_values change_values pairs
    (mkState in_values change_values (repeat v n) pairs n) [].
Proof.
  unfold loop_post. cbn. rewrite !app_nil_r. repeat split; auto with arith.
Qed.

Lemma pairing_loop_spec (v : Z) (bucket_sizes : list nat) :
  forall n in_values change_values pairs,
  exists st makers,
    pairing_loop (Some v) bucket_sizes n in_values change_values (repeat v n) pairs = Ok st
    /\ loop_post v n in_values change_values pairs st makers.
Proof.
  induction n as [| n IH]; intros in_values change_values pairs.
  - eexists. exists []. split; [reflexivity | apply loop_post_stop].
  - destruct n as [| n].
    + eexists. exists []. split; [reflexivity | apply loop_post_stop].
    + cbn [pairing_loop].
      destruct (find_new_pair_spec v in_values change_values
                  (gen_bucket_size_dist_pairs bucket_sizes dists)) as [r [Hr Hfound]].
      rewrite Hr. cbn [bind]. destruct r as [[iidxs cidx] |].
      * destruct (Hfound _ eq_refl) as [Hinc [bucket [c [d [Hd [Hg [Hn [Hlo Hhi]]]]]]]].
        cbn [fst snd] in *.
        destruct (take_inputs_spec iidxs 0%nat in_values [] Hinc)
          as [vals [l' [Hg' [Ht [HP HL]]]]].
        rewrite Hg in Hg'. injection Hg' as <-.
        rewrite Ht. cbn [bind app].
        rewrite (repeat_snoc v (S n)), pop_app. cbn [bind].
        apply getitem_Ok in Hn as Hn'. rewrite Hn'. cbn [bind].
        pose proof (delitem_Permutation _ _ _ Hn) as HPc.
        destruct (IH l' (delitem change_values cidx) (pairs ++ [(rev bucket, [v; c])]))
          as [st [makers [Hl [Hp [Hm [HPi [HPo [Hmix [Hnum [Hlen [Hge Hsub]]]]]]]]]]].
        assert (Hsub' : forall x, In x (delitem change_values cidx) -> In x change_values).
        { intros x Hx. apply (Permutation_in x (Permutation_sym HPc)). right. exact Hx. }
        exists st, ((rev bucket, [v; c]) :: makers).
        split; [exact Hl |]. unfold loop_post.
        split; [rewrite Hp, <- app_assoc; reflexivity |].
        split; [| split; [| split; [| split; [| split; [| split; [| split]]]]]].
        -- constructor.
           ++ exists c. cbn [snd]. split; [reflexivity |].
              split; [exact (nth_error_In _ _ Hn) |].
              unfold fee_paid_to_pair. cbn [fst snd].
              rewrite sum_rev, !sum_cons, sum_nil.
              replace (v + (c + 0) - sum bucket) with (c + v - sum bucket) by lia.
              split; [exact Hlo |].
              apply (Qlt_trans _ _ _ Hhi).
              apply gen_bucket_size_dist_pairs_tolerances in Hd.
              exact (proj1 (Forall_forall _ _) dists_below_MAX d Hd).
           ++ apply (Forall_impl _ (fun p => maker_group_weaken v _ _ p Hsub') Hm).
        -- cbn [map concat fst]. rewrite HP, HPi, <- Permutation_rev.
           apply Permutation_app_swap_app.
        -- cbn [map concat snd].
           transitivity ([v; c] ++ (repeat v (S n) ++ delitem change_values cidx)).
           ++ transitivity (repeat v (S (S n)) ++ c :: delitem change_values cidx).
              ** apply Permutation_app_head. exact HPc.
              ** cbn [repeat app]. constructor.
                 symmetry. apply (Permutation_middle (v :: repeat v n)).
           ++ rewrite HPo.
              rewrite (app_assoc (s_mix_values st) (s_change_values st) (concat _)).
              rewrite (app_assoc (s_mix_values st) (s_change_values st) ([v; c] ++ _)).
              apply (Permutation_app_swap_app [v; c]).
        -- exact Hmix.
        -- cbn [length]. lia.
        -- cbn [length]. rewrite delitem_length in Hlen.
           ++ assert (cidx < length change_values)%nat
                by (apply nth_error_Some; congruence). lia.
           ++ apply nth_error_Some. congruence.
        -- intros _. apply Hge. lia.
        -- intros x Hx. auto.
      * eexists. exists []. split; [reflexivity | apply loop_post_stop].
Qed.

(** ** The shape of a successful pairing *)

Lemma taker_fee_pos (x n : Z) :
  0 < n -> (MIN_JM_FEE < btc x / inject_Z n)%Q -> 0 < x.
Proof.
  intros Hn. destruct n as [| p | p]; try lia.
  unfold Qlt, Qdiv, Qmult, Qinv, btc, inject_Z, MIN_JM_FEE. simpl.
  intros H. nia.
Qed.

Lemma is_nonempty_false {A : Type} (l : list A) : is_nonempty l = false -> l = [].
Proof. destruct l; [reflexivity | discriminate]. Qed.

Lemma _pair_up_inout_values_shape (in_values out_values : list Z)
    (value_mixed : option Z) (pairs : list (list Z * list Z)) :
  _pair_up_inout_values in_values out_values value_mixed = Ok pairs ->
  pairing_shape in_values out_values value_mixed pairs.
Proof.
  unfold _pair_up_inout_values. intros H.
  destruct (split_mix_values (S (length out_values)) value_mixed out_values [])
    as [c' m'] eqn:Esplit.
  destruct (negb (0 <=? sum in_values - sum out_values)) eqn:Efee; [discriminate |].
  apply negb_false_iff, Z.leb_le in Efee.
  destruct (negb ((Z.of_nat (length m') - 1 <=? Z.of_nat (length (sorted c')))
                  && (Z.of_nat (length (sorted c')) <=? Z.of_nat (length m'))))
    eqn:Ecount; [discriminate |].
  apply negb_false_iff, andb_true_iff in Ecount. destruct Ecount as [Ec1 Ec2].
  apply Z.leb_le in Ec1. apply Z.leb_le in Ec2.
  bind_inv H. rename a into st, Ha into Hloop. bind_inv H. rename a into st', Ha into Htaker.
  destruct (is_nonempty (s_mix_values st') || is_nonempty (s_in_values st')
            || is_nonempty (s_change_values st')) eqn:Eleft; [discriminate |].
  injection H as <-.
  apply orb_false_iff in Eleft. destruct Eleft as [Eleft Echg].
  apply orb_false_iff in Eleft. destruct Eleft as [Emix Ein].
  apply is_nonempty_false in Emix, Ein, Echg.
  destruct value_mixed as [v |].
  - apply split_mix_values_Some in Esplit; [| lia].
    destruct Esplit as [k [-> [HPout Hnin]]]. cbn [app] in *.
    rewrite repeat_length in *.
    destruct (pairing_loop_spec v
                (range 1 (Z.of_nat (length in_values) - Z.of_nat k + 2))
                k in_values (sorted c') [])
      as [st0 [makers [Hl [Hp [Hm [HPi [HPo [Hmix [Hnum [Hlen [Hge Hsub]]]]]]]]]]].
    rewrite Hl in Hloop. injection Hloop as ->. cbn [app] in Hp.
    assert (Hnin' : ~ In v (sorted c')).
    { intros Hin. apply Hnin. exact (Permutation_in v (Permutation_sym (sorted_Permutation c')) Hin). }
    destruct (s_num_pairs_left st =? 1)%nat eqn:Enpl.
    + apply Nat.eqb_eq in Enpl.
      destruct (negb (length (s_mix_values st) =? s_num_pairs_left st)%nat);
        [discriminate |].
      bind_inv Htaker. rename a into q, Ha into Hq.
      apply decimal_div_Ok in Hq. destruct Hq as [Ek ->].
      destruct (negb _) eqn:Echeck in Htaker; [discriminate |].
      apply negb_false_iff, andb_true_iff in Echeck. destruct Echeck as [Elo _].
      apply Qltb_lt in Elo. apply taker_fee_pos in Elo; [| lia].
      injection Htaker as <-. cbn [s_pairs]. right.
      rewrite Hmix, Enpl in *. cbn [repeat app] in *.
      exists v, (s_in_values st), (s_change_values st), makers, (sorted c').
      split; [reflexivity |]. split; [rewrite Hp; reflexivity |].
      split; [intros ->; cbn [length] in Hnum; lia |].
      split; [exact Hm |]. split; [exact Hnin' |]. split; [exact Hsub |].
      split; [lia |]. split; [exact HPi |].
      assert (HPout' : Permutation out_values (repeat v k ++ sorted c')).
      { rewrite HPout. apply Permutation_app_head, sorted_Permutation. }
      split; [rewrite HPout', HPo; reflexivity |].
      split; [rewrite <- Hnum in HPout'; exact HPout' |].
      split; [exact Efee |].
      unfold fee_paid_to_pair. cbn [fst snd]. rewrite !sum_cons, sum_nil in *. lia.
    + injection Htaker as <-. left.
      rewrite Hmix in Emix. apply Nat.eqb_neq in Enpl.
      destruct (s_num_pairs_left st) as [| npl] eqn:En; [| discriminate].
      assert (Hk : k = O) by lia.
      assert (Hmk : makers = [])
        by (destruct makers; [reflexivity | cbn [length] in Hnum; lia]).
      rewrite Hmk in *. rewrite Hk in HPout, HPo.
      rewrite Ein in HPi. rewrite Hmix, Echg in HPo. cbn in HPi, HPo, HPout.
      apply Permutation_sym, Permutation_nil in HPi.
      apply Permutation_sym, Permutation_nil in HPo.
      pose proof (sorted_Permutation c') as HPc. rewrite HPo in HPc.
      apply Permutation_sym, Permutation_nil in HPc. rewrite HPc in HPout.
      apply Permutation_sym, Permutation_nil in HPout.
      repeat split; assumption.
  - rewrite split_mix_values_None in Esplit. injection Esplit as <- <-.
    cbn in Hloop. injection Hloop as <-. cbn in Htaker. injection Htaker as <-.
    cbn in *. left.
    pose proof (sorted_Permutation out_values) as HP. rewrite Echg in HP.
    apply Permutation_sym, Permutation_nil in HP.
    repeat split; assumption.
Qed.

Lemma pair_up_inout_values_Ok (in_values out_values : list Z) (value_mixed : option Z)
    (pairs : list (list Z * list Z)) :
  pair_up_inout_values in_values out_values value_mixed = Ok pairs ->
  exists value_mixed',
    _pair_up_inout_values in_values out_values value_mixed' = Ok pairs
    /\ match value_mixed with
       | Some v => value_mixed' = Some v
       | None =>
           exists r, get_value_mixed_from_values in_values out_values = Ok r
                     /\ value_mixed' = option_map fst r
       end.
Proof.
  unfold pair_up_inout_values. intros H. bind_inv H. exists a. split; [exact H |].
  destruct value_mixed as [v |].
  - injection Ha as <-. reflexivity.
  - bind_inv Ha. injection Ha as <-. exists a0. split; [exact Ha0 | reflexivity].
Qed.

Lemma pair_up_inout_values_shape (in_values out_values : list Z)
    (value_mixed : option Z) (pairs : list (list Z * list Z)) :
  pair_up_inout_values in_values out_values value_mixed = Ok pairs ->
  exists value_mixed', pairing_shape in_values out_values value_mixed' pairs.
Proof.
  intros H. apply pair_up_inout_values_Ok in H. destruct H as [vm' [H _]].
  exists vm'. apply _pair_up_inout_values_shape. exact H.
Qed.

(** A successful run on a non-empty output list has a taker group.  With
    the third argument left out the output list cannot be empty, since
    [most_common(1)[0]] fails on it. *)
Lemma pair_up_inout_values_nonempty_shape (in_values out_values : list Z)
    (value_mixed : option Z) (pairs : list (list Z * list Z)) :
  pair_up_inout_values in_values out_values value_mixed = Ok pairs ->
  value_mixed = None \/ out_values <> [] ->
  exists v, pairing_shape in_values out_values (Some v) pairs /\ pairs <> [].
Proof.
  intros H Hne. apply pair_up_inout_values_Ok in H.
  destruct H as [vm' [H Hvm]].
  apply _pair_up_inout_values_shape in H.
  destruct H as [[_ [Hout _]] | H].
  - exfalso. destruct Hne as [-> | Hne]; [| exact (Hne Hout)].
    destruct Hvm as [r [Hr _]]. rewrite Hout in Hr. discriminate Hr.
  - destruct H as [v [ti [tc [mk [cv [Hv [Hp Hrest]]]]]]].
    exists v. split; [| rewrite Hp; discriminate].
    right. exists v, ti, tc, mk, cv. split; [reflexivity |]. split; [exact Hp | exact Hrest].
Qed.

Lemma filter_all {A : Type} (f : A -> bool) (l : list A) :
  Forall (fun x => f x = true) l -> filter f l = l.
Proof.
  induction 1 as [| x l Hx _ IH]; simpl; [reflexivity |]. rewrite Hx, IH. reflexivity.
Qed.

Lemma filter_none {A : Type} (f : A -> bool) (l : list A) :
  Forall (fun x => f x = false) l -> filter f l = [].
Proof.
  induction 1 as [| x l Hx _ IH]; simpl; [reflexivity |]. rewrite Hx, IH. reflexivity.
Qed.

Lemma maker_group_fee_pos (v : Z) (l : list Z) (p : list Z * list Z) :
  maker_group v l p -> 0 < fee_paid_to_pair p.
Proof.
  intros [c [_ [_ [Hlo _]]]]. apply btc_pos.
  exact (Qlt_trans _ _ _ MIN_JM_FEE_pos Hlo).
Qed.

Lemma maker_value_pairs_tl (tx : Tx) (in_values out_values : list Z)
    (value_mixed : option Z) (pairs : list (list Z * list Z)) :
  pairing_shape in_values out_values value_mixed pairs ->
  JoinMarketTx.maker_value_pairs (JoinMarketTx.mk tx pairs) = tl pairs.
Proof.
  intros [[_ [_ ->]] | H]; [reflexivity |].
  destruct H as [v [ti [tc [mk [cv [_ [-> [_ [Hm [_ [_ [_ [_ [_ [_ [_ Ht]]]]]]]]]]]]]]]].
  unfold JoinMarketTx.maker_value_pairs. cbn [JoinMarketTx.pairs filter tl].
  destruct (0 <=? fee_paid_to_pair (ti, v :: tc)) eqn:E; [apply Z.leb_le in E; lia |].
  apply filter_all. apply (Forall_impl _ (P := maker_group v cv)); [| exact Hm].
  intros p Hp. apply maker_group_fee_pos in Hp. apply Z.leb_le. lia.
Qed.

(** ** The claims about the pairer *)

(** C1. Whenever [pair_up_inout_values] returns a pairing, the inputs of
    all its groups, taken together, are a rearrangement of the original
    input values, and the outputs of all its groups are a rearrangement of
    the original output values: every value occurs in the groups exactly as
    often as in the transaction, so none is created, dropped or shared. *)
Theorem pairing_partitions_values (in_values out_values : list Z)
    (value_mixed : option Z) (pairs : list (list Z * list Z)) :
  pair_up_inout_values in_values out_values value_mixed = Ok pairs ->
  Permutation (concat (map fst pairs)) in_values
  /\ Permutation (concat (map snd pairs)) out_values.
Proof.
  intros H. apply pair_up_inout_values_shape in H. destruct H as [vm' H].
  destruct H as [[-> [-> ->]] | H].
  - split; constructor.
  - destruct H as [v [ti [tc [mk [cv [_ [-> [_ [_ [_ [_ [_ [HPi [HPo _]]]]]]]]]]]]]].
    cbn [map concat fst snd]. split; symmetry; assumption.
Qed.

(** C2. Whenever [pair_up_inout_values] returns a pairing, every group
    after the first (the first is the taker's) is paid a fee, the sum of
    its outputs minus the sum of its inputs, that lies strictly between
    [MIN_JM_FEE] and [MAX_JM_FEE]; these groups are exactly the ones that
    [maker_value_pairs] selects. *)
Theorem maker_fees_within_bounds (tx : Tx) (in_values out_values : list Z)
    (value_mixed : option Z) (pairs : list (list Z * list Z)) :
  pair_up_inout_values in_values out_values value_mixed = Ok pairs ->
  Forall (fun p => (MIN_JM_FEE < btc (fee_paid_to_pair p))%Q
                   /\ (btc (fee_paid_to_pair p) < MAX_JM_FEE)%Q) (tl pairs)
  /\ JoinMarketTx.maker_value_pairs (JoinMarketTx.mk tx pairs) = tl pairs.
Proof.
  intros H. apply pair_up_inout_values_shape in H. destruct H as [vm' H].
  split; [| exact (maker_value_pairs_tl tx _ _ _ _ H)].
  destruct H as [[_ [_ ->]] | H].
  - constructor.
  - destruct H as [v [ti [tc [mk [cv [_ [-> [_ [Hm _]]]]]]]]].
    cbn [tl]. apply (Forall_impl _ (P := maker_group v cv)); [| exact Hm].
    intros p [c [_ [_ Hb]]]. exact Hb.
Qed.

(** C5. Whenever [pair_up_inout_values] returns a pairing, called as the
    program calls it (without a third argument) or on any non-empty output
    list, the pairing has a first group whose outputs sum to strictly less
    than its inputs, and every other group's outputs sum to at least its
    inputs.  So exactly one group has a negative net flow,
    [taker_value_pair] returns it, and [maker_value_pairs] returns all the
    others. *)
Theorem unique_taker_group (tx : Tx) (in_values out_values : list Z)
    (value_mixed : option Z) (pairs : list (list Z * list Z)) :
  pair_up_inout_values in_values out_values value_mixed = Ok pairs ->
  value_mixed = None \/ out_values <> [] ->
  exists taker makers,
    pairs = taker :: makers
    /\ fee_paid_to_pair taker < 0
    /\ Forall (fun p => 0 <= fee_paid_to_pair p) makers
    /\ filter (fun p => fee_paid_to_pair p <? 0) pairs = [taker]
    /\ JoinMarketTx.taker_value_pair (JoinMarketTx.mk tx pairs) = Ok taker
    /\ JoinMarketTx.maker_value_pairs (JoinMarketTx.mk tx pairs) = makers.
Proof.
  intros H Hne. apply pair_up_inout_values_nonempty_shape in H; [| exact Hne].
  destruct H as [v [Hshape Hnil]].
  pose proof (maker_value_pairs_tl tx _ _ _ _ Hshape) as Hmakers.
  destruct Hshape as [[_ [_ ->]] | H]; [congruence |].
  destruct H as [v' [ti [tc [mk [cv [_ [-> [_ [Hm [_ [_ [_ [_ [_ [_ [_ Ht]]]]]]]]]]]]]]]].
  assert (Hpos : Forall (fun p => 0 < fee_paid_to_pair p) mk).
  { apply (Forall_impl _ (P := maker_group v' cv)); [| exact Hm].
    intros p Hp. exact (maker_group_fee_pos _ _ _ Hp). }
  exists (ti, v' :: tc), mk. split; [reflexivity |]. split; [exact Ht |].
  split; [apply (Forall_impl _ (P := fun p => 0 < fee_paid_to_pair p));
          [intros; lia | exact Hpos] |].
  split; [| split; [| exact Hmakers]].
  - cbn [filter]. destruct (fee_paid_to_pair (ti, v' :: tc) <? 0) eqn:E;
      [| apply Z.ltb_ge in E; lia].
    rewrite filter_none; [reflexivity |].
    apply (Forall_impl _ (P := fun p => 0 < fee_paid_to_pair p)); [| exact Hpos].
    intros p Hp. apply Z.ltb_ge. lia.
  - unfold JoinMarketTx.taker_value_pair. cbn [JoinMarketTx.pairs filter].
    unfold fee_paid_by_pair at 1.
    destruct (0 <? - fee_paid_to_pair (ti, v' :: tc)) eqn:E; [| apply Z.ltb_ge in E; lia].
    reflexivity.
Qed.

Example example_tx_pairs :
  pair_up_inout_values (vin_values example_tx) (vout_values example_tx) None
  = Ok example_pairs.
Proof. vm_compute. reflexivity. Qed.

Lemma pairing_partitions_values_witness :
  Permutation (concat (map fst example_pairs)) (vin_values example_tx)
  /\ Permutation (concat (map snd example_pairs)) (vout_values example_tx).
Proof.
  apply (pairing_partitions_values (vin_values example_tx) (vout_values example_tx)
           None example_pairs).
  vm_compute. reflexivity.
Defined.

Lemma maker_fees_within_bounds_witness :
  Forall (fun p => (MIN_JM_FEE < btc (fee_paid_to_pair p))%Q
                   /\ (btc (fee_paid_to_pair p) < MAX_JM_FEE)%Q) (tl example_pairs)
  /\ JoinMarketTx.maker_value_pairs (JoinMarketTx.mk example_tx example_pairs)
     = tl example_pairs.
Proof.
  apply (maker_fees_within_bounds example_tx (vin_values example_tx)
           (vout_values example_tx) None example_pairs).
  vm_compute. reflexivity.
Defined.

Lemma unique_taker_group_witness :
  exists taker makers,
    example_pairs = taker :: makers
    /\ fee_paid_to_pair taker < 0
    /\ Forall (fun p => 0 <= fee_paid_to_pair p) makers
    /\ filter (fun p => fee_paid_to_pair p <? 0) example_pairs = [taker]
    /\ JoinMarketTx.taker_value_pair (JoinMarketTx.mk example_tx example_pairs) = Ok taker
    /\ JoinMarketTx.maker_value_pairs (JoinMarketTx.mk example_tx example_pairs) = makers.
Proof.
  apply (unique_taker_group example_tx (vin_values example_tx)
           (vout_values example_tx) None example_pairs).
  - vm_compute. reflexivity.
  - left. reflexivity.
Defined.

(** ** Scenario A *)

Lemma scenario_A_not_paired :
  ~ exists pairs,
      pair_up_inout_values scenario_A_inputs scenario_A_outputs None = Ok pairs
      /\ length pairs = 5%nat.
Proof.
  intros [pairs [H _]]. vm_compute in H. discriminate H.
Qed.

(** C8 (amended). The pairer does not succeed on scenario A: its outputs
    sum to 5.396 BTC and its inputs to 5.25 BTC only, so the check
    [txfee >= 0] fails with an [AssertionError] before any group is
    searched; and the group the scenario expects for a maker, 1.10 in and
    1.00 + 0.099 out, would lose 0.001 BTC rather than earn it. *)
Theorem scenario_A_fails_assertion :
  pair_up_inout_values scenario_A_inputs scenario_A_outputs None = Raise AssertionError
  /\ sum scenario_A_inputs - sum scenario_A_outputs = -14600000
  /\ fee_paid_to_pair ([110000000], [100000000; 9900000]) = -100000.
Proof.
  split; [| split]; vm_compute; reflexivity.
Qed.

(** ** Scenario B *)

Lemma scenario_B_not_insufficient_inputs :
  length (vin scenario_B_tx) = 2%nat /\ length (vout scenario_B_tx) = 2%nat
  /\ check_potential_joinmarket_tx scenario_B_tx <> Ok (false, "MIN_NUM_INPUTS"%string).
Proof.
  split; [reflexivity |]. split; [reflexivity |]. vm_compute. discriminate.
Qed.

(** C9 (amended). Every transaction with two inputs and two outputs is
    rejected by the classifier, and the reason it gives is the one for too
    few outputs, ['MIN_NUM_OUTPUTS']: the output count is tested before
    the input count. *)
Theorem two_by_two_rejected_for_outputs (tx : Tx) :
  length (vin tx) = 2%nat -> length (vout tx) = 2%nat ->
  check_potential_joinmarket_tx tx = Ok (false, "MIN_NUM_OUTPUTS"%string).
Proof.
  intros _ Hout. unfold check_potential_joinmarket_tx. rewrite Hout. reflexivity.
Qed.

Lemma two_by_two_rejected_for_outputs_witness :
  check_potential_joinmarket_tx scenario_B_tx = Ok (false, "MIN_NUM_OUTPUTS"%string).
Proof.
  apply (two_by_two_rejected_for_outputs scenario_B_tx); reflexivity.
Defined.

(** ** The counter of output values and the mix value *)

Lemma counter_get_incr (c : list (Z * nat)) (x y : Z) :
  counter_get (counter_incr x c) y
  = if x =? y then S (counter_get c y) else counter_get c y.
Proof.
  induction c as [| [z n] c IH]; simpl.
  - rewrite (Z.eqb_sym y x). destruct (x =? y); reflexivity.
  - destruct (x =? z) eqn:Exz; simpl.
    + apply Z.eqb_eq in Exz. subst z. rewrite (Z.eqb_sym y x).
      destruct (x =? y); reflexivity.
    + rewrite IH. destruct (y =? z) eqn:Eyz; [| reflexivity].
      apply Z.eqb_eq in Eyz. subst z. rewrite Exz. reflexivity.
Qed.

Lemma counter_get_fold (l : list Z) (c : list (Z * nat)) (y : Z) :
  counter_get (fold_left (fun c x => counter_incr x c) l c) y
  = (counter_get c y + count_occ Z.eq_dec l y)%nat.
Proof.
  revert c. induction l as [| x l IH]; intros c; simpl.
  - lia.
  - rewrite IH, counter_get_incr. destruct (Z.eq_dec x y) as [-> | Hne].
    + rewrite Z.eqb_refl. lia.
    + apply Z.eqb_neq in Hne. rewrite Hne. lia.
Qed.

Lemma counter_get_Counter (l : list Z) (y : Z) :
  counter_get (Counter l) y = count_occ Z.eq_dec l y.
Proof. unfold Counter. rewrite counter_get_fold. reflexivity. Qed.

Lemma counter_incr_keys (x : Z) (c : list (Z * nat)) :
  NoDup (map fst c) -> NoDup (map fst (counter_incr x c))
  /\ forall k, In k (map fst (counter_incr x c)) -> k = x \/ In k (map fst c).
Proof.
  induction c as [| [z n] c IH]; simpl; intros Hnd.
  - split; [constructor; [intros [] | constructor] | intros k [<- | []]; left; reflexivity].
  - inversion Hnd as [| ? ? Hz Hc]; subst.
    destruct (x =? z) eqn:E; simpl.
    + split; [exact Hnd |]. intros k Hk. right. exact Hk.
    + destruct (IH Hc) as [Hnd' Hin']. split.
      * constructor; [| exact Hnd']. intros Hin. apply Hin' in Hin.
        apply Z.eqb_neq in E. destruct Hin as [-> | Hin]; [congruence | exact (Hz Hin)].
      * intros k [<- | Hk]; [right; left; reflexivity |].
        apply Hin' in Hk. destruct Hk as [-> | Hk]; [left; reflexivity | right; right; exact Hk].
Qed.

Lemma Counter_keys_NoDup (l : list Z) : NoDup (map fst (Counter l)).
Proof.
  unfold Counter.
  assert (H : forall c, NoDup (map fst c) ->
                        NoDup (map fst (fold_left (fun c x => counter_incr x c) l c))).
  { induction l as [| x l IH]; intros c Hc; simpl; [exact Hc |].
    apply IH. apply counter_incr_keys. exact Hc. }
  apply H. constructor.
Qed.

Lemma counter_get_In (c : list (Z * nat)) (x : Z) (n : nat) :
  NoDup (map fst c) -> In (x, n) c -> counter_get c x = n.
Proof.
  induction c as [| [z m] c IH]; simpl; intros Hnd Hin; [contradiction |].
  inversion Hnd as [| ? ? Hz Hc]; subst.
  destruct Hin as [[= -> ->] | Hin].
  - rewrite Z.eqb_refl. reflexivity.
  - destruct (x =? z) eqn:E; [| exact (IH Hc Hin)].
    apply Z.eqb_eq in E. subst z. exfalso. apply Hz.
    apply in_map_iff. exists (x, n). split; [reflexivity | exact Hin].
Qed.

Lemma counter_get_pos_In (c : list (Z * nat)) (x : Z) :
  counter_get c x <> O -> In (x, counter_get c x) c.
Proof.
  induction c as [| [z m] c IH]; simpl; intros H; [congruence |].
  destruct (x =? z) eqn:E.
  - apply Z.eqb_eq in E. subst z. left. reflexivity.
  - right. exact (IH H).
Qed.

Lemma max_count_spec (c : list (Z * nat)) :
  forall best,
    In (max_count best c) (best :: c)
    /\ forall e, In e (best :: c) -> (snd e <= snd (max_count best c))%nat.
Proof.
  induction c as [| e c IH]; intros best; simpl.
  - split; [left; reflexivity | intros e [<- | []]; lia].
  - destruct (IH (if (snd best <? snd e)%nat then e else best)) as [Hin Hmax].
    split.
    + destruct Hin as [Hin | Hin]; [| right; right; exact Hin].
      rewrite <- Hin. destruct (snd best <? snd e)%nat; [right; left | left]; reflexivity.
    + intros e' He'.
      assert (Hb : (snd best <= snd (max_count (if (snd best <? snd e)%nat then e else best) c)
                    /\ snd e <= snd (max_count (if (snd best <? snd e)%nat then e else best) c))%nat).
      { pose proof (Hmax _ (or_introl eq_refl)) as H0.
        destruct (snd best <? snd e)%nat eqn:E.
        - apply Nat.ltb_lt in E. lia.
        - apply Nat.ltb_ge in E. lia. }
      destruct He' as [<- | [<- | He']]; [lia | lia |].
      apply Hmax. right. exact He'.
Qed.

Lemma most_common_1_spec (c : list (Z * nat)) (e : Z * nat) (rest : list (Z * nat)) :
  most_common_1 c = e :: rest ->
  In e c /\ forall e', In e' c -> (snd e' <= snd e)%nat.
Proof.
  destruct c as [| b c]; simpl; intros H; [discriminate |].
  injection H as <- _. apply max_count_spec.
Qed.

Lemma most_common_1_nil (c : list (Z * nat)) : most_common_1 c = [] -> c = [].
Proof. destruct c; [reflexivity | discriminate]. Qed.

(** When a mix value is detected it occurs [count] times among the
    outputs, more than twice, and strictly more often than any other value. *)
Lemma get_value_mixed_from_values_Some (in_values out_values : list Z) (v : Z) (count : nat) :
  get_value_mixed_from_values in_values out_values = Ok (Some (v, count)) ->
  count = count_occ Z.eq_dec out_values v
  /\ (2 < count)%nat
  /\ forall w, w <> v -> (count_occ Z.eq_dec out_values w < count)%nat.
Proof.
  unfold get_value_mixed_from_values. intros H.
  destruct (most_common_1 (Counter out_values)) as [| [v1 n1] rest] eqn:E1; [discriminate |].
  apply most_common_1_spec in E1. destruct E1 as [Hin1 Hmax1].
  destruct (n1 <=? 2)%nat eqn:E2; [discriminate |]. apply Nat.leb_gt in E2.
  assert (Hcount : n1 = count_occ Z.eq_dec out_values v1).
  { rewrite <- counter_get_Counter.
    symmetry. apply counter_get_In; [apply Counter_keys_NoDup | exact Hin1]. }
  destruct (most_common_1 (counter_pop v1 (Counter out_values))) as [| [v2 n2] rest2] eqn:E3.
  - injection H as <- <-. split; [exact Hcount |]. split; [exact E2 |].
    intros w Hw. apply most_common_1_nil in E3.
    destruct (Nat.eq_dec (count_occ Z.eq_dec out_values w) 0) as [-> | Hpos]; [lia |].
    rewrite <- counter_get_Counter in Hpos. apply counter_get_pos_In in Hpos.
    assert (Hin : In (w, counter_get (Counter out_values) w)
                     (counter_pop v1 (Counter out_values))).
    { apply filter_In. split; [exact Hpos |]. cbn [fst].
      apply negb_true_iff, Z.eqb_neq. exact Hw. }
    rewrite E3 in Hin. contradiction.
  - apply most_common_1_spec in E3. destruct E3 as [Hin2 Hmax2].
    destruct (n2 =? n1)%nat eqn:E4; [discriminate |]. apply Nat.eqb_neq in E4.
    injection H as <- <-. split; [exact Hcount |]. split; [exact E2 |].
    intros w Hw.
    destruct (Nat.eq_dec (count_occ Z.eq_dec out_values w) 0) as [-> | Hpos]; [lia |].
    rewrite <- counter_get_Counter in Hpos |- *. apply counter_get_pos_In in Hpos.
    assert (Hin : In (w, counter_get (Counter out_values) w)
                     (counter_pop v1 (Counter out_values))).
    { apply filter_In. split; [exact Hpos |]. cbn [fst].
      apply negb_true_iff, Z.eqb_neq. exact Hw. }
    apply Hmax2 in Hin. cbn [snd] in Hin.
    apply filter_In in Hin2. destruct Hin2 as [Hin2 _].
    apply Hmax1 in Hin2. cbn [snd] in Hin2. lia.
Qed.

(** ** Every way the pairer can end *)

Lemma split_count (v : Z) (k : nat) (out_values c' : list Z) :
  Permutation out_values (repeat v k ++ c') -> ~ In v c' ->
  count_occ Z.eq_dec out_values v = k
  /\ length out_values = (k + length c')%nat.
Proof.
  intros HP Hnin. split.
  - rewrite (proj1 (Permutation_count_occ Z.eq_dec _ _) HP v), count_occ_app.
    rewrite count_occ_repeat_eq by reflexivity.
    rewrite (proj1 (count_occ_not_In Z.eq_dec c' v) Hnin). lia.
  - rewrite (Permutation_length HP), length_app, repeat_length. reflexivity.
Qed.

Lemma _pair_up_inout_values_outcome (in_values out_values : list Z)
    (value_mixed : option Z) :
  expected_outcome in_values out_values value_mixed
    (_pair_up_inout_values in_values out_values value_mixed).
Proof.
  unfold _pair_up_inout_values.
  destruct (split_mix_values (S (length out_values)) value_mixed out_values [])
    as [c' m'] eqn:Esplit.
  assert (Hm : length m' = mix_count value_mixed out_values
               /\ (length (sorted c') + length m' = length out_values)%nat
               /\ match value_mixed with Some v => m' = repeat v (length m') | None => m' = [] end
               /\ sum out_values = sum m' + sum (sorted c')).
  { destruct value_mixed as [v |].
    - apply split_mix_values_Some in Esplit; [| lia].
      destruct Esplit as [k [-> [HP Hnin]]]. cbn [app mix_count].
      destruct (split_count _ _ _ _ HP Hnin) as [Hc Hl].
      rewrite repeat_length, <- (Permutation_length (sorted_Permutation c')).
      split; [congruence |]. split; [lia |]. split; [reflexivity |].
      rewrite (sum_Permutation _ _ HP), sum_app.
      rewrite <- (sum_Permutation _ _ (sorted_Permutation c')). reflexivity.
    - rewrite split_mix_values_None in Esplit. injection Esplit as <- <-.
      cbn. rewrite <- (Permutation_length (sorted_Permutation out_values)).
      split; [reflexivity |]. split; [lia |]. split; [reflexivity |].
      rewrite <- (sum_Permutation _ _ (sorted_Permutation out_values)). reflexivity. }
  destruct Hm as [Hn [Hlen [Hrep Hsum]]]. clear Esplit.
  destruct (negb (0 <=? sum in_values - sum out_values)) eqn:Efee.
  { apply negb_true_iff, Z.leb_gt in Efee. left. lia. }
  destruct (negb ((Z.of_nat (length m') - 1 <=? Z.of_nat (length (sorted c')))
                  && (Z.of_nat (length (sorted c')) <=? Z.of_nat (length m')))) eqn:Ecount.
  { right. cbn zeta. rewrite <- Hn. intros [H1 H2].
    apply negb_true_iff, andb_false_iff in Ecount.
    destruct Ecount as [E | E]; apply Z.leb_gt in E; lia. }
  destruct value_mixed as [v |].
  - rewrite Hrep.
    destruct (pairing_loop_spec v
                (range 1 (Z.of_nat (length in_values) - Z.of_nat (length m') + 2))
                (length m') in_values (sorted c') [])
      as [st [makers [Hl [_ [_ [HPi [HPo [Hmix [Hnum _]]]]]]]]].
    rewrite repeat_length, Hl. cbn [bind].
    destruct (s_num_pairs_left st =? 1)%nat eqn:Enpl.
    + rewrite Hmix, repeat_length, Nat.eqb_refl. cbn [negb].
      unfold decimal_div.
      destruct (Z.of_nat (length m') - 1 =? 0) eqn:Ek; cbn [bind].
      * apply Z.eqb_eq in Ek. apply Nat.eqb_eq in Enpl.
        assert (Hmk : makers = []) by (destruct makers; [reflexivity | cbn [length] in Hnum; lia]).
        subst makers. cbn [map concat] in HPi, HPo. rewrite !app_nil_r in *.
        apply sum_Permutation in HPi, HPo. rewrite sum_app in HPo.
        rewrite <- Hrep in HPo. rewrite Hmix, Enpl in *.
        destruct (_ =? 0) eqn:E0.
        { cbn [bind expected_outcome]. rewrite <- Hn. lia. }
        { apply Z.eqb_neq in E0. exfalso. apply E0. rewrite sum_app in HPo. lia. }
      * destruct (negb (Qltb _ _ && Qltb _ _)); [exact eq_refl | exact I].
    + cbn [bind]. destruct (_ || _); exact I.
  - subst m'. cbn.
    destruct (is_nonempty in_values || is_nonempty (sorted c')); exact I.
Qed.

Lemma Counter_nil (l : list Z) : Counter l = [] -> l = [].
Proof.
  intros H. destruct l as [| x l]; [reflexivity |].
  pose proof (counter_get_Counter (x :: l) x) as Hc. rewrite H in Hc.
  simpl in Hc. destruct (Z.eq_dec x x); [discriminate | congruence].
Qed.

Lemma get_value_mixed_from_values_Raise (in_values out_values : list Z) (e : exn) :
  get_value_mixed_from_values in_values out_values = Raise e ->
  e = IndexError /\ out_values = [].
Proof.
  unfold get_value_mixed_from_values. intros H.
  destruct (most_common_1 (Counter out_values)) as [| [v1 n1] rest] eqn:E1.
  - injection H as <-. split; [reflexivity |].
    apply Counter_nil, most_common_1_nil. exact E1.
  - destruct (n1 <=? 2)%nat; [discriminate |].
    destruct (most_common_1 (counter_pop v1 (Counter out_values))) as [| [v2 n2] rest2];
      [discriminate |].
    destruct (n2 =? n1)%nat; discriminate.
Qed.

(** The classifier always returns a decision: [most_common(1)[0]] is only
    reached with more than three outputs. *)
Lemma check_potential_joinmarket_tx_total (tx : Tx) :
  exists is_ok desc, check_potential_joinmarket_tx tx = Ok (is_ok, desc).
Proof.
  unfold check_potential_joinmarket_tx.
  destruct (length (vout tx) <=? MIN_NUM_OUTPUTS)%nat eqn:Eo; [eauto |].
  destruct (length (vin tx) <=? MIN_NUM_INPUTS)%nat; [eauto |].
  destruct (get_value_mixed tx) as [[[v count] |] | e] eqn:E; cbn [bind].
  - destruct (v <? MIN_MIX_VALUE); [eauto |].
    destruct (negb _); [eauto |].
    destruct (25 <? length (vin tx))%nat; eauto.
  - eauto.
  - exfalso. unfold get_value_mixed in E.
    apply get_value_mixed_from_values_Raise in E. destruct E as [_ E].
    apply Nat.leb_gt in Eo. unfold vout_values in E.
    apply (f_equal (@length Z)) in E. rewrite length_map in E.
    cbn [length] in E. lia.
Qed.

Lemma overspending_fails_outside_Unpairable :
  ~ ((exists pairs,
        pair_up_inout_values overspending_inputs overspending_outputs None = Ok pairs)
     \/ (exists m,
           pair_up_inout_values overspending_inputs overspending_outputs None
           = Raise (Unpairable m))).
Proof.
  intros [[pairs H] | [m H]]; vm_compute in H; discriminate H.
Qed.

(** C6 (amended). For every pair of value lists, [pair_up_inout_values]
    returns a pairing, or fails with [Unpairable] and one of its two
    messages ('taker fees dont add up', 'unpairable change values: ...'),
    or fails one of its two [assert]s with an [AssertionError] (only when
    the inputs sum to less than the outputs, or the number of change
    values is not [N-1] or [N], where [N] is 0 if no unique mix value is
    detected), or fails with an [IndexError] (only on an empty output
    list); it fails in no other way. *)
Theorem pair_up_inout_values_outcomes (in_values out_values : list Z) :
  expected_default_outcome in_values out_values
    (pair_up_inout_values in_values out_values None).
Proof.
  unfold pair_up_inout_values.
  destruct (get_value_mixed_from_values in_values out_values) as [r | e] eqn:E.
  - cbn [bind].
    pose proof (_pair_up_inout_values_outcome in_values out_values (option_map fst r)) as H.
    destruct (_pair_up_inout_values in_values out_values (option_map fst r)) as [pairs | e'].
    + exact I.
    + destruct e'; cbn [expected_outcome expected_default_outcome] in *;
        try exact H; try contradiction.
      * destruct H as [H | H]; [left; exact H | right].
        exists r. split; [exact E | exact H].
      * exfalso. destruct r as [[v count] |]; cbn in H; [| discriminate].
        apply get_value_mixed_from_values_Some in E. lia.
  - apply get_value_mixed_from_values_Raise in E. destruct E as [-> ->]. reflexivity.
Qed.

(** ** The order of the (bucket size, tolerance) candidates *)

Lemma Qltb_ge (x y : Q) : Qltb x y = false -> (y <= x)%Q.
Proof. unfold Qltb, Qle. intros H. apply Z.ltb_ge in H. exact H. Qed.

Lemma insert_by_key_In (keys : list Q) (i k : nat) (l : list nat) :
  In k (insert_by_key keys i l) <-> k = i \/ In k l.
Proof.
  induction l as [| j t IH]; simpl.
  - intuition congruence.
  - destruct (Qltb (nth j keys 0%Q) (nth i keys 0%Q)); simpl; rewrite ?IH;
      intuition congruence.
Qed.

Lemma insert_by_key_Permutation (keys : list Q) (i : nat) (l : list nat) :
  Permutation (i :: l) (insert_by_key keys i l).
Proof.
  induction l as [| j t IH]; simpl.
  - reflexivity.
  - destruct (Qltb (nth j keys 0%Q) (nth i keys 0%Q)).
    + rewrite perm_swap. constructor. exact IH.
    + reflexivity.
Qed.

Lemma insert_by_key_sorted (keys : list Q) (i : nat) (l : list nat) :
  StronglySorted (by_key keys) l -> StronglySorted (by_key keys) (insert_by_key keys i l).
Proof.
  induction 1 as [| j t Ht IH Hj]; simpl.
  - constructor; constructor.
  - destruct (Qltb (nth j keys 0%Q) (nth i keys 0%Q)) eqn:E.
    + constructor; [exact IH |].
      apply Forall_forall. intros k Hk. apply insert_by_key_In in Hk.
      destruct Hk as [-> | Hk].
      * apply Qlt_le_weak, Qltb_lt. exact E.
      * exact (proj1 (Forall_forall _ _) Hj k Hk).
    + apply Qltb_ge in E. constructor; [constructor; assumption |].
      constructor; [exact E |].
      apply (Forall_impl _ (P := by_key keys j)); [| exact Hj].
      intros k Hk. exact (Qle_trans _ _ _ E Hk).
Qed.

Lemma argsort_sorted (keys : list Q) : StronglySorted (by_key keys) (argsort keys).
Proof.
  unfold argsort. induction (seq 0 (length keys)) as [| i l IH]; simpl.
  - constructor.
  - apply insert_by_key_sorted. exact IH.
Qed.

Lemma argsort_Permutation (keys : list Q) :
  Permutation (seq 0 (length keys)) (argsort keys).
Proof.
  unfold argsort. induction (seq 0 (length keys)) as [| i l IH]; simpl.
  - constructor.
  - rewrite <- insert_by_key_Permutation. constructor. exact IH.
Qed.

Lemma StronglySorted_map {A B : Type} (R : B -> B -> Prop) (g : A -> B) (l : list A) :
  StronglySorted (fun a b => R (g a) (g b)) l -> StronglySorted R (map g l).
Proof.
  induction 1 as [| a l _ IH Ha]; simpl; constructor.
  - exact IH.
  - apply Forall_map. exact Ha.
Qed.

Lemma StronglySorted_impl_In {A : Type} (R R' : A -> A -> Prop) (l : list A) :
  (forall a b, In a l -> In b l -> R a b -> R' a b) ->
  StronglySorted R l -> StronglySorted R' l.
Proof.
  intros Himp H. induction H as [| a l _ IH Ha]; constructor.
  - apply IH. intros x y Hx Hy. apply Himp; right; assumption.
  - apply Forall_forall. intros b Hb. apply Himp; [left; reflexivity | right; exact Hb |].
    exact (proj1 (Forall_forall _ _) Ha b Hb).
Qed.

Lemma StronglySorted_nth {A : Type} (R : A -> A -> Prop) (l : list A) (d : A) :
  StronglySorted R l ->
  forall a b, (a < b < length l)%nat -> R (nth a l d) (nth b l d).
Proof.
  induction 1 as [| x l _ IH Hx]; intros a b Hab; simpl in Hab.
  - lia.
  - destruct b as [| b]; [lia |]. destruct a as [| a]; simpl.
    + apply (proj1 (Forall_forall _ _) Hx). apply nth_In. lia.
    + apply IH. lia.
Qed.

Lemma nth_costs (n m k : nat) :
  (k < n * m)%nat ->
  nth k (map cost (indices n m)) 0%Q = cost ((k / m)%nat, (k mod m)%nat).
Proof.
  intros Hk. unfold indices. rewrite map_map.
  rewrite (nth_indep _ 0%Q (cost ((0 / m)%nat, (0 mod m)%nat)))
    by (rewrite length_map, length_seq; exact Hk).
  rewrite (map_nth (fun k => cost ((k / m)%nat, (k mod m)%nat)) (seq 0 (n * m)) O k).
  rewrite seq_nth by exact Hk. reflexivity.
Qed.

(** The index pairs come out in ascending order of [cost], and each of
    them once. *)
Lemma gen_index_pairs_sorted (n m : nat) :
  StronglySorted (fun a b => (cost a <= cost b)%Q) (gen_index_pairs n m).
Proof.
  unfold gen_index_pairs, gen_index_pairs_by. apply StronglySorted_map.
  assert (Hlen : length (map cost (indices n m)) = (n * m)%nat)
    by (unfold indices; rewrite !length_map, length_seq; reflexivity).
  apply (StronglySorted_impl_In (by_key (map cost (indices n m)))).
  - intros a b Ha Hb H. unfold by_key in H.
    apply (Permutation_in _ (Permutation_sym (argsort_Permutation _))) in Ha, Hb.
    rewrite Hlen in Ha, Hb. apply in_seq in Ha, Hb.
    rewrite <- (nth_costs n m a), <- (nth_costs n m b) by lia. exact H.
  - apply argsort_sorted.
Qed.

Lemma gen_index_pairs_Permutation (n m : nat) :
  Permutation (gen_index_pairs n m) (indices n m).
Proof.
  unfold gen_index_pairs, gen_index_pairs_by, indices. apply Permutation_map.
  rewrite <- argsort_Permutation, !length_map, length_seq. reflexivity.
Qed.

Lemma gen_bucket_size_dist_pairs_indices (bucket_sizes : list nat) (ds : list Q) :
  gen_bucket_size_dist_pairs bucket_sizes ds
  = map (fun bj => (fst bj, nth (snd bj) ds 0%Q))
        (candidate_indices bucket_sizes (length ds)).
Proof.
  unfold gen_bucket_size_dist_pairs, gen_bucket_size_dist_pairs_by, candidate_indices. rewrite map_map. reflexivity.
Qed.

(** Both indices are in range, so [bucket_sizes[bucket_idx]] and
    [dists[dist_idx]] never index out of range. *)
Lemma gen_index_pairs_range (n m i j : nat) :
  In (i, j) (gen_index_pairs n m) -> (i < n)%nat /\ (j < m)%nat.
Proof.
  intros H. apply (Permutation_in _ (gen_index_pairs_Permutation n m)) in H.
  unfold indices in H. apply in_map_iff in H. destruct H as [k [[= <- <-] Hk]].
  apply in_seq in Hk. destruct m as [| m]; [lia |]. split.
  - apply Nat.Div0.div_lt_upper_bound. lia.
  - apply Nat.mod_upper_bound. discriminate.
Qed.

Lemma range_1 (n : nat) : range 1 (Z.of_nat n + 1) = seq 1 n.
Proof.
  unfold range. replace (Z.of_nat n + 1 - 1) with (Z.of_nat n) by lia.
  rewrite Nat2Z.id. reflexivity.
Qed.

(** With two bucket sizes, the candidate (size 2, tolerance 0) is tried
    before (size 1, tolerance 4), although 2*2 + 0.1*0*0 = 4 is more than
    1*1 + 0.1*4*4 = 2.6. *)
Lemma candidates_not_ascending_in_bucket_size :
  ~ StronglySorted (fun a b => (cost a <= cost b)%Q)
      (candidate_indices (range 1 3) (length dists)).
Proof.
  intros H.
  apply (StronglySorted_nth _ _ (O, O)) with (a := 4%nat) (b := 7%nat) in H.
  - vm_compute in H. apply H. reflexivity.
  - vm_compute. lia.
Qed.

Lemma gen_index_pairs_by_sorted (np_argsort : list Q -> list nat) (n m : nat) :
  is_argsort (map cost (indices n m)) (np_argsort (map cost (indices n m))) ->
  StronglySorted (fun a b => (cost a <= cost b)%Q) (gen_index_pairs_by np_argsort n m).
Proof.
  intros [HP Hs]. unfold gen_index_pairs_by. apply StronglySorted_map.
  assert (Hlen : length (map cost (indices n m)) = (n * m)%nat)
    by (unfold indices; rewrite !length_map, length_seq; reflexivity).
  apply (StronglySorted_impl_In (by_key (map cost (indices n m)))); [| exact Hs].
  intros a b Ha Hb H. unfold by_key in H.
  apply (Permutation_in _ HP) in Ha, Hb.
  rewrite Hlen in Ha, Hb. apply in_seq in Ha, Hb.
  rewrite <- (nth_costs n m a), <- (nth_costs n m b) by lia. exact H.
Qed.

Lemma gen_index_pairs_by_Permutation (np_argsort : list Q -> list nat) (n m : nat) :
  is_argsort (map cost (indices n m)) (np_argsort (map cost (indices n m))) ->
  Permutation (gen_index_pairs_by np_argsort n m) (indices n m).
Proof.
  intros [HP _]. unfold gen_index_pairs_by, indices in *. apply Permutation_map.
  rewrite HP, !length_map, length_seq. reflexivity.
Qed.

Lemma argsort_is_argsort (keys : list Q) : is_argsort keys (argsort keys).
Proof.
  split; [symmetry; apply argsort_Permutation | apply argsort_sorted].
Qed.

Lemma seq_offset (a len : nat) : seq a len = map (Nat.add a) (seq 0 len).
Proof.
  revert a. induction len as [| len IH]; intros a; [reflexivity |].
  cbn [seq map]. rewrite Nat.add_0_r. f_equal.
  rewrite (IH (S a)), <- seq_shift, map_map. apply map_ext. intros j. lia.
Qed.

Lemma list_prod_app {A B : Type} (l1 l2 : list A) (l : list B) :
  list_prod (l1 ++ l2) l = list_prod l1 l ++ list_prod l2 l.
Proof.
  induction l1 as [| x l1 IH]; [reflexivity |].
  cbn [app list_prod]. rewrite IH, app_assoc. reflexivity.
Qed.

Lemma list_prod_map {A B C D : Type} (f : A -> C) (g : B -> D) (l1 : list A) (l2 : list B) :
  map (fun ij => (f (fst ij), g (snd ij))) (list_prod l1 l2)
  = list_prod (map f l1) (map g l2).
Proof.
  induction l1 as [| x l1 IH]; [reflexivity |].
  cbn [list_prod map]. rewrite map_app, IH, !map_map. reflexivity.
Qed.

Lemma map_nth_seq {A : Type} (l : list A) (d : A) :
  map (fun i => nth i l d) (seq 0 (length l)) = l.
Proof.
  induction l as [| x l IH]; [reflexivity |].
  cbn [length seq map nth]. f_equal.
  rewrite <- seq_shift, map_map. exact IH.
Qed.

Lemma indices_list_prod (n m : nat) :
  indices n m = list_prod (seq 0 n) (seq 0 m).
Proof.
  unfold indices. induction n as [| n IH]; [reflexivity |].
  rewrite seq_S, list_prod_app, <- IH. cbn [list_prod plus]. rewrite app_nil_r.
  replace (S n * m)%nat with (n * m + m)%nat by lia.
  rewrite seq_app, map_app. f_equal. cbn [plus].
  rewrite (seq_offset (n * m) m), map_map. apply map_ext_in.
  intros j Hj. apply in_seq in Hj.
  assert (Hm : m <> O) by lia.
  rewrite (Nat.add_comm (n * m) j), Nat.div_add by exact Hm.
  rewrite Nat.Div0.mod_add, Nat.div_small, Nat.mod_small by lia.
  reflexivity.
Qed.

(** C7 (amended). Whatever order [np.argsort] gives to candidates of equal
    cost, the pairer enumerates its (bucket size, tolerance) candidates in
    ascending order of the cost
    (bucketSize - 1)^2 + 0.1 * toleranceIndex^2: the penalised quantity is
    the index of the bucket size in [range(1, ...)], one less than the size
    itself, so the candidates with bucket size 1 carry no bucket penalty.
    The candidates are the pairs of a bucket size and a tolerance index,
    each pair once, and each is yielded as the bucket size with the
    tolerance [dists[toleranceIndex]]. *)
Theorem candidates_ascending_cost (np_argsort : list Q -> list nat)
    (num_bucket_sizes : nat) (ds : list Q) :
  (forall keys, is_argsort keys (np_argsort keys)) ->
  let bucket_sizes := range 1 (Z.of_nat num_bucket_sizes + 1) in
  exists candidates : list (nat * nat),
    gen_bucket_size_dist_pairs_by np_argsort bucket_sizes ds
    = map (fun c => (fst c, nth (snd c) ds 0%Q)) candidates
    /\ Permutation candidates
         (list_prod (seq 1 num_bucket_sizes) (seq 0 (length ds)))
    /\ StronglySorted
         (fun a b =>
            (inject_Z ((Z.of_nat (fst a) - 1) ^ 2)
             + (1 # 10) * inject_Z (Z.of_nat (snd a) ^ 2)
             <= inject_Z ((Z.of_nat (fst b) - 1) ^ 2)
                + (1 # 10) * inject_Z (Z.of_nat (snd b) ^ 2))%Q)
         candidates.
Proof.
  intros Hsort. cbn zeta. rewrite range_1.
  set (n := num_bucket_sizes). set (m := length ds).
  pose proof (Hsort (map cost (indices n m))) as Hd.
  pose proof (gen_index_pairs_by_Permutation np_argsort n m Hd) as HP.
  exists (map (fun ij => (S (fst ij), snd ij)) (gen_index_pairs_by np_argsort n m)).
  split; [| split].
  - unfold gen_bucket_size_dist_pairs_by. rewrite length_seq, map_map.
    fold n. fold m. apply map_ext_in. intros [i j] Hij. cbn [fst snd].
    apply (Permutation_in _ HP) in Hij. rewrite indices_list_prod in Hij.
    apply in_prod_iff in Hij. destruct Hij as [Hi _]. apply in_seq in Hi.
    rewrite seq_nth by lia. reflexivity.
  - rewrite HP, indices_list_prod.
    rewrite (list_prod_map S (fun j => j)), seq_shift, map_id. reflexivity.
  - apply StronglySorted_map.
    apply (StronglySorted_impl_In (fun a b => (cost a <= cost b)%Q));
      [| apply gen_index_pairs_by_sorted, Hd].
    intros [i j] [i' j'] _ _ H. unfold cost, DIST_PENALTY_FACTOR in H.
    cbn [fst snd] in *.
    replace (Z.of_nat (S i) - 1) with (Z.of_nat i) by lia.
    replace (Z.of_nat (S i') - 1) with (Z.of_nat i') by lia.
    exact H.
Qed.

Lemma candidates_ascending_cost_witness :
  exists candidates : list (nat * nat),
    gen_bucket_size_dist_pairs_by argsort (range 1 (Z.of_nat 2 + 1)) dists
    = map (fun c => (fst c, nth (snd c) dists 0%Q)) candidates
    /\ Permutation candidates (list_prod (seq 1 2) (seq 0 (length dists)))
    /\ StronglySorted
         (fun a b =>
            (inject_Z ((Z.of_nat (fst a) - 1) ^ 2)
             + (1 # 10) * inject_Z (Z.of_nat (snd a) ^ 2)
             <= inject_Z ((Z.of_nat (fst b) - 1) ^ 2)
                + (1 # 10) * inject_Z (Z.of_nat (snd b) ^ 2))%Q)
         candidates.
Proof.
  apply (candidates_ascending_cost argsort 2 dists).
  intros keys. apply argsort_is_argsort.
Defined.

(** ** Pass 1: looking up the inputs of the maker groups *)

Lemma unconsumed_map_Some (l : list Z) : unconsumed (map Some l) = l.
Proof.
  induction l as [| x l IH]; [reflexivity |].
  change (x :: unconsumed (map Some l) = x :: l). rewrite IH. reflexivity.
Qed.

Lemma set_None_length (l : list (option Z)) (i : nat) :
  length (set_None l i) = length l.
Proof.
  revert i. induction l as [| x l IH]; intros [| i]; simpl; try reflexivity.
  rewrite IH. reflexivity.
Qed.

(** A value that is still unconsumed is found, at an index in range, and
    consuming it removes one occurrence of it and nothing else. *)
Lemma index_spec (value : Z) (l : list (option Z)) :
  In value (unconsumed l) ->
  exists i,
    index value l = Ok i /\ (i < length l)%nat
    /\ nth_error l i = Some (Some value)
    /\ Permutation (unconsumed l) (value :: unconsumed (set_None l i)).
Proof.
  induction l as [| [v |] l IH]; cbn [unconsumed flat_map index app]; intros Hin.
  - contradiction.
  - destruct (v =? value) eqn:E.
    + apply Z.eqb_eq in E. subst v. exists O. cbn. repeat split; [lia | reflexivity].
    + apply Z.eqb_neq in E. destruct Hin as [Hin | Hin]; [congruence |].
      destruct (IH Hin) as [i [Hi [Hlt [Hn HP]]]]. exists (S i).
      rewrite Hi. cbn. repeat split; [lia | exact Hn |].
      fold (unconsumed l). fold (unconsumed (set_None l i)).
      rewrite HP. apply perm_swap.
  - destruct (IH Hin) as [i [Hi [Hlt [Hn HP]]]]. exists (S i).
    rewrite Hi. cbn. repeat split; [lia | exact Hn | exact HP].
Qed.

Lemma add_addresses_Raise (addrs addresses : list string) (e : exn) :
  add_addresses addrs addresses = Raise e -> e = AssertionError.
Proof.
  revert addresses. induction addrs as [| a addrs IH]; intros addresses; simpl.
  - discriminate.
  - destruct (negb _); [intros [= <-]; reflexivity | apply IH].
Qed.

Lemma seed_values_spec (jmtx : JoinMarketTx.t) (values : list Z) :
  forall vin_values addresses rest,
    length vin_values = length (vin (JoinMarketTx.tx jmtx)) ->
    Permutation (unconsumed vin_values) (values ++ rest) ->
    seeded values vin_values (seed_values jmtx values vin_values addresses).
Proof.
  induction values as [| value values IH]; intros vin_values addresses rest Hlen HP.
  - cbn. split; reflexivity.
  - cbn [seed_values].
    assert (Hin : In value (unconsumed vin_values)).
    { apply (Permutation_in _ (Permutation_sym HP)). left. reflexivity. }
    destruct (index_spec value vin_values Hin) as [i [Hi [Hlt [_ HPi]]]].
    rewrite Hi. cbn [bind].
    destruct (getitem_lt (vin (JoinMarketTx.tx jmtx)) i) as [back_vout Hb]; [lia |].
    rewrite Hb. cbn [bind].
    destruct (add_addresses (get_vout_addresses back_vout) addresses) as [addresses' | e] eqn:Ea.
    + cbn [bind].
      assert (HP' : Permutation (unconsumed (set_None vin_values i)) (values ++ rest)).
      { apply (@Permutation_cons_inv _ _ _ value). rewrite <- HPi. exact HP. }
      pose proof (IH (set_None vin_values i) addresses' rest
                    (eq_trans (set_None_length _ _) Hlen) HP') as H.
      unfold seeded in *.
      destruct (seed_values jmtx values (set_None vin_values i) addresses') as [[l' a'] | e].
      * destruct H as [Hl H]. rewrite set_None_length in Hl. split; [exact Hl |].
        rewrite HPi. cbn [app]. constructor. exact H.
      * exact H.
    + cbn. apply add_addresses_Raise in Ea. exact Ea.
Qed.

Lemma seed_pairs_spec (jmtx : JoinMarketTx.t) (maker_pairs : list (list Z * list Z)) :
  forall vin_values addresses rest,
    length vin_values = length (vin (JoinMarketTx.tx jmtx)) ->
    Permutation (unconsumed vin_values) (concat (map fst maker_pairs) ++ rest) ->
    seeded (concat (map fst maker_pairs)) vin_values
      (seed_pairs jmtx maker_pairs vin_values addresses).
Proof.
  induction maker_pairs as [| p ps IH]; intros vin_values addresses rest Hlen HP.
  - cbn. split; reflexivity.
  - cbn [seed_pairs map concat] in *. rewrite <- app_assoc in HP.
    pose proof (seed_values_spec jmtx (fst p) vin_values addresses _ Hlen HP) as H.
    destruct (seed_values jmtx (fst p) vin_values addresses) as [[l' a'] | e].
    + cbn [bind fst snd]. destruct H as [Hl H].
      assert (HP' : Permutation (unconsumed l') (concat (map fst ps) ++ rest)).
      { apply (Permutation_app_inv_l (fst p)). rewrite <- H. exact HP. }
      pose proof (IH l' a' rest (eq_trans Hl Hlen) HP') as H'.
      unfold seeded in *.
      destruct (seed_pairs jmtx ps l' a') as [[l'' a''] | e].
      * destruct H' as [Hl' H']. split; [congruence |].
        rewrite H, H', app_assoc. reflexivity.
      * exact H'.
    + exact H.
Qed.

(** C10. For a transaction whose pairing the pairer produced, the input
    values of the maker groups, taken together, are a sub-multiset of the
    transaction's input values; so the seeding loop of Pass 1, which looks
    up each of these values among the inputs not yet consumed and marks the
    one it finds as consumed, always finds one: it consumes as many distinct
    inputs as there are values, and [extract_maker_addresses_from_tx] can
    only fail the [assert] on an address length, never the lookup. *)
Theorem seeding_lookup_never_fails (tx : Tx) (pairs : list (list Z * list Z)) :
  pair_up_inout_values (vin_values tx) (vout_values tx) None = Ok pairs ->
  let jmtx := JoinMarketTx.mk tx pairs in
  let maker_inputs := concat (map fst (JoinMarketTx.maker_value_pairs jmtx)) in
  (exists rest, Permutation (vin_values tx) (maker_inputs ++ rest))
  /\ seeded maker_inputs (map Some (vin_values tx))
       (seed_pairs jmtx (JoinMarketTx.maker_value_pairs jmtx) (map Some (vin_values tx)) [])
  /\ (forall e, extract_maker_addresses_from_tx jmtx = Raise e -> e = AssertionError).
Proof.
  intros H jmtx maker_inputs.
  assert (Hsub : exists rest, Permutation (vin_values tx) (maker_inputs ++ rest)).
  { apply pair_up_inout_values_nonempty_shape in H; [| left; reflexivity].
    destruct H as [v [Hshape Hne]].
    pose proof (maker_value_pairs_tl tx _ _ _ _ Hshape) as Hmk.
    destruct Hshape as [[_ [_ ->]] | H]; [congruence |].
    destruct H as [v' [ti [tc [mk [cv [_ [-> [_ [_ [_ [_ [_ [HPi _]]]]]]]]]]]]].
    exists ti. subst maker_inputs jmtx. rewrite Hmk. cbn [tl].
    rewrite HPi. apply Permutation_app_comm. }
  split; [exact Hsub |].
  destruct Hsub as [rest Hrest].
  assert (Hseed : seeded maker_inputs (map Some (vin_values tx))
            (seed_pairs jmtx (JoinMarketTx.maker_value_pairs jmtx)
               (map Some (vin_values tx)) [])).
  { apply (seed_pairs_spec jmtx _ _ _ rest).
    - unfold vin_values. rewrite !length_map. reflexivity.
    - rewrite unconsumed_map_Some. exact Hrest. }
  split; [exact Hseed |].
  intros e. unfold extract_maker_addresses_from_tx. fold jmtx.
  unfold seeded in Hseed.
  destruct (seed_pairs jmtx (JoinMarketTx.maker_value_pairs jmtx)
              (map Some (vin_values (JoinMarketTx.tx jmtx))) []) as [[l a] | e'] eqn:E;
    cbn [bind]; [discriminate |].
  intros [= <-]. subst jmtx. cbn [JoinMarketTx.tx] in E. rewrite E in Hseed. exact Hseed.
Qed.

Lemma seeding_lookup_never_fails_witness :
  let jmtx := JoinMarketTx.mk example_tx example_pairs in
  let maker_inputs := concat (map fst (JoinMarketTx.maker_value_pairs jmtx)) in
  (exists rest, Permutation (vin_values example_tx) (maker_inputs ++ rest))
  /\ seeded maker_inputs (map Some (vin_values example_tx))
       (seed_pairs jmtx (JoinMarketTx.maker_value_pairs jmtx)
          (map Some (vin_values example_tx)) [])
  /\ (forall e, extract_maker_addresses_from_tx jmtx = Raise e -> e = AssertionError).
Proof.
  apply (seeding_lookup_never_fails example_tx example_pairs).
  vm_compute. reflexivity.
Defined.

(** ** Python floats: rounding to binary64 *)

Lemma round_half_even_spec (n d : Z) :
  0 < d ->
  let m := round_half_even n d in
  - d <= 2 * (m * d - n) <= d
  /\ (Z.abs (2 * (m * d - n)) = d -> Z.even m = true).
Proof.
  intros Hd. cbn zeta. unfold round_half_even.
  pose proof (Z.div_mod n d ltac:(lia)) as Hn.
  pose proof (Z.mod_pos_bound n d Hd) as Hr.
  set (q := n / d) in *. set (r := n mod d) in *.
  destruct (2 * r <? d) eqn:E1.
  - apply Z.ltb_lt in E1. split; [nia | intros H; nia].
  - apply Z.ltb_ge in E1. destruct (d <? 2 * r) eqn:E2.
    + apply Z.ltb_lt in E2. split; [nia | intros H; nia].
    + apply Z.ltb_ge in E2. destruct (Z.even q) eqn:E3.
      * split; [nia | intros _; exact E3].
      * split; [nia | intros _]. rewrite Z.even_add. rewrite E3. reflexivity.
Qed.

Lemma round_half_even_exact (m d : Z) : 0 < d -> round_half_even (m * d) d = m.
Proof.
  intros Hd. unfold round_half_even.
  rewrite Z.div_mul by lia. rewrite Z.mod_mul by lia.
  destruct (2 * 0 <? d) eqn:E; [reflexivity | apply Z.ltb_ge in E; lia].
Qed.

Lemma round_half_even_mono (n1 d1 n2 d2 : Z) :
  0 < d1 -> 0 < d2 -> n1 * d2 <= n2 * d1 ->
  round_half_even n1 d1 <= round_half_even n2 d2.
Proof.
  intros H1 H2 Hle.
  destruct (round_half_even_spec n1 d1 H1) as [[_ Hu] He1].
  destruct (round_half_even_spec n2 d2 H2) as [[Hl _] He2].
  set (q1 := round_half_even n1 d1) in *. set (q2 := round_half_even n2 d2) in *.
  destruct (Z_le_gt_dec q1 q2) as [Hq | Hq]; [exact Hq | exfalso].
  assert (Hd : 0 < d1 * d2) by nia.
  assert (A : 2 * (q1 * d1 - n1) * d2 <= d1 * d2) by nia.
  assert (B : - (d1 * d2) <= 2 * (q2 * d2 - n2) * d1) by nia.
  assert (C : 2 * (q1 - q2) * (d1 * d2) <= 2 * (d1 * d2)) by nia.
  assert (D : q1 = q2 + 1) by nia.
  assert (E1 : 2 * (q1 * d1 - n1) = d1) by nia.
  assert (E2 : 2 * (q2 * d2 - n2) = - d2) by nia.
  assert (F1 : Z.even q1 = true) by (apply He1; lia).
  assert (F2 : Z.even q2 = true) by (apply He2; lia).
  rewrite D, Z.even_add, F2 in F1. discriminate F1.
Qed.

Lemma binary64_0 (x : Q) : Qnum x = 0 -> binary64 x = 0%Q.
Proof. intros H. unfold binary64. rewrite H. reflexivity. Qed.

Lemma binary64_unit (a : Z) (d : positive) :
  0 < a <= Z.pos d ->
  exists k,
    52 <= k
    /\ 2 ^ 52 * Z.pos d <= a * 2 ^ k < 2 ^ 53 * Z.pos d
    /\ binary64 (a # d)
       = Qred (round_half_even (a * 2 ^ k) (Z.pos d) # Z.to_pos (2 ^ k)).
Proof.
  intros [Ha Hab]. unfold binary64. cbn [Qnum Qden].
  rewrite (Z.abs_eq a) by lia.
  destruct (a =? 0) eqn:E0; [apply Z.eqb_eq in E0; lia | clear E0].
  set (b := Z.pos d) in *.
  assert (Hb : 0 < b) by (subst b; lia).
  pose proof (Z.log2_spec a Ha) as [HA1 HA2].
  pose proof (Z.log2_spec b Hb) as [HB1 HB2].
  pose proof (Z.log2_le_mono a b Hab) as Hl.
  pose proof (Z.log2_nonneg a) as Hla.
  set (la := Z.log2 a) in *. set (lb := Z.log2 b) in *.
  set (k0 := 52 + lb - la).
  assert (Hk0 : 52 <= k0) by (subst k0; lia).
  rewrite (Z.max_l k0 0), (Z.max_r (- k0) 0) by lia.
  assert (Hp : 2 ^ k0 = 2 ^ 52 * 2 ^ (lb - la)).
  { subst k0. replace (52 + lb - la) with (52 + (lb - la)) by lia.
    apply Z.pow_add_r; lia. }
  assert (HB : 2 ^ lb = 2 ^ la * 2 ^ (lb - la)).
  { rewrite <- Z.pow_add_r by lia. f_equal. lia. }
  rewrite !Z.pow_succ_r in * by lia.
  assert (HP : 0 < 2 ^ (lb - la)) by (apply Z.pow_pos_nonneg; lia).
  set (P := 2 ^ (lb - la)) in *. set (A := 2 ^ la) in *. set (B := 2 ^ lb) in *.
  assert (H52 : 0 < 2 ^ 52) by (apply Z.pow_pos_nonneg; lia).
  set (T := 2 ^ 52) in *.
  assert (Hlo : T * b < 2 * (a * (T * P))) by nia.
  assert (Hhi : a * (T * P) < 2 * T * b) by nia.
  change (2 ^ 0) with 1. rewrite !Z.mul_1_r.
  destruct (a * 2 ^ k0 <? T * b) eqn:E.
  - apply Z.ltb_lt in E. exists (k0 + 1).
    rewrite (Z.max_l (k0 + 1) 0), (Z.max_r (- (k0 + 1)) 0) by lia.
    change (2 ^ 0) with 1. rewrite !Z.mul_1_r.
    assert (Hk : 2 ^ (k0 + 1) = 2 * 2 ^ k0) by (rewrite Z.pow_add_r by lia; lia).
    split; [lia |]. split.
    + rewrite Hk, Hp. change (2 ^ 53) with (2 * T). nia.
    + rewrite (Z.sgn_pos a Ha), Z.mul_1_l. reflexivity.
  - apply Z.ltb_ge in E. exists k0.
    rewrite (Z.max_l k0 0), (Z.max_r (- k0) 0) by lia.
    change (2 ^ 0) with 1. rewrite !Z.mul_1_r.
    split; [lia |]. split.
    + rewrite Hp in *. change (2 ^ 53) with (2 * T). nia.
    + rewrite (Z.sgn_pos a Ha), Z.mul_1_l. reflexivity.
Qed.

Lemma pow2_pos (k : Z) : 0 <= k -> 0 < 2 ^ k.
Proof. intros H. apply Z.pow_pos_nonneg; lia. Qed.

Lemma pos_pow2 (k : Z) : 0 <= k -> Z.pos (Z.to_pos (2 ^ k)) = 2 ^ k.
Proof. intros H. apply Z2Pos.id, pow2_pos, H. Qed.

Lemma pow2_split (k1 k2 : Z) :
  0 <= k2 <= k1 -> 2 ^ k1 = 2 ^ k2 * 2 ^ (k1 - k2).
Proof. intros H. rewrite <- Z.pow_add_r by lia. f_equal. lia. Qed.

Lemma pow2_ge_2 (k : Z) : 0 < k -> 2 <= 2 ^ k.
Proof.
  intros H. replace k with (1 + (k - 1)) by lia. rewrite Z.pow_add_r by lia.
  pose proof (pow2_pos (k - 1) ltac:(lia)). lia.
Qed.

Lemma binary64_nonneg (x : Q) : (0 <= x)%Q -> (x <= 1)%Q -> (0 <= binary64 x)%Q.
Proof.
  destruct x as [a d]. unfold Qle at 1 2. cbn [Qnum Qden]. intros Ha Hb.
  destruct (Z.eq_dec a 0) as [-> | Hne]; [rewrite binary64_0 by reflexivity; apply Qle_refl |].
  destruct (binary64_unit a d ltac:(lia)) as [k [Hk [[Hlo Hhi] ->]]].
  rewrite Qred_correct. unfold Qle. cbn [Qnum Qden].
  pose proof (round_half_even_mono (2 ^ 52 * Z.pos d) (Z.pos d) (a * 2 ^ k) (Z.pos d)
                ltac:(lia) ltac:(lia) ltac:(nia)) as Hm.
  rewrite round_half_even_exact in Hm by lia.
  pose proof (pow2_pos 52 ltac:(lia)). lia.
Qed.

Lemma binary64_mono (x y : Q) :
  (0 <= x)%Q -> (x <= y)%Q -> (y <= 1)%Q -> (binary64 x <= binary64 y)%Q.
Proof.
  intros Hx Hxy Hy.
  destruct x as [a1 d1], y as [a2 d2].
  destruct (Z.eq_dec a1 0) as [-> | Hne].
  { rewrite (binary64_0 (0 # d1)) by reflexivity. apply binary64_nonneg; [| exact Hy].
    apply (Qle_trans _ (0 # d1)); [exact Hx | exact Hxy]. }
  unfold Qle in Hx, Hxy, Hy. cbn [Qnum Qden] in Hx, Hxy, Hy.
  assert (H1 : 0 < a1 <= Z.pos d1) by nia.
  assert (H2 : 0 < a2 <= Z.pos d2) by nia.
  destruct (binary64_unit a1 d1 H1) as [k1 [Hk1 [[Hlo1 Hhi1] ->]]].
  destruct (binary64_unit a2 d2 H2) as [k2 [Hk2 [[Hlo2 Hhi2] ->]]].
  rewrite !Qred_correct. unfold Qle. cbn [Qnum Qden]. rewrite !pos_pow2 by lia.
  set (b1 := Z.pos d1) in *. set (b2 := Z.pos d2) in *.
  assert (Hb1 : 0 < b1) by (subst b1; lia). assert (Hb2 : 0 < b2) by (subst b2; lia).
  pose proof (pow2_pos k1 ltac:(lia)) as Hp1. pose proof (pow2_pos k2 ltac:(lia)) as Hp2.
  pose proof (pow2_pos 52 ltac:(lia)) as H52.
  assert (H53 : 2 ^ 53 = 2 * 2 ^ 52) by reflexivity.
  assert (Hk : k2 <= k1).
  { destruct (Z_le_gt_dec k2 k1) as [H | H]; [exact H | exfalso].
    rewrite (pow2_split k2 k1) in Hhi2 by lia.
    pose proof (pow2_ge_2 (k2 - k1) ltac:(lia)) as Hge.
    set (p1 := 2 ^ k1) in *. set (e := 2 ^ (k2 - k1)) in *. set (T := 2 ^ 52) in *.
    assert (A : T * b1 * b2 <= a2 * b1 * p1) by nia.
    assert (B : T * b2 <= a2 * p1) by nia.
    nia. }
  destruct (Z.eq_dec k1 k2) as [-> | Hlt].
  - apply Z.mul_le_mono_nonneg_r; [lia |].
    apply round_half_even_mono; [lia | lia | nia].
  - pose proof (round_half_even_mono (a1 * 2 ^ k1) b1 (2 ^ 53 * b1) b1
                  ltac:(lia) ltac:(lia) ltac:(nia)) as Hm1.
    rewrite round_half_even_exact in Hm1 by lia.
    pose proof (round_half_even_mono (2 ^ 52 * b2) b2 (a2 * 2 ^ k2) b2
                  ltac:(lia) ltac:(lia) ltac:(nia)) as Hm2.
    rewrite round_half_even_exact in Hm2 by lia.
    pose proof (pow2_ge_2 (k1 - k2) ltac:(lia)) as Hge.
    set (m1 := round_half_even (a1 * 2 ^ k1) b1) in *.
    set (m2 := round_half_even (a2 * 2 ^ k2) b2) in *.
    rewrite (pow2_split k1 k2) by lia. rewrite H53 in Hm1.
    set (p2 := 2 ^ k2) in *. set (e := 2 ^ (k1 - k2)) in *. set (T := 2 ^ 52) in *.
    assert (A : m1 * p2 <= 2 * T * p2) by nia.
    assert (B : T * (p2 * e) <= m2 * (p2 * e)) by nia.
    nia.
Qed.

Lemma binary64_1 : binary64 1 = 1%Q.
Proof. vm_compute. reflexivity. Qed.

Lemma binary64_le_1 (x : Q) : (0 <= x)%Q -> (x <= 1)%Q -> (binary64 x <= 1)%Q.
Proof.
  intros H0 H1. apply (Qle_trans _ (binary64 1)).
  - apply binary64_mono; [exact H0 | exact H1 | apply Qle_refl].
  - rewrite binary64_1. apply Qle_refl.
Qed.

Lemma binary64_eq_1 (x : Q) : (x == 1)%Q -> (binary64 x == 1)%Q.
Proof.
  intros H. apply Qle_antisym.
  - apply binary64_le_1; rewrite H; [discriminate | apply Qle_refl].
  - apply (Qle_trans _ (binary64 1)).
    + rewrite binary64_1. apply Qle_refl.
    + apply binary64_mono; [discriminate | | ]; rewrite H; apply Qle_refl.
Qed.

(** Below 1, a quotient with a divisor of at most 2^53 is rounded to a
    number below 1. *)
Lemma binary64_lt_1 (a : Z) (d : positive) :
  0 <= a < Z.pos d -> Z.pos d <= 2 ^ 53 -> (binary64 (a # d) < 1)%Q.
Proof.
  intros Ha Hd.
  apply (Qle_lt_trans _ (binary64 ((2 ^ 53 - 1) # Z.to_pos (2 ^ 53)))).
  - apply binary64_mono.
    + unfold Qle. cbn [Qnum Qden]. lia.
    + unfold Qle. cbn [Qnum Qden]. rewrite pos_pow2 by lia. nia.
    + vm_compute. discriminate.
  - vm_compute. reflexivity.
Qed.

(** The rounding error between 0 and 1 is at most 2^-54. *)
Lemma binary64_error (x : Q) :
  (0 <= x)%Q -> (x <= 1)%Q ->
  (x - (1 # Z.to_pos (2 ^ 54)) <= binary64 x)%Q
  /\ (binary64 x <= x + (1 # Z.to_pos (2 ^ 54)))%Q.
Proof.
  intros Hx Hy. destruct x as [a d].
  destruct (Z.eq_dec a 0) as [-> | Hne].
  { rewrite binary64_0 by reflexivity. split; unfold Qle; cbn; lia. }
  unfold Qle in Hx, Hy. cbn [Qnum Qden] in Hx, Hy.
  destruct (Z.eq_dec a (Z.pos d)) as [He | Hlt].
  { assert (H1 : (a # d == 1)%Q) by (unfold Qeq; cbn [Qnum Qden]; lia).
    rewrite (binary64_eq_1 _ H1), H1. split; unfold Qle; cbn; lia. }
  destruct (binary64_unit a d ltac:(lia)) as [k [Hk [[Hlo Hhi] ->]]].
  rewrite !Qred_correct.
  destruct (round_half_even_spec (a * 2 ^ k) (Z.pos d) ltac:(lia)) as [[Hl Hu] _].
  set (m := round_half_even (a * 2 ^ k) (Z.pos d)) in *.
  assert (Hk' : 53 <= k).
  { destruct (Z.eq_dec k 52) as [-> | Hn]; [| lia]. exfalso. nia. }
  pose proof (pow2_split k 53 ltac:(lia)) as Hs.
  pose proof (pow2_pos (k - 53) ltac:(lia)) as He.
  unfold Qle, Qminus, Qplus, Qopp. cbn [Qnum Qden].
  rewrite !Pos2Z.inj_mul, !pos_pow2 by lia.
  change (2 ^ 54) with (2 * 2 ^ 53). rewrite Hs.
  set (b := Z.pos d) in *. set (T := 2 ^ 53) in *. set (e := 2 ^ (k - 53)) in *.
  assert (HT : 0 < T) by (subst T; apply pow2_pos; lia).
  rewrite Hs in Hl, Hu.
  split; nia.
Qed.

Lemma Qdiv_inject_Z (a : Z) (p : positive) :
  (inject_Z a / inject_Z (Z.pos p))%Q = (a # p).
Proof. unfold Qdiv, Qmult, Qinv, inject_Z. cbn [Qnum Qden]. rewrite Z.mul_1_r. reflexivity. Qed.

Lemma binary64_div_0 (b : Z) : binary64 (inject_Z 0 / inject_Z b) = 0%Q.
Proof. apply binary64_0. reflexivity. Qed.

Lemma binary64_div_lt_1 (a b : Z) :
  0 <= a < b -> b <= 2 ^ 53 -> (binary64 (inject_Z a / inject_Z b) < 1)%Q.
Proof.
  intros Ha Hb. destruct b as [| p | p]; try lia.
  rewrite Qdiv_inject_Z. apply binary64_lt_1; assumption.
Qed.

Lemma binary64_div_1 (b : Z) : 0 < b -> (binary64 (inject_Z b / inject_Z b) == 1)%Q.
Proof.
  intros Hb. apply binary64_eq_1. destruct b as [| p | p]; try lia.
  rewrite Qdiv_inject_Z. unfold Qeq. cbn [Qnum Qden]. lia.
Qed.

(** ** The mix value of a paired transaction and the unmix level *)

Lemma nodup_pair (a b : Z) : a <> b -> nodup Z.eq_dec [a; b] = [a; b].
Proof.
  intros H. apply nodup_fixed_point. constructor.
  - intros [Hab | []]. congruence.
  - constructor; [intros [] | constructor].
Qed.

(** Intersecting the taker's outputs with the outputs of the groups found
    by the main loop leaves the mix value alone, unless every one of these
    groups has the taker's change value as its own. *)
Lemma value_mixed_fold (v : Z) (cv : list Z) (makers : list (list Z * list Z)) :
  ~ In v cv ->
  Forall (maker_group v cv) makers ->
  forall values,
    values = [v] \/ (exists c, c <> v /\ values = [v; c]) ->
    let r := fold_left
               (fun values pair =>
                  JoinMarketTx.set_inter values (nodup Z.eq_dec (snd pair)))
               makers values in
    r = [v]
    \/ exists c, c <> v /\ values = [v; c] /\ Forall (fun p => snd p = [v; c]) makers.
Proof.
  intros Hnin. induction 1 as [| p ps Hp _ IH]; intros values Hvalues; cbn zeta.
  - destruct Hvalues as [-> | [c [Hc ->]]]; [left; reflexivity |].
    right. exists c. repeat split; [exact Hc | constructor].
  - cbn [fold_left]. destruct Hp as [cp [Hs [Hin _]]].
    assert (Hcp : v <> cp) by (intros ->; exact (Hnin Hin)).
    rewrite Hs, (nodup_pair v cp Hcp).
    destruct Hvalues as [-> | [c [Hc ->]]].
    + unfold JoinMarketTx.set_inter. cbn [filter existsb]. rewrite Z.eqb_refl.
      cbn [orb]. destruct (IH [v] (or_introl eq_refl)) as [H | [c [_ [[=] _]]]].
      left. exact H.
    + unfold JoinMarketTx.set_inter. cbn [filter existsb]. rewrite Z.eqb_refl.
      cbn [orb]. apply Z.eqb_neq in Hc as Hc'. rewrite Hc'. cbn [orb].
      destruct (c =? cp) eqn:E; cbn [orb].
      * apply Z.eqb_eq in E. subst cp.
        destruct (IH [v; c] (or_intror (ex_intro _ c (conj Hc eq_refl))))
          as [H | [c' [Hc'' [[= <-] Hall]]]]; [left; exact H |].
        right. exists c. repeat split; [exact Hc |]. constructor; assumption.
      * destruct (IH [v] (or_introl eq_refl)) as [H | [c' [_ [[=] _]]]].
        left. exact H.
Qed.

Lemma count_occ_same_change (v c : Z) (makers : list (list Z * list Z)) :
  c <> v -> Forall (fun p => snd p = [v; c]) makers ->
  count_occ Z.eq_dec (concat (map snd makers)) c = length makers.
Proof.
  intros Hc. induction 1 as [| p ps Hp _ IH]; [reflexivity |].
  cbn [map concat length]. rewrite Hp, count_occ_app, IH. cbn [count_occ].
  destruct (Z.eq_dec v c); [congruence |]. destruct (Z.eq_dec c c); [lia | congruence].
Qed.

Lemma filter_value_length (v : Z) (l : list Vout) :
  length (filter (fun vout => value vout =? v) l) = count_occ Z.eq_dec (map value l) v.
Proof.
  induction l as [| x l IH]; [reflexivity |]. cbn [filter map count_occ].
  destruct (Z.eq_dec (value x) v) as [E | E].
  - rewrite (proj2 (Z.eqb_eq _ _) E). cbn [length]. rewrite IH. reflexivity.
  - rewrite (proj2 (Z.eqb_neq _ _) E). exact IH.
Qed.

Lemma filter_filter_andb {A : Type} (f g : A -> bool) (l : list A) :
  filter g (filter f l) = filter (fun x => f x && g x) l.
Proof.
  induction l as [| x l IH]; [reflexivity |]. cbn [filter].
  destruct (f x); cbn [filter andb]; rewrite IH; reflexivity.
Qed.

Lemma filter_length_le {A : Type} (f : A -> bool) (l : list A) :
  (length (filter f l) <= length l)%nat.
Proof.
  induction l as [| x l IH]; [constructor |]. cbn [filter].
  destruct (f x); cbn [length]; lia.
Qed.

Lemma Qdiv_unit_interval (a b : Z) :
  0 <= a <= b -> 0 < b -> (0 <= inject_Z a / inject_Z b <= 1)%Q.
Proof.
  intros Ha Hb. destruct b as [| p | p]; try lia.
  unfold Qle, Qdiv, Qmult, Qinv, inject_Z. simpl. split; nia.
Qed.

(** For a transaction that [to_joinmarket_tx] accepts, the classifier's
    mix value is the one value common to all groups, and the number of
    groups is the number of mix-value outputs. *)
Lemma to_joinmarket_tx_value_mixed (t : Tx) (jm : JoinMarketTx.t) :
  to_joinmarket_tx t = Ok jm ->
  exists v count,
    get_value_mixed t = Ok (Some (v, count))
    /\ JoinMarketTx.tx jm = t
    /\ JoinMarketTx.value_mixed jm = Ok v
    /\ JoinMarketTx.num_parties jm = count
    /\ count = count_occ Z.eq_dec (vout_values t) v
    /\ (2 < count)%nat.
Proof.
  unfold to_joinmarket_tx. intros H. bind_inv H. destruct a as [is_ok desc].
  destruct is_ok; cbn [negb] in H; [| discriminate].
  bind_inv H. rename a into pairs, Ha0 into Hpairs. injection H as <-.
  apply pair_up_inout_values_Ok in Hpairs.
  destruct Hpairs as [vm' [Hpairs [r [Hr ->]]]].
  apply _pair_up_inout_values_shape in Hpairs.
  destruct Hpairs as [[_ [Hout _]] | Hshape].
  { rewrite Hout in Hr. discriminate Hr. }
  destruct Hshape as [v [ti [tc [mk [cv [Hv [-> [Hne [Hm [Hnin [Htc [Hlen [_ [HPo [HPk _]]]]]]]]]]]]]]].
  destruct r as [[v' count] |]; [| discriminate]. injection Hv as ->.
  exists v, count. unfold get_value_mixed. split; [exact Hr |]. split; [reflexivity |].
  apply get_value_mixed_from_values_Some in Hr. destruct Hr as [Hcount [Hgt Hother]].
  destruct (split_count _ _ _ _ HPk Hnin) as [Hk _].
  assert (Hcnt : count = S (length mk)) by congruence.
  split; [| split; [cbn; congruence | split; assumption]].
  unfold JoinMarketTx.value_mixed. cbn [JoinMarketTx.pairs snd].
  assert (Hstart : nodup Z.eq_dec (v :: tc) = [v]
                   \/ exists c, c <> v /\ nodup Z.eq_dec (v :: tc) = [v; c]).
  { destruct tc as [| c [| c' tc]]; [left; reflexivity | | cbn [length] in Hlen; lia].
    assert (Hc : c <> v) by (intros ->; apply Hnin, Htc; left; reflexivity).
    right. exists c. split; [exact Hc |]. apply nodup_pair. congruence. }
  destruct (value_mixed_fold v cv mk Hnin Hm _ Hstart) as [-> | [c [Hc [Hvals Hall]]]];
    [reflexivity |].
  exfalso. specialize (Hother c Hc).
  assert (Htc' : tc = [c]).
  { destruct tc as [| c0 [| c' tc]]; [discriminate Hvals | | cbn [length] in Hlen; lia].
    rewrite nodup_pair in Hvals; [congruence |].
    intros ->. apply Hnin, Htc. left. reflexivity. }
  subst tc.
  rewrite (proj1 (Permutation_count_occ Z.eq_dec _ _) HPo c) in Hother.
  rewrite count_occ_app, (count_occ_same_change v c mk Hc Hall) in Hother.
  cbn [count_occ] in Hother. destruct (Z.eq_dec v c); [congruence |].
  destruct (Z.eq_dec c c); [lia | congruence].
Qed.

Lemma mixed_vouts_Ok (self : JoinMarketTx.t) (v : Z) :
  JoinMarketTx.value_mixed self = Ok v ->
  JoinMarketTx.mixed_vouts self
  = Ok (filter (fun vout => value vout =? v) (vout (JoinMarketTx.tx self))).
Proof.
  intros H. unfold JoinMarketTx.mixed_vouts. rewrite H.
  destruct (vout (JoinMarketTx.tx self)); reflexivity.
Qed.

Lemma mixed_vouts_In (self : JoinMarketTx.t) (l : list Vout) (w : Vout) :
  JoinMarketTx.mixed_vouts self = Ok l -> In w l -> In w (vout (JoinMarketTx.tx self)).
Proof.
  unfold JoinMarketTx.mixed_vouts. destruct (vout (JoinMarketTx.tx self)) as [| w0 ws].
  - intros [= <-] [].
  - intros H Hw. bind_inv H. apply (f_equal (fun r => match r with Ok x => x | Raise _ => [] end)) in H.
    subst l. apply (proj1 (filter_In _ _ _)) in Hw. apply Hw.
Qed.

Lemma possible_taker_mixed_vouts_Ok (self : UnmixedJoinMarketTx.t) (v : Z) :
  JoinMarketTx.value_mixed (UnmixedJoinMarketTx.jmtx self) = Ok v ->
  UnmixedJoinMarketTx.possible_taker_mixed_vouts self
  = Ok (filter (UnmixedJoinMarketTx.no_maker_address self)
          (filter (fun vout => value vout =? v)
             (vout (JoinMarketTx.tx (UnmixedJoinMarketTx.jmtx self))))).
Proof.
  intros H. unfold UnmixedJoinMarketTx.possible_taker_mixed_vouts.
  rewrite (mixed_vouts_Ok _ v H). reflexivity.
Qed.

Lemma possible_taker_mixed_vouts_In (self : UnmixedJoinMarketTx.t)
    (l : list Vout) (w : Vout) :
  UnmixedJoinMarketTx.possible_taker_mixed_vouts self = Ok l -> In w l ->
  In w (vout (JoinMarketTx.tx (UnmixedJoinMarketTx.jmtx self)))
  /\ UnmixedJoinMarketTx.no_maker_address self w = true.
Proof.
  unfold UnmixedJoinMarketTx.possible_taker_mixed_vouts. intros H Hw.
  bind_inv H. injection H as <-. apply filter_In in Hw. destruct Hw as [Hw Hno].
  split; [exact (mixed_vouts_In _ _ _ Ha Hw) | exact Hno].
Qed.

(** The unmix level of an accepted transaction, from the number [U] of its
    possible taker outputs and its number [P] of parties. *)
Lemma unmix_level_value (t : Tx) (jm : JoinMarketTx.t) (maker_addresses : list string) :
  to_joinmarket_tx t = Ok jm ->
  exists v,
    let self := UnmixedJoinMarketTx.mk jm maker_addresses in
    let P := Z.of_nat (JoinMarketTx.num_parties jm) in
    let U := Z.of_nat (length (filter (UnmixedJoinMarketTx.no_maker_address self)
                                 (filter (fun vout => value vout =? v) (vout t)))) in
    get_value_mixed t = Ok (Some (v, JoinMarketTx.num_parties jm))
    /\ JoinMarketTx.tx jm = t
    /\ JoinMarketTx.value_mixed jm = Ok v
    /\ P = Z.of_nat (length (filter (fun vout => value vout =? v) (vout t)))
    /\ 2 < P
    /\ UnmixedJoinMarketTx.unmix_level self
       = if U =? 0 then Ok None
         else Ok (Some (binary64 (inject_Z (P - U) / inject_Z (P - 1)))).
Proof.
  intros H. apply to_joinmarket_tx_value_mixed in H.
  destruct H as [v [count [Hg [Htx [Hvm [Hnum [Hcount Hgt]]]]]]].
  exists v. cbn zeta. rewrite Hnum. split; [exact Hg |]. split; [exact Htx |].
  split; [exact Hvm |].
  rewrite filter_value_length. fold (vout_values t). rewrite <- Hcount.
  split; [reflexivity |]. split; [lia |].
  unfold UnmixedJoinMarketTx.unmix_level.
  rewrite (possible_taker_mixed_vouts_Ok (UnmixedJoinMarketTx.mk jm maker_addresses) v Hvm).
  cbn [UnmixedJoinMarketTx.jmtx]. rewrite Htx, Hnum. cbn [bind].
  destruct (_ =? 0); [reflexivity |].
  destruct (Z.of_nat count - 1 =? 0) eqn:Ec; [apply Z.eqb_eq in Ec; lia | reflexivity].
Qed.

(** With four parties and one maker output known, three outputs are left
    as possible taker outputs: the level is Python's float [1/3], the
    binary64 number nearest to the quotient (4 - 3) / (4 - 1) and not that
    quotient itself. *)
Example four_party_unmix_level :
  let jm := JoinMarketTx.mk four_party_tx four_party_pairs in
  let self := UnmixedJoinMarketTx.mk jm ["1MixOutputOfMakerOnexxxxxxxxxxxxxx"%string] in
  to_joinmarket_tx four_party_tx = Ok jm
  /\ Z.of_nat (JoinMarketTx.num_parties jm) = 4
  /\ UnmixedJoinMarketTx.possible_taker_mixed_vouts self
     = Ok [ mkVout 100000000 ["1MixOutputOfMakerTwoxxxxxxxxxxxxxx"%string];
            mkVout 100000000 ["1MixOutputOfMakerThreexxxxxxxxxxxx"%string];
            mkVout 100000000 ["1MixOutputOfTheTakerxxxxxxxxxxxxxx"%string] ]
  /\ UnmixedJoinMarketTx.unmix_level self
     = Ok (Some (6004799503160661 # 18014398509481984))
  /\ ~ (6004799503160661 # 18014398509481984 == inject_Z (4 - 3) / inject_Z (4 - 1))%Q.
Proof.
  cbn zeta. split; [vm_compute; reflexivity |]. split; [reflexivity |].
  split; [vm_compute; reflexivity |]. split; [vm_compute; reflexivity |].
  vm_compute. discriminate.
Qed.

(** C3. Take a transaction that [to_joinmarket_tx] accepts, marked with
    any set of maker addresses; let P be its number of parties, which is
    the number of its mix-value outputs, and U the number of its outputs
    that carry the mix value and none of whose addresses is in the set of
    maker addresses.  Then [unmix_level] returns [None] exactly when U = 0,
    so [None] is never replaced by 0.  When U is not 0 it returns
    (P - U) / (P - 1) as Python computes it: the float nearest to that
    quotient, which differs from it by 2^-54 at most, is 0 when U = P and 1
    when U = 1; the quotient and the float both lie between 0 and 1
    inclusive. *)
Theorem unmix_level_spec (t : Tx) (jm : JoinMarketTx.t) (maker_addresses : list string) :
  to_joinmarket_tx t = Ok jm ->
  let self := UnmixedJoinMarketTx.mk jm maker_addresses in
  exists v count,
    get_value_mixed t = Ok (Some (v, count))
    /\ JoinMarketTx.num_parties jm = count
    /\ let P := Z.of_nat (JoinMarketTx.num_parties jm) in
       let U := Z.of_nat (length (filter
                    (fun vout =>
                       (value vout =? v)
                       && negb (existsb
                                  (fun a => existsb (String.eqb a) maker_addresses)
                                  (addresses vout)))
                    (vout t))) in
       let quotient := (inject_Z (P - U) / inject_Z (P - 1))%Q in
       (UnmixedJoinMarketTx.unmix_level self = Ok None <-> U = 0)
       /\ (U <> 0 ->
           exists level,
             UnmixedJoinMarketTx.unmix_level self = Ok (Some level)
             /\ level = binary64 quotient
             /\ (quotient - (1 # Z.to_pos (2 ^ 54)) <= level)%Q
             /\ (level <= quotient + (1 # Z.to_pos (2 ^ 54)))%Q
             /\ (0 <= quotient <= 1)%Q
             /\ (0 <= level <= 1)%Q
             /\ (U = P -> (level == 0)%Q)
             /\ (U = 1 -> (level == 1)%Q)).
Proof.
  intros H self.
  destruct (unmix_level_value t jm maker_addresses H) as [v [Hg [Htx [Hvm [HP [Hgt Hl]]]]]].
  exists v, (JoinMarketTx.num_parties jm). split; [exact Hg |].
  split; [reflexivity |]. cbn zeta in *.
  fold self in Hl. rewrite filter_filter_andb in Hl.
  change (fun x : Vout =>
            (value x =? v) && UnmixedJoinMarketTx.no_maker_address self x)
    with (fun vout : Vout =>
            (value vout =? v)
            && negb (existsb (fun a => existsb (String.eqb a) maker_addresses)
                       (addresses vout))) in Hl.
  set (P := Z.of_nat (JoinMarketTx.num_parties jm)) in *.
  set (U := Z.of_nat (length (filter
              (fun vout =>
                 (value vout =? v)
                 && negb (existsb (fun a => existsb (String.eqb a) maker_addresses)
                            (addresses vout))) (vout t)))) in *.
  assert (HU : 0 <= U <= P).
  { subst U. rewrite HP, <- filter_filter_andb. split; [lia |].
    apply inj_le, filter_length_le. }
  rewrite Hl. destruct (U =? 0) eqn:E.
  - apply Z.eqb_eq in E. split; [tauto | intros Hne; contradiction].
  - apply Z.eqb_neq in E. split; [split; [discriminate | intros; contradiction] |].
    intros _.
    assert (Hq : (0 <= inject_Z (P - U) / inject_Z (P - 1) <= 1)%Q)
      by (apply Qdiv_unit_interval; lia).
    destruct (binary64_error _ (proj1 Hq) (proj2 Hq)) as [Hlo Hhi].
    eexists. split; [reflexivity |]. split; [reflexivity |].
    split; [exact Hlo |]. split; [exact Hhi |]. split; [exact Hq |].
    split; [split; [apply binary64_nonneg | apply binary64_le_1]; apply Hq |].
    split.
    + intros ->. rewrite Z.sub_diag, binary64_div_0. reflexivity.
    + intros ->. apply binary64_div_1. lia.
Qed.

Lemma unmix_level_spec_witness :
  let jm := JoinMarketTx.mk example_tx example_pairs in
  let maker_addresses := ["1MixOutputOfMakerOnexxxxxxxxxxxxxx"%string] in
  let self := UnmixedJoinMarketTx.mk jm maker_addresses in
  exists v count,
    get_value_mixed example_tx = Ok (Some (v, count))
    /\ JoinMarketTx.num_parties jm = count
    /\ let P := Z.of_nat (JoinMarketTx.num_parties jm) in
       let U := Z.of_nat (length (filter
                    (fun vout =>
                       (value vout =? v)
                       && negb (existsb
                                  (fun a => existsb (String.eqb a) maker_addresses)
                                  (addresses vout)))
                    (vout example_tx))) in
       let quotient := (inject_Z (P - U) / inject_Z (P - 1))%Q in
       (UnmixedJoinMarketTx.unmix_level self = Ok None <-> U = 0)
       /\ (U <> 0 ->
           exists level,
             UnmixedJoinMarketTx.unmix_level self = Ok (Some level)
             /\ level = binary64 quotient
             /\ (quotient - (1 # Z.to_pos (2 ^ 54)) <= level)%Q
             /\ (level <= quotient + (1 # Z.to_pos (2 ^ 54)))%Q
             /\ (0 <= quotient <= 1)%Q
             /\ (0 <= level <= 1)%Q
             /\ (U = P -> (level == 0)%Q)
             /\ (U = 1 -> (level == 1)%Q)).
Proof.
  apply (unmix_level_spec example_tx (JoinMarketTx.mk example_tx example_pairs)
           ["1MixOutputOfMakerOnexxxxxxxxxxxxxx"%string]).
  vm_compute. reflexivity.
Defined.

Example example_tx_unmix_level :
  UnmixedJoinMarketTx.unmix_level
    (UnmixedJoinMarketTx.mk (JoinMarketTx.mk example_tx example_pairs)
       ["1MixOutputOfMakerOnexxxxxxxxxxxxxx"%string])
  = Ok (Some (1 # 2)).
Proof. vm_compute. reflexivity. Qed.

Example example_tx_maker_addresses :
  extract_maker_addresses_from_tx (JoinMarketTx.mk example_tx example_pairs)
  = Ok ["1MakerOneFundingAddressxxxxxxxxxxx"%string;
        "1MakerTwoFundingAddressxxxxxxxxxxx"%string].
Proof. vm_compute. reflexivity. Qed.

(** * Further properties of the code *)

(** ** The search: which change value, and when it gives up *)

Lemma btc_le (a b : Z) : (btc a <= btc b)%Q <-> a <= b.
Proof. unfold btc, Qle. simpl. lia. Qed.

Lemma scan_change_Ok (v sum_bucket_input : Z) (rest : list Z) (cidx : Z) (md : Q)
    (mi : Z) (md' : Q) (mi' : Z) :
  scan_change (Some v) sum_bucket_input cidx rest md mi = Ok (md', mi') ->
  (md' = md /\ mi' = mi)
  \/ (cidx <= mi' < cidx + Z.of_nat (length rest)
      /\ exists c,
          nth_error rest (Z.to_nat (mi' - cidx)) = Some c
          /\ md' = btc (c + v - sum_bucket_input)
          /\ (MIN_JM_FEE < md')%Q /\ (md' < md)%Q).
Proof.
  intros H.
  destruct (scan_change_spec v sum_bucket_input rest cidx md mi) as [md0 [mi0 [H0 Hc]]].
  rewrite H in H0. injection H0 as <- <-. exact Hc.
Qed.

Lemma scan_change_minimal (v sbi : Z) :
  forall rest cidx md mi md' mi',
    scan_change (Some v) sbi cidx rest md mi = Ok (md', mi') ->
    (md' <= md)%Q
    /\ (forall j c',
          nth_error rest j = Some c' ->
          (MIN_JM_FEE < btc (c' + v - sbi))%Q ->
          (md' <= btc (c' + v - sbi))%Q)
    /\ ((md' < md)%Q ->
        forall j c',
          Z.of_nat j < mi' - cidx ->
          nth_error rest j = Some c' ->
          (MIN_JM_FEE < btc (c' + v - sbi))%Q ->
          (md' < btc (c' + v - sbi))%Q).
Proof.
  induction rest as [| c0 rest IH]; intros cidx md mi md' mi' H.
  - cbn in H. injection H as <- <-. split; [apply Qle_refl |].
    split; [intros [| j] c' Hn; discriminate Hn |].
    intros Hlt. exfalso. exact (Qlt_irrefl _ Hlt).
  - cbn [scan_change] in H.
    destruct (Qltb MIN_JM_FEE (btc (c0 + v - sbi)) && Qltb (btc (c0 + v - sbi)) md) eqn:E.
    + apply andb_true_iff in E. destruct E as [E1 E2].
      apply Qltb_lt in E1. apply Qltb_lt in E2.
      destruct (IH _ _ _ _ _ H) as [Ha [Hb Hc]].
      split; [exact (Qle_trans _ _ _ Ha (Qlt_le_weak _ _ E2)) |].
      split.
      * intros [| j] c' Hn Hq; cbn in Hn; [injection Hn as <-; exact Ha | eauto].
      * intros _ j c' Hj Hn Hq.
        apply scan_change_Ok in H.
        destruct H as [[_ ->] | [_ [_ [_ [_ [_ Hlt]]]]]]; [lia |].
        destruct j as [| j]; cbn in Hn.
        -- injection Hn as <-. exact Hlt.
        -- apply (Hc Hlt j c'); [lia | exact Hn | exact Hq].
    + destruct (IH _ _ _ _ _ H) as [Ha [Hb Hc]].
      assert (Hhead : (MIN_JM_FEE < btc (c0 + v - sbi))%Q -> (md <= btc (c0 + v - sbi))%Q).
      { intros Hq. apply Qltb_lt in Hq. rewrite Hq in E. cbn [andb] in E.
        apply Qltb_ge. exact E. }
      split; [exact Ha |]. split.
      * intros [| j] c' Hn Hq; cbn in Hn; [| eauto].
        injection Hn as <-. exact (Qle_trans _ _ _ Ha (Hhead Hq)).
      * intros Hlt [| j] c' Hj Hn Hq; cbn in Hn.
        -- injection Hn as <-. exact (Qlt_le_trans _ _ _ Hlt (Hhead Hq)).
        -- apply (Hc Hlt j c'); [lia | exact Hn | exact Hq].
Qed.

(** The scan of [change_values] for one bucket, started as the source
    starts it: a change index is returned exactly for the best change
    value, and none is returned only if no change value has its excess
    between the floor and the tolerance. *)
Lemma scan_change_best (v : Z) (bucket change_values : list Z) (d md' : Q) (mi' : Z) :
  scan_change (Some v) (sum bucket) 0 change_values d (-1) = Ok (md', mi') ->
  (0 <= mi' /\ exists c, best_change v change_values bucket d (Z.to_nat mi') c)
  \/ (mi' = -1
      /\ forall c, In c change_values ->
           ~ ((MIN_JM_FEE < btc (c + v - sum bucket))%Q /\ (btc (c + v - sum bucket) < d)%Q)).
Proof.
  intros H. destruct (scan_change_minimal _ _ _ _ _ _ _ _ H) as [Ha [Hb Hc]].
  apply scan_change_Ok in H.
  destruct H as [[-> ->] | [Hr [c [Hn [-> [Hlo Hhi]]]]]].
  - right. split; [reflexivity |]. intros c Hin [Hq Hlt].
    apply In_nth_error in Hin. destruct Hin as [j Hj].
    exact (Qlt_not_le _ _ Hlt (Hb j c Hj Hq)).
  - left. split; [lia |]. exists c. rewrite Z.sub_0_r in Hn.
    split; [exact Hn |]. split; [exact Hlo |]. split; [exact Hhi |].
    intros j c' Hj Hq. split.
    + specialize (Hb j c' Hj Hq). apply (proj1 (btc_le _ _)) in Hb. lia.
    + intros ->. destruct (le_lt_dec (Z.to_nat mi') j) as [Hle | Hgt]; [exact Hle |].
      exfalso. apply (Qlt_irrefl (btc (c + v - sum bucket))).
      apply (Hc Hhi j c); [lia | exact Hj | exact Hq].
Qed.

Lemma scan_buckets_found (v : Z) (in_values change_values : list Z) (d : Q)
    (buckets : list (list nat)) (found : list nat * nat) :
  scan_buckets (Some v) in_values change_values d buckets = Ok (Some found) ->
  In (fst found) buckets
  /\ exists bucket c,
      getitems in_values (fst found) = Ok bucket
      /\ best_change v change_values bucket d (snd found) c.
Proof.
  induction buckets as [| iidxs rest IH]; cbn [scan_buckets]; intros H; [discriminate |].
  bind_inv H. rename a into bucket, Ha into Hg. bind_inv H. destruct a as [md' mi'].
  cbn [snd] in H. apply scan_change_best in Ha.
  destruct (0 <=? mi') eqn:E.
  - injection H as <-. cbn [fst snd]. split; [left; reflexivity |].
    apply Z.leb_le in E. destruct Ha as [[_ [c Hc]] | [-> _]]; [| lia].
    exists bucket, c. split; assumption.
  - destruct (IH H) as [Hin Hrest]. split; [right; exact Hin | exact Hrest].
Qed.

Lemma scan_buckets_none (v : Z) (in_values change_values : list Z) (d : Q)
    (buckets : list (list nat)) :
  scan_buckets (Some v) in_values change_values d buckets = Ok None ->
  forall iidxs bucket c,
    In iidxs buckets -> getitems in_values iidxs = Ok bucket -> In c change_values ->
    ~ ((MIN_JM_FEE < btc (c + v - sum bucket))%Q /\ (btc (c + v - sum bucket) < d)%Q).
Proof.
  induction buckets as [| iidxs0 rest IH]; cbn [scan_buckets]; intros H iidxs bucket c Hin Hg Hc;
    [contradiction |].
  bind_inv H. rename a into bucket0, Ha into Hg0. bind_inv H. destruct a as [md' mi'].
  cbn [snd] in H. apply scan_change_best in Ha.
  destruct (0 <=? mi') eqn:E; [discriminate |]. apply Z.leb_gt in E.
  destruct Hin as [-> | Hin].
  - rewrite Hg in Hg0. injection Hg0 as <-.
    destruct Ha as [[Hge _] | [_ Hnone]]; [lia | exact (Hnone c Hc)].
  - exact (IH H iidxs bucket c Hin Hg Hc).
Qed.

Lemma find_new_pair_found (v : Z) (in_values change_values : list Z)
    (candidates : list (nat * Q)) (found : list nat * nat) :
  find_new_pair (Some v) in_values change_values candidates = Ok (Some found) ->
  exists bucket c, found_by v in_values change_values candidates found bucket c.
Proof.
  induction candidates as [| [bucket_size d] rest IH]; cbn [find_new_pair]; intros H;
    [discriminate |].
  bind_inv H. rewrite range_0_length in Ha. destruct a as [found' |].
  - injection H as <-. apply scan_buckets_found in Ha.
    destruct Ha as [Hin [bucket [c [Hg Hb]]]]. exists bucket, c, bucket_size, d.
    split; [left; reflexivity |]. split; [exact Hin | split; [exact Hg | exact Hb]].
  - destruct (IH H) as [bucket [c [bs [d' [Hin Hrest]]]]].
    exists bucket, c, bs, d'. split; [right; exact Hin | exact Hrest].
Qed.

Lemma find_new_pair_none (v : Z) (in_values change_values : list Z)
    (candidates : list (nat * Q)) :
  find_new_pair (Some v) in_values change_values candidates = Ok None ->
  forall bucket_size d iidxs bucket c,
    In (bucket_size, d) candidates ->
    In iidxs (combinations (seq 0 (length in_values)) bucket_size) ->
    getitems in_values iidxs = Ok bucket -> In c change_values ->
    ~ ((MIN_JM_FEE < btc (c + v - sum bucket))%Q /\ (btc (c + v - sum bucket) < d)%Q).
Proof.
  induction candidates as [| [bucket_size0 d0] rest IH]; cbn [find_new_pair];
    intros H bucket_size d iidxs bucket c Hin Hcomb Hg Hc; [contradiction |].
  bind_inv H. rewrite range_0_length in Ha. destruct a as [found' |]; [discriminate |].
  destruct Hin as [[= -> ->] | Hin].
  - exact (scan_buckets_none _ _ _ _ _ Ha iidxs bucket c Hcomb Hg Hc).
  - exact (IH H bucket_size d iidxs bucket c Hin Hcomb Hg Hc).
Qed.


(** ** The candidates are all the pairs of a bucket size and a tolerance *)

Lemma gen_bucket_size_dist_pairs_Permutation (bucket_sizes : list nat) (ds : list Q) :
  Permutation (gen_bucket_size_dist_pairs bucket_sizes ds) (list_prod bucket_sizes ds).
Proof.
  unfold gen_bucket_size_dist_pairs, gen_bucket_size_dist_pairs_by.
  rewrite (gen_index_pairs_Permutation (length bucket_sizes) (length ds)).
  rewrite indices_list_prod.
  rewrite (list_prod_map (fun i => nth i bucket_sizes O) (fun j => nth j ds 0%Q)).
  rewrite !map_nth_seq. reflexivity.
Qed.

Lemma gen_bucket_size_dist_pairs_In (bucket_sizes : list nat) (ds : list Q)
    (bucket_size : nat) (d : Q) :
  In (bucket_size, d) (gen_bucket_size_dist_pairs bucket_sizes ds)
  <-> In bucket_size bucket_sizes /\ In d ds.
Proof.
  rewrite <- in_prod_iff. split; apply Permutation_in.
  - apply gen_bucket_size_dist_pairs_Permutation.
  - symmetry. apply gen_bucket_size_dist_pairs_Permutation.
Qed.


(** ** The tolerances in satoshi *)

Lemma largest_dist_In : In largest_dist dists.
Proof.
  unfold dists. apply filter_In. split; [| reflexivity].
  apply in_map_iff. exists 14%nat. split; [reflexivity |]. apply in_seq. lia.
Qed.

Lemma dists_le_largest (d : Q) : In d dists -> (d <= largest_dist)%Q.
Proof.
  intros H.
  assert (Hall : forallb (fun d => Qle_bool d largest_dist) dists = true)
    by (vm_compute; reflexivity).
  apply Qle_bool_iff. exact (proj1 (forallb_forall _ _) Hall d H).
Qed.

Lemma btc_lt_largest_dist (x : Z) : (btc x < largest_dist)%Q <-> x < 1638400.
Proof. unfold largest_dist, MIN_JM_FEE, btc, Qlt. simpl. lia. Qed.

(** ** The groups of the main loop, one property at a time *)

Lemma take_inputs_Ok (c : list nat) (l bucket cur_inputs l' : list Z) (n : nat) :
  In c (combinations (seq 0 (length l)) n) ->
  getitems l c = Ok bucket ->
  take_inputs (rev c) l [] = Ok (cur_inputs, l') ->
  cur_inputs = rev bucket.
Proof.
  intros Hc Hg Ht. apply combinations_increasing in Hc.
  destruct (take_inputs_spec c 0%nat l [] Hc) as [vals [l0 [Hg' [Ht' _]]]].
  rewrite Hg in Hg'. injection Hg' as <-. rewrite Ht in Ht'. injection Ht' as -> _.
  reflexivity.
Qed.

(** Whatever holds of every pair of a bucket and a change value that the
    search can find holds of every group that the main loop appends. *)
Lemma pairing_loop_Forall (P : list Z * list Z -> Prop) (v : Z) (bucket_sizes : list nat) :
  (forall in_values change_values found bucket c,
      found_by v in_values change_values
        (gen_bucket_size_dist_pairs bucket_sizes dists) found bucket c ->
      P (rev bucket, [v; c])) ->
  forall n in_values change_values pairs st,
    pairing_loop (Some v) bucket_sizes n in_values change_values (repeat v n) pairs = Ok st ->
    exists makers, s_pairs st = pairs ++ makers /\ Forall P makers.
Proof.
  intros HP. induction n as [| n IH]; intros in_values change_values pairs st H.
  - cbn in H. injection H as <-. exists []. cbn. rewrite app_nil_r. split; constructor.
  - destruct n as [| n].
    + cbn in H. injection H as <-. exists []. cbn. rewrite app_nil_r. split; constructor.
    + cbn [pairing_loop] in H. bind_inv H. destruct a as [[iidxs cidx] |].
      * apply find_new_pair_found in Ha. destruct Ha as [bucket [c Hf]].
        bind_inv H. destruct a as [cur_inputs in_values'].
        rewrite (repeat_snoc v (S n)), pop_app in H. cbn [bind] in H.
        bind_inv H. rename a into c', Ha0 into Hc'.
        pose proof Hf as [bs [d [_ [Hcomb [Hg [Hn _]]]]]]. cbn [fst snd] in *.
        apply getitem_Ok in Hc'. rewrite Hn in Hc'. injection Hc' as <-.
        rewrite (take_inputs_Ok _ _ _ _ _ _ Hcomb Hg Ha) in H.
        apply IH in H. destruct H as [makers [Hs Hm]].
        exists ((rev bucket, [v; c]) :: makers). split.
        -- rewrite Hs, <- app_assoc. reflexivity.
        -- constructor; [exact (HP _ _ _ _ _ Hf) | exact Hm].
      * injection H as <-. exists []. cbn. rewrite app_nil_r. split; constructor.
Qed.

(** What [_pair_up_inout_values] did when it returned a pairing. *)
Lemma _pair_up_inout_values_inv (in_values out_values : list Z) (value_mixed : option Z)
    (pairs : list (list Z * list Z)) :
  _pair_up_inout_values in_values out_values value_mixed = Ok pairs ->
  exists c' m' st,
    split_mix_values (S (length out_values)) value_mixed out_values [] = (c', m')
    /\ 0 <= sum in_values - sum out_values
    /\ pairing_loop value_mixed
         (range 1 (Z.of_nat (length in_values) - Z.of_nat (length m') + 2))
         (length m') in_values (sorted c') m' [] = Ok st
    /\ ((s_num_pairs_left st = 1%nat
         /\ Z.of_nat (length m') - 1 <> 0
         /\ (MIN_JM_FEE
             < btc (sum (s_in_values st)
                    - (sum (s_change_values st) + sum (s_mix_values st))
                    - (sum in_values - sum out_values))
               / inject_Z (Z.of_nat (length m') - 1))%Q
         /\ (btc (sum (s_in_values st)
                  - (sum (s_change_values st) + sum (s_mix_values st))
                  - (sum in_values - sum out_values))
             / inject_Z (Z.of_nat (length m') - 1) < MAX_JM_FEE)%Q
         /\ pairs = (s_in_values st, s_mix_values st ++ s_change_values st) :: s_pairs st)
        \/ (s_num_pairs_left st <> 1%nat /\ s_mix_values st = []
            /\ s_in_values st = [] /\ s_change_values st = [] /\ pairs = s_pairs st)).
Proof.
  unfold _pair_up_inout_values. intros H.
  destruct (split_mix_values (S (length out_values)) value_mixed out_values [])
    as [c' m'] eqn:Esplit.
  destruct (negb (0 <=? sum in_values - sum out_values)) eqn:Efee; [discriminate |].
  apply negb_false_iff, Z.leb_le in Efee.
  destruct (negb ((Z.of_nat (length m') - 1 <=? Z.of_nat (length (sorted c')))
                  && (Z.of_nat (length (sorted c')) <=? Z.of_nat (length m'))));
    [discriminate |].
  bind_inv H. rename a into st, Ha into Hloop. bind_inv H. rename a into st', Ha into Htaker.
  destruct (is_nonempty (s_mix_values st') || is_nonempty (s_in_values st')
            || is_nonempty (s_change_values st')) eqn:Eleft; [discriminate |].
  injection H as <-.
  apply orb_false_iff in Eleft. destruct Eleft as [Eleft Echg].
  apply orb_false_iff in Eleft. destruct Eleft as [Emix Ein].
  apply is_nonempty_false in Emix, Ein, Echg.
  exists c', m', st. split; [reflexivity |]. split; [exact Efee |]. split; [exact Hloop |].
  destruct (s_num_pairs_left st =? 1)%nat eqn:Enpl.
  - left. apply Nat.eqb_eq in Enpl.
    destruct (negb (length (s_mix_values st) =? s_num_pairs_left st)%nat); [discriminate |].
    bind_inv Htaker. rename a into q, Ha into Hq.
    apply decimal_div_Ok in Hq. destruct Hq as [Ek ->].
    destruct (negb _) eqn:Echeck in Htaker; [discriminate |].
    apply negb_false_iff, andb_true_iff in Echeck. destruct Echeck as [Elo Ehi].
    apply Qltb_lt in Elo, Ehi. injection Htaker as <-.
    repeat split; assumption.
  - right. apply Nat.eqb_neq in Enpl. injection Htaker as <-.
    repeat split; assumption.
Qed.


Lemma pair_up_inout_values_makers_Forall (P : list Z * list Z -> Prop)
    (in_values out_values : list Z) (value_mixed : option Z)
    (pairs : list (list Z * list Z)) :
  pair_up_inout_values in_values out_values value_mixed = Ok pairs ->
  (forall v x in_values change_values found bucket c,
      found_by v in_values change_values
        (gen_bucket_size_dist_pairs (range 1 x) dists) found bucket c ->
      P (rev bucket, [v; c])) ->
  Forall P (tl pairs).
Proof.
  intros H HP. apply pair_up_inout_values_Ok in H. destruct H as [vm' [H _]].
  apply _pair_up_inout_values_inv in H.
  destruct H as [c' [m' [st [Hsplit [_ [Hloop Hend]]]]]].
  assert (Hm : exists makers, s_pairs st = makers /\ Forall P makers).
  { destruct vm' as [v |].
    - apply split_mix_values_Some in Hsplit; [| lia].
      destruct Hsplit as [k [-> _]]. cbn [app] in Hloop. rewrite repeat_length in Hloop.
      apply (pairing_loop_Forall P) in Hloop; [exact Hloop |].
      intros inv chg found bucket c. apply HP.
    - rewrite split_mix_values_None in Hsplit. injection Hsplit as <- <-.
      cbn in Hloop. injection Hloop as <-. exists []. split; constructor. }
  destruct Hm as [makers [Hs Hm]].
  destruct Hend as [[_ [_ [_ [_ ->]]]] | [_ [_ [_ [_ ->]]]]]; rewrite Hs; cbn [tl].
  - exact Hm.
  - destruct makers; [constructor | inversion Hm; assumption].
Qed.

Lemma combinations_length {A : Type} (l : list A) :
  forall k c, In c (combinations l k) -> length c = k.
Proof.
  induction l as [| x l IH]; intros [| k] c H; cbn [combinations] in H.
  - destruct H as [<- | []]. reflexivity.
  - contradiction.
  - destruct H as [<- | []]. reflexivity.
  - apply in_app_or in H. destruct H as [H | H].
    + apply in_map_iff in H. destruct H as [c' [<- Hc']].
      cbn [length]. rewrite (IH _ _ Hc'). reflexivity.
    + exact (IH _ _ H).
Qed.

Lemma sum_concat (ls : list (list Z)) : sum (concat ls) = sum (map sum ls).
Proof.
  induction ls as [| l ls IH]; [reflexivity |].
  cbn [concat map]. rewrite sum_app, sum_cons, IH. reflexivity.
Qed.

Lemma sum_fees (l : list (list Z * list Z)) :
  sum (map fee_paid_to_pair l) = sum (concat (map snd l)) - sum (concat (map fst l)).
Proof.
  induction l as [| p l IH]; [reflexivity |].
  cbn [map concat]. rewrite sum_cons, !sum_app, IH. unfold fee_paid_to_pair. lia.
Qed.

Lemma sum_bounds (lo hi : Z) (l : list Z) :
  Forall (fun x => lo <= x < hi) l ->
  Z.of_nat (length l) * lo <= sum l
  /\ (l <> [] -> sum l < Z.of_nat (length l) * hi).
Proof.
  induction 1 as [| x l Hx Hl IH].
  - split; [rewrite sum_nil; cbn; lia | congruence].
  - rewrite sum_cons. cbn [length]. rewrite Nat2Z.inj_succ, !Z.mul_succ_l.
    destruct IH as [IH1 IH2]. split; [lia |].
    intros _. destruct l as [| y l]; [rewrite sum_nil; cbn; lia |].
    assert (Hne : y :: l <> []) by discriminate. specialize (IH2 Hne). lia.
Qed.

Lemma found_group_fee (v x : Z) (in_values change_values : list Z)
    (found : list nat * nat) (bucket : list Z) (c : Z) :
  found_by v in_values change_values
    (gen_bucket_size_dist_pairs (range 1 x) dists) found bucket c ->
  100 <= fee_paid_to_pair (rev bucket, [v; c]) < 1638400.
Proof.
  intros [bs [d [Hcand [_ [_ [_ [Hlo [Hhi _]]]]]]]].
  apply gen_bucket_size_dist_pairs_In in Hcand. destruct Hcand as [_ Hd].
  unfold fee_paid_to_pair. cbn [fst snd]. rewrite sum_rev, !sum_cons, sum_nil.
  replace (v + (c + 0) - sum bucket) with (c + v - sum bucket) by lia.
  split.
  - apply MIN_JM_FEE_lt_btc. exact Hlo.
  - apply btc_lt_largest_dist.
    exact (Qlt_le_trans _ _ _ Hhi (dists_le_largest d Hd)).
Qed.

Lemma found_group_inputs (v x : Z) (in_values change_values : list Z)
    (found : list nat * nat) (bucket : list Z) (c : Z) :
  found_by v in_values change_values
    (gen_bucket_size_dist_pairs (range 1 x) dists) found bucket c ->
  rev bucket <> [].
Proof.
  intros [bs [d [Hcand [Hcomb [Hg _]]]]].
  apply gen_bucket_size_dist_pairs_In in Hcand. destruct Hcand as [Hbs _].
  unfold range in Hbs. apply in_seq in Hbs.
  apply combinations_length in Hcomb. apply getitems_length in Hg.
  intros Hnil. apply (f_equal (@length Z)) in Hnil.
  rewrite length_rev in Hnil. cbn [length] in Hnil. lia.
Qed.


(** ** The taker's check *)

Lemma taker_check_floor (T n : Z) :
  0 < n -> 100 * n <= T -> (MIN_JM_FEE < btc T / inject_Z n)%Q.
Proof.
  intros Hn. destruct n as [| p | p]; try lia.
  unfold Qlt, Qdiv, Qmult, Qinv, btc, inject_Z, MIN_JM_FEE. cbn -[Pos.mul Z.mul].
  rewrite Pos2Z.inj_mul. lia.
Qed.

Lemma taker_check_ceiling (T n : Z) :
  0 < n -> T < 1638400 * n -> (btc T / inject_Z n < MAX_JM_FEE)%Q.
Proof.
  intros Hn. destruct n as [| p | p]; try lia.
  unfold Qlt, Qdiv, Qmult, Qinv, btc, inject_Z, MAX_JM_FEE. cbn -[Pos.mul Z.mul].
  rewrite Pos2Z.inj_mul. lia.
Qed.

(** The main loop always ends; the fees of the groups it found add up to
    what is left for the taker to pay beyond the transaction fee. *)
Lemma pairing_loop_total (v x : Z) (n : nat) (in_values change_values : list Z) :
  exists st makers,
    pairing_loop (Some v) (range 1 x) n in_values change_values (repeat v n) [] = Ok st
    /\ loop_post v n in_values change_values [] st makers
    /\ Forall (fun p => 100 <= fee_paid_to_pair p < 1638400) makers
    /\ sum (s_in_values st) - (sum (s_change_values st) + sum (s_mix_values st))
       - (sum in_values - sum (repeat v n ++ change_values))
       = sum (map fee_paid_to_pair makers).
Proof.
  destruct (pairing_loop_spec v (range 1 x) n in_values change_values [])
    as [st [makers [Hl Hpost]]].
  exists st, makers. split; [exact Hl |]. split; [exact Hpost |].
  destruct Hpost as [Hp [_ [HPi [HPo _]]]]. split.
  - apply (pairing_loop_Forall (fun p => 100 <= fee_paid_to_pair p < 1638400)) in Hl.
    + destruct Hl as [makers' [Hp' Hm]]. rewrite Hp in Hp'.
      apply app_inv_head in Hp'. subst makers'. exact Hm.
    + intros inv chg found bucket c. apply found_group_fee.
  - rewrite sum_fees, (sum_Permutation _ _ HPi), (sum_Permutation _ _ HPo), !sum_app. lia.
Qed.

Lemma _pair_up_inout_values_not_msg (in_values out_values : list Z)
    (value_mixed : option Z) (s : string) :
  _pair_up_inout_values in_values out_values value_mixed <> Raise (Unpairable (msg s)).
Proof.
  unfold _pair_up_inout_values.
  destruct (split_mix_values (S (length out_values)) value_mixed out_values [])
    as [c' m'] eqn:Esplit.
  destruct (negb (0 <=? sum in_values - sum out_values)); [discriminate |].
  destruct (negb ((Z.of_nat (length m') - 1 <=? Z.of_nat (length (sorted c')))
                  && (Z.of_nat (length (sorted c')) <=? Z.of_nat (length m'))));
    [discriminate |].
  destruct value_mixed as [v |].
  - apply split_mix_values_Some in Esplit; [| lia].
    destruct Esplit as [k [-> [HPout _]]]. cbn [app]. rewrite repeat_length.
    destruct (pairing_loop_total v (Z.of_nat (length in_values) - Z.of_nat k + 2)
                k in_values (sorted c'))
      as [st [makers [Hl [Hpost [Hfees Htotal]]]]].
    rewrite Hl. cbn [bind].
    destruct Hpost as [_ [_ [_ [_ [Hmix [Hnum _]]]]]].
    destruct (s_num_pairs_left st =? 1)%nat eqn:Enpl.
    + apply Nat.eqb_eq in Enpl.
      rewrite Hmix, repeat_length, Nat.eqb_refl. cbn [negb].
      unfold decimal_div.
      destruct (Z.of_nat k - 1 =? 0) eqn:Ek;
        [destruct (sum (s_in_values st) - _ - _ =? 0); cbn [bind]; discriminate |].
      apply Z.eqb_neq in Ek. cbn [bind].
      assert (Hsum : sum out_values = sum (repeat v k ++ sorted c')).
      { apply sum_Permutation. rewrite HPout.
        apply Permutation_app_head, sorted_Permutation. }
      rewrite Hmix in Htotal. rewrite Hsum, Htotal.
      destruct (sum_bounds 100 1638400 _ (proj2 (Forall_map _ _ _) Hfees)) as [Hlo Hhi].
      rewrite length_map in Hlo, Hhi.
      assert (Hk : Z.of_nat (length makers) = Z.of_nat k - 1) by lia.
      assert (Hne : map fee_paid_to_pair makers <> []).
      { destruct makers; [cbn in Hk; lia | discriminate]. }
      specialize (Hhi Hne). rewrite Hk in Hlo, Hhi.
      rewrite (proj2 (Qltb_lt _ _)) by (apply taker_check_floor; lia).
      rewrite (proj2 (Qltb_lt _ _)) by (apply taker_check_ceiling; lia).
      cbn. discriminate.
    + cbn [bind]. destruct (_ || _); discriminate.
  - rewrite split_mix_values_None in Esplit. injection Esplit as <- <-. cbn.
    destruct (is_nonempty in_values || _); discriminate.
Qed.

(** X1. [pair_up_inout_values] never raises 'taker fees dont add up'.  What
    the taker pays beyond the transaction fee is the sum of the fees of the
    groups found by the main loop; each of these lies between the floor and
    the largest tolerance, so their mean lies between the floor and the
    ceiling and the check always passes. *)
Theorem taker_fees_always_add_up (in_values out_values : list Z)
    (value_mixed : option Z) (s : string) :
  pair_up_inout_values in_values out_values value_mixed <> Raise (Unpairable (msg s)).
Proof.
  unfold pair_up_inout_values.
  destruct value_mixed as [v |]; cbn [bind].
  - apply _pair_up_inout_values_not_msg.
  - destruct (get_value_mixed_from_values in_values out_values) as [r | e] eqn:E;
      cbn [bind].
    + apply _pair_up_inout_values_not_msg.
    + apply get_value_mixed_from_values_Raise in E. destruct E as [-> _]. discriminate.
Qed.


(** ** Combinations: every increasing index list is enumerated *)

Lemma increasing_raise (lo lo' hi i : nat) (r : list nat) :
  (lo' <= i)%nat -> increasing lo (i :: r) hi -> increasing lo' (i :: r) hi.
Proof. intros Hi [Hb Hr]. split; [lia | exact Hr]. Qed.

Lemma combinations_complete (m : nat) :
  forall a c, increasing a c (a + m) -> In c (combinations (seq a m) (length c)).
Proof.
  induction m as [| m IH]; intros a c H.
  - destruct c as [| i r]; [left; reflexivity |]. destruct H as [Hi _]. lia.
  - destruct c as [| i r]; [left; reflexivity |].
    cbn [length seq combinations]. apply in_or_app.
    destruct (Nat.eq_dec i a) as [-> | Hne].
    + left. apply in_map. apply IH. destruct H as [_ Hr].
      replace (S a + m)%nat with (a + S m)%nat by lia. exact Hr.
    + right. apply (IH (S a) (i :: r)).
      replace (S a + m)%nat with (a + S m)%nat by lia.
      apply (increasing_raise a); [destruct H as [Hi _]; lia | exact H].
Qed.

(** X2. Every pair of one of the bucket sizes and one of the tolerances is a
    candidate, once for each time it occurs in the two lists, and nothing
    else is. *)
Theorem candidates_are_all_pairs (bucket_sizes : list nat) (ds : list Q) :
  Permutation (gen_bucket_size_dist_pairs bucket_sizes ds) (list_prod bucket_sizes ds)
  /\ length (gen_bucket_size_dist_pairs bucket_sizes ds)
     = (length bucket_sizes * length ds)%nat
  /\ forall bucket_size d,
      In (bucket_size, d) (gen_bucket_size_dist_pairs bucket_sizes ds)
      <-> In bucket_size bucket_sizes /\ In d ds.
Proof.
  split; [apply gen_bucket_size_dist_pairs_Permutation |]. split.
  - rewrite (Permutation_length (gen_bucket_size_dist_pairs_Permutation _ _)).
    apply length_prod.
  - intros bucket_size d. apply gen_bucket_size_dist_pairs_In.
Qed.

(** ** When the main loop gives up *)

Lemma find_new_pair_exhausted (v x : Z) (in_values change_values : list Z) :
  find_new_pair (Some v) in_values change_values
    (gen_bucket_size_dist_pairs (range 1 x) dists) = Ok None ->
  forall iidxs bucket c,
    increasing 0 iidxs (length in_values) ->
    1 <= Z.of_nat (length iidxs) < x ->
    getitems in_values iidxs = Ok bucket ->
    In c change_values ->
    ~ (100 <= c + v - sum bucket < 1638400).
Proof.
  intros H iidxs bucket c Hinc Hlen Hg Hc [Hlo Hhi].
  apply (find_new_pair_none _ _ _ _ H (length iidxs) largest_dist iidxs bucket c).
  - apply gen_bucket_size_dist_pairs_In. split; [| apply largest_dist_In].
    unfold range. apply in_seq. lia.
  - apply (combinations_complete (length in_values) 0). exact Hinc.
  - exact Hg.
  - exact Hc.
  - split; [apply MIN_JM_FEE_lt_btc | apply btc_lt_largest_dist]; assumption.
Qed.

(** X3. The main loop stops with more than one group still to find only if
    the search is exhausted: among the inputs and change values that are
    left, no bucket of a permitted size (increasing, in-range input indices)
    and no change value give an excess [change + mix - sum(bucket)] of at
    least 100 and less than 1638400 satoshi, the widest tolerance. *)
Theorem main_loop_stops_only_when_exhausted (v x : Z) (n : nat)
    (in_values change_values : list Z) (pairs : list (list Z * list Z)) (st : state) :
  pairing_loop (Some v) (range 1 x) n in_values change_values (repeat v n) pairs = Ok st ->
  (1 < s_num_pairs_left st)%nat ->
  forall iidxs bucket c,
    increasing 0 iidxs (length (s_in_values st)) ->
    1 <= Z.of_nat (length iidxs) < x ->
    getitems (s_in_values st) iidxs = Ok bucket ->
    In c (s_change_values st) ->
    ~ (100 <= c + v - sum bucket < 1638400).
Proof.
  revert in_values change_values pairs.
  induction n as [| n IH]; intros in_values change_values pairs H Hleft.
  - cbn in H. injection H as <-. cbn in Hleft. lia.
  - destruct n as [| n].
    + cbn in H. injection H as <-. cbn in Hleft. lia.
    + cbn [pairing_loop] in H. bind_inv H. destruct a as [[iidxs0 cidx] |].
      * bind_inv H. destruct a as [cur_inputs in_values'].
        rewrite (repeat_snoc v (S n)), pop_app in H. cbn [bind] in H.
        bind_inv H. exact (IH _ _ _ H Hleft).
      * injection H as <-. cbn [s_in_values s_change_values].
        apply find_new_pair_exhausted. exact Ha.
Qed.

Lemma main_loop_stops_only_when_exhausted_witness :
  ~ (100 <= 9000000 + 100000000 - sum [110000000] < 1638400).
Proof.
  apply (main_loop_stops_only_when_exhausted 100000000 2 3
           [110000000; 50000000; 55000000] [4997000; 9000000; 9000000] []
           (mkState [110000000; 50000000; 55000000] [4997000; 9000000; 9000000]
              (repeat 100000000 3) [] 3)) with (iidxs := [0%nat]).
  - vm_compute. reflexivity.
  - cbn. lia.
  - cbn. repeat split; lia.
  - cbn. lia.
  - reflexivity.
  - right. left. reflexivity.
Defined.

(** X4. The change value matched with a bucket is the smallest one whose
    excess over the bucket reaches the floor of 100 satoshi, and among equal
    change values the one with the lowest index; its excess is below the
    tolerance of the candidate. *)
Theorem found_change_is_smallest (v : Z) (in_values change_values : list Z)
    (candidates : list (nat * Q)) (iidxs : list nat) (cidx : nat) :
  find_new_pair (Some v) in_values change_values candidates = Ok (Some (iidxs, cidx)) ->
  exists bucket c,
    getitems in_values iidxs = Ok bucket
    /\ nth_error change_values cidx = Some c
    /\ 100 <= c + v - sum bucket
    /\ (exists bucket_size d,
          In (bucket_size, d) candidates /\ length iidxs = bucket_size
          /\ (btc (c + v - sum bucket) < d)%Q)
    /\ forall j c',
        nth_error change_values j = Some c' ->
        100 <= c' + v - sum bucket ->
        c <= c' /\ (c' = c -> (cidx <= j)%nat).
Proof.
  intros H. apply find_new_pair_found in H.
  destruct H as [bucket [c [bs [d [Hcand [Hcomb [Hg [Hn [Hlo [Hhi Hmin]]]]]]]]]].
  cbn [fst snd] in *. exists bucket, c.
  split; [exact Hg |]. split; [exact Hn |].
  split; [apply MIN_JM_FEE_lt_btc; exact Hlo |]. split.
  - exists bs, d. split; [exact Hcand |]. split; [| exact Hhi].
    exact (combinations_length _ _ _ Hcomb).
  - intros j c' Hj Hq. apply Hmin; [exact Hj |]. apply MIN_JM_FEE_lt_btc. exact Hq.
Qed.

Lemma found_change_is_smallest_witness :
  exists bucket c,
    getitems [110000000; 50000000] [0%nat] = Ok bucket
    /\ nth_error [4997000; 10001000; 10001000] 1 = Some c
    /\ 100 <= c + 100000000 - sum bucket
    /\ (exists bucket_size d,
          In (bucket_size, d) (gen_bucket_size_dist_pairs [1%nat] dists)
          /\ length [0%nat] = bucket_size
          /\ (btc (c + 100000000 - sum bucket) < d)%Q)
    /\ forall j c',
        nth_error [4997000; 10001000; 10001000] j = Some c' ->
        100 <= c' + 100000000 - sum bucket ->
        c <= c' /\ (c' = c -> (1 <= j)%nat).
Proof.
  apply (found_change_is_smallest 100000000 [110000000; 50000000]
           [4997000; 10001000; 10001000] (gen_bucket_size_dist_pairs [1%nat] dists)
           [0%nat] 1%nat).
  vm_compute. reflexivity.
Defined.


(** ** The groups of a pairing *)

Lemma concat_snd_length (v : Z) (cv : list Z) (makers : list (list Z * list Z)) :
  Forall (maker_group v cv) makers ->
  length (concat (map snd makers)) = (2 * length makers)%nat.
Proof.
  induction 1 as [| p ps [c [Hs _]] _ IH]; [reflexivity |].
  cbn [map concat length]. rewrite length_app, Hs, IH. cbn [length]. lia.
Qed.

(** X5. A pairing returned for a non-empty output list (or without a third
    argument) has as many groups as there are mix-value outputs, at least
    two.  Its first group holds one mix value followed by the change values
    left over, at most one; every other group holds at least one input and
    exactly two outputs, the mix value and a change value different from
    it. *)
Theorem pairing_group_structure (in_values out_values : list Z)
    (value_mixed : option Z) (pairs : list (list Z * list Z)) :
  pair_up_inout_values in_values out_values value_mixed = Ok pairs ->
  value_mixed = None \/ out_values <> [] ->
  exists v taker_inputs taker_change makers,
    pairs = (taker_inputs, v :: taker_change) :: makers
    /\ length pairs = count_occ Z.eq_dec out_values v
    /\ (2 <= length pairs)%nat
    /\ (length taker_change <= 1)%nat
    /\ (length taker_change + 2 * length pairs = length out_values + 1)%nat
    /\ ~ In v taker_change
    /\ Forall (fun p => fst p <> [] /\ exists c, snd p = [v; c] /\ c <> v) makers.
Proof.
  intros H Hne.
  pose proof (pair_up_inout_values_makers_Forall (fun p => fst p <> []) _ _ _ _ H) as Hin.
  apply pair_up_inout_values_nonempty_shape in H; [| exact Hne].
  destruct H as [v [[[_ [_ ->]] | H] Hnil]]; [congruence |].
  destruct H as [v' [ti [tc [mk [cv [[= <-] [-> [Hmk [Hm [Hnin [Htc [Hlen [_ [HPo [HPk _]]]]]]]]]]]]]]].
  exists v, ti, tc, mk. split; [reflexivity |].
  destruct (split_count _ _ _ _ HPk Hnin) as [Hk _].
  split; [cbn [length]; congruence |].
  split; [destruct mk; [congruence | cbn [length]; lia] |].
  split; [exact Hlen |].
  split.
  - rewrite (Permutation_length HPo), length_app, (concat_snd_length v cv mk Hm).
    cbn [length]. lia.
  - split; [intros Hv; exact (Hnin (Htc v Hv)) |].
    cbn [tl] in Hin.
    assert (Hin' : Forall (fun p => fst p <> []) mk).
    { apply Hin. intros v0 x inv chg found bucket c Hf. cbn [fst].
      exact (found_group_inputs _ _ _ _ _ _ _ Hf). }
    apply Forall_forall. intros p Hp. split.
    + exact (proj1 (Forall_forall _ _) Hin' p Hp).
    + destruct (proj1 (Forall_forall _ _) Hm p Hp) as [c [Hs [Hc _]]].
      exists c. split; [exact Hs |]. intros ->. exact (Hnin Hc).
Qed.

Lemma pairing_group_structure_witness :
  exists v taker_inputs taker_change makers,
    example_pairs = (taker_inputs, v :: taker_change) :: makers
    /\ length example_pairs = count_occ Z.eq_dec (vout_values example_tx) v
    /\ (2 <= length example_pairs)%nat
    /\ (length taker_change <= 1)%nat
    /\ (length taker_change + 2 * length example_pairs
        = length (vout_values example_tx) + 1)%nat
    /\ ~ In v taker_change
    /\ Forall (fun p => fst p <> [] /\ exists c, snd p = [v; c] /\ c <> v) makers.
Proof.
  apply (pairing_group_structure (vin_values example_tx) (vout_values example_tx)
           None example_pairs).
  - vm_compute. reflexivity.
  - left. reflexivity.
Defined.

(** X6. In a returned pairing, every group after the first is paid at least
    100 satoshi and less than 1638400 satoshi (0.016384 BTC, the largest
    tolerance): the ceiling [MAX_JM_FEE] of 0.03 BTC only cuts the list of
    tolerances and is never reached by a group's fee. *)
Theorem maker_fee_in_satoshi (in_values out_values : list Z)
    (value_mixed : option Z) (pairs : list (list Z * list Z)) :
  pair_up_inout_values in_values out_values value_mixed = Ok pairs ->
  Forall (fun p => 100 <= fee_paid_to_pair p < 1638400) (tl pairs).
Proof.
  intros H.
  apply (pair_up_inout_values_makers_Forall
           (fun p => 100 <= fee_paid_to_pair p < 1638400) _ _ _ _ H).
  intros v x inv chg found bucket c. apply found_group_fee.
Qed.

Lemma maker_fee_in_satoshi_witness :
  Forall (fun p => 100 <= fee_paid_to_pair p < 1638400) (tl example_pairs).
Proof.
  apply (maker_fee_in_satoshi (vin_values example_tx) (vout_values example_tx)
           None example_pairs).
  vm_compute. reflexivity.
Defined.

(** ** Fees of a paired transaction *)

Lemma to_joinmarket_tx_Ok (t : Tx) (jm : JoinMarketTx.t) :
  to_joinmarket_tx t = Ok jm ->
  exists pairs,
    jm = JoinMarketTx.mk t pairs
    /\ check_potential_joinmarket_tx t = Ok (true, ""%string)
    /\ pair_up_inout_values (vin_values t) (vout_values t) None = Ok pairs.
Proof.
  unfold to_joinmarket_tx. intros H. bind_inv H. destruct a as [is_ok desc].
  destruct is_ok; cbn [negb] in H; [| discriminate].
  bind_inv H. injection H as <-. exists a. split; [reflexivity |]. split; [| exact Ha0].
  rewrite Ha. f_equal. f_equal.
  unfold check_potential_joinmarket_tx in Ha.
  destruct (_ <=? MIN_NUM_OUTPUTS)%nat; [discriminate |].
  destruct (_ <=? MIN_NUM_INPUTS)%nat; [discriminate |].
  bind_inv Ha. destruct a0 as [[v count] |]; [| discriminate].
  destruct (v <? MIN_MIX_VALUE); [discriminate |].
  destruct (negb _); [discriminate |].
  destruct (25 <? _)%nat; [discriminate |]. congruence.
Qed.

Lemma sum_map_sum_fst (l : list (list Z * list Z)) :
  sum (map (fun p => sum (fst p)) l) = sum (concat (map fst l)).
Proof. rewrite sum_concat, map_map. reflexivity. Qed.

Lemma sum_map_sum_snd (l : list (list Z * list Z)) :
  sum (map (fun p => sum (snd p)) l) = sum (concat (map snd l)).
Proof. rewrite sum_concat, map_map. reflexivity. Qed.

(** X7. For a transaction that [to_joinmarket_tx] accepts, [txfee], computed
    from the groups, is the transaction's own fee (inputs minus outputs),
    and it is not negative. *)
Theorem txfee_is_transaction_fee (t : Tx) (jm : JoinMarketTx.t) :
  to_joinmarket_tx t = Ok jm ->
  JoinMarketTx.txfee jm = fee t /\ 0 <= fee t.
Proof.
  intros H. apply to_joinmarket_tx_Ok in H. destruct H as [pairs [-> [_ H]]].
  apply pair_up_inout_values_Ok in H. destruct H as [vm' [H _]].
  pose proof (_pair_up_inout_values_inv _ _ _ _ H) as [_ [_ [_ [_ [Hfee _]]]]].
  apply _pair_up_inout_values_shape in H.
  unfold JoinMarketTx.txfee, fee, total_vin_value, total_vout_value.
  cbn [JoinMarketTx.pairs]. rewrite sum_map_sum_fst, sum_map_sum_snd.
  split; [| exact Hfee].
  destruct H as [[-> [-> ->]] | H]; [reflexivity |].
  destruct H as [v [ti [tc [mk [cv [_ [-> [_ [_ [_ [_ [_ [HPi [HPo _]]]]]]]]]]]]]].
  cbn [map concat fst snd].
  rewrite (sum_Permutation _ _ HPi), (sum_Permutation _ _ HPo). reflexivity.
Qed.

Lemma txfee_is_transaction_fee_witness :
  JoinMarketTx.txfee (JoinMarketTx.mk example_tx example_pairs) = fee example_tx
  /\ 0 <= fee example_tx.
Proof.
  apply (txfee_is_transaction_fee example_tx (JoinMarketTx.mk example_tx example_pairs)).
  vm_compute. reflexivity.
Defined.

(** X8. For a transaction that [to_joinmarket_tx] accepts, [total_jm_fee]
    is defined and is exactly the sum of the fees paid to the maker groups;
    with P parties it is at least 100 * (P - 1) and less than
    1638400 * (P - 1) satoshi. *)
Theorem total_jm_fee_is_makers_income (t : Tx) (jm : JoinMarketTx.t) :
  to_joinmarket_tx t = Ok jm ->
  let P := Z.of_nat (JoinMarketTx.num_parties jm) in
  exists total,
    JoinMarketTx.total_jm_fee jm = Ok total
    /\ total = sum (map fee_paid_to_pair (JoinMarketTx.maker_value_pairs jm))
    /\ 100 * (P - 1) <= total < 1638400 * (P - 1).
Proof.
  intros H P. apply to_joinmarket_tx_Ok in H. destruct H as [pairs [-> [_ H]]].
  pose proof (pair_up_inout_values_makers_Forall
                (fun p => 100 <= fee_paid_to_pair p < 1638400) _ _ _ _ H
                (fun v x inv chg found bucket c => found_group_fee v x inv chg found bucket c))
    as Hfees.
  apply pair_up_inout_values_nonempty_shape in H; [| left; reflexivity].
  destruct H as [v [Hshape Hnil]].
  pose proof (maker_value_pairs_tl t _ _ _ _ Hshape) as Hmakers.
  destruct Hshape as [[_ [_ ->]] | H]; [congruence |].
  destruct H as [v' [ti [tc [mk [cv [_ [-> [Hmk [_ [_ [_ [_ [HPi [HPo [_ [_ Ht]]]]]]]]]]]]]]]].
  cbn [tl] in Hfees, Hmakers. subst P. unfold JoinMarketTx.num_parties.
  cbn [JoinMarketTx.pairs length].
  exists (sum (map fee_paid_to_pair mk)).
  rewrite Hmakers. split; [| split; [reflexivity |]].
  - unfold JoinMarketTx.total_jm_fee, JoinMarketTx.taker_value_pair, JoinMarketTx.txfee.
    cbn [JoinMarketTx.pairs filter]. unfold fee_paid_by_pair at 1.
    destruct (0 <? - fee_paid_to_pair (ti, v' :: tc)) eqn:E; [| apply Z.ltb_ge in E; lia].
    cbn [getitem nth_error bind fst snd]. f_equal.
    rewrite sum_map_sum_fst, sum_map_sum_snd, sum_fees. cbn [map concat fst snd].
    rewrite !sum_app. lia.
  - destruct (sum_bounds 100 1638400 _ (proj2 (Forall_map _ _ _) Hfees)) as [Hlo Hhi].
    rewrite length_map in Hlo, Hhi.
    assert (Hne : map fee_paid_to_pair mk <> [])
      by (destruct mk; [congruence | discriminate]).
    specialize (Hhi Hne). lia.
Qed.

Lemma total_jm_fee_is_makers_income_witness :
  let jm := JoinMarketTx.mk example_tx example_pairs in
  let P := Z.of_nat (JoinMarketTx.num_parties jm) in
  exists total,
    JoinMarketTx.total_jm_fee jm = Ok total
    /\ total = sum (map fee_paid_to_pair (JoinMarketTx.maker_value_pairs jm))
    /\ 100 * (P - 1) <= total < 1638400 * (P - 1).
Proof.
  apply (total_jm_fee_is_makers_income example_tx
           (JoinMarketTx.mk example_tx example_pairs)).
  vm_compute. reflexivity.
Defined.


(** ** The mix value and the classifier *)

Lemma most_common_1_cases (c : list (Z * nat)) :
  most_common_1 c = [] \/ exists e, most_common_1 c = [e].
Proof. destruct c as [| e c]; [left | right; eexists]; reflexivity. Qed.

Lemma Counter_In_count (out_values : list Z) (w : Z) (n : nat) :
  In (w, n) (Counter out_values) -> n = count_occ Z.eq_dec out_values w.
Proof.
  intros H. rewrite <- counter_get_Counter. symmetry.
  apply counter_get_In; [apply Counter_keys_NoDup | exact H].
Qed.

Lemma get_value_mixed_from_values_complete (in_values out_values : list Z)
    (v : Z) (count : nat) :
  unique_mix_value out_values v count ->
  get_value_mixed_from_values in_values out_values = Ok (Some (v, count)).
Proof.
  intros [Hcount [Hgt Hother]]. unfold get_value_mixed_from_values.
  assert (Hin : In (v, count) (Counter out_values)).
  { rewrite Hcount, <- counter_get_Counter. apply counter_get_pos_In.
    rewrite counter_get_Counter. lia. }
  destruct (most_common_1_cases (Counter out_values)) as [E | [[v1 n1] E]].
  { apply most_common_1_nil in E. rewrite E in Hin. contradiction. }
  rewrite E. apply most_common_1_spec in E. destruct E as [Hin1 Hmax].
  specialize (Hmax _ Hin). cbn [snd] in Hmax.
  apply Counter_In_count in Hin1 as Hn1.
  assert (v1 = v).
  { destruct (Z.eq_dec v1 v) as [-> | Hne]; [reflexivity |].
    specialize (Hother v1 Hne). lia. }
  subst v1. rewrite <- Hcount in Hn1. subst n1.
  destruct (count <=? 2)%nat eqn:E2; [apply Nat.leb_le in E2; lia |].
  destruct (most_common_1_cases (counter_pop v (Counter out_values))) as [E | [[v2 n2] E]].
  - rewrite E. reflexivity.
  - rewrite E. apply most_common_1_spec in E. destruct E as [Hin2 _].
    apply filter_In in Hin2. destruct Hin2 as [Hin2 Hneq]. cbn [fst] in Hneq.
    apply negb_true_iff, Z.eqb_neq in Hneq.
    apply Counter_In_count in Hin2. specialize (Hother v2 Hneq).
    destruct (n2 =? count)%nat eqn:E4; [apply Nat.eqb_eq in E4; lia | reflexivity].
Qed.

(** X9. [get_value_mixed_from_values] returns a value and a count exactly
    when that value occurs more than twice among the outputs and strictly
    more often than every other value, the count being its number of
    occurrences; it returns [(None, None)] exactly when the output list is
    not empty and has no such value. *)
Theorem get_value_mixed_from_values_iff (in_values out_values : list Z) :
  (forall v count,
      get_value_mixed_from_values in_values out_values = Ok (Some (v, count))
      <-> unique_mix_value out_values v count)
  /\ (get_value_mixed_from_values in_values out_values = Ok None
      <-> out_values <> [] /\ forall v count, ~ unique_mix_value out_values v count).
Proof.
  split.
  - intros v count. split.
    + apply get_value_mixed_from_values_Some.
    + apply get_value_mixed_from_values_complete.
  - split.
    + intros H. split.
      * intros ->. discriminate H.
      * intros v count Hu.
        rewrite (get_value_mixed_from_values_complete in_values _ _ _ Hu) in H.
        discriminate H.
    + intros [Hne Hnone].
      destruct (get_value_mixed_from_values in_values out_values)
        as [[[v count] |] | e] eqn:E.
      * apply get_value_mixed_from_values_Some in E. exfalso. exact (Hnone v count E).
      * reflexivity.
      * apply get_value_mixed_from_values_Raise in E. destruct E as [_ E]. contradiction.
Qed.

Lemma check_potential_joinmarket_tx_true (tx : Tx) (desc : string) :
  check_potential_joinmarket_tx tx = Ok (true, desc) ->
  desc = ""%string
  /\ (3 < length (vin tx) <= 25)%nat /\ (3 < length (vout tx))%nat
  /\ exists v count,
      get_value_mixed tx = Ok (Some (v, count))
      /\ MIN_MIX_VALUE <= v
      /\ (2 * count <= length (vout tx) + 1)%nat
      /\ (length (vout tx) <= 2 * count)%nat.
Proof.
  unfold check_potential_joinmarket_tx. intros H.
  destruct (length (vout tx) <=? MIN_NUM_OUTPUTS)%nat eqn:Eo; [discriminate |].
  destruct (length (vin tx) <=? MIN_NUM_INPUTS)%nat eqn:Ei; [discriminate |].
  apply Nat.leb_gt in Eo, Ei. unfold MIN_NUM_OUTPUTS in Eo. unfold MIN_NUM_INPUTS in Ei.
  bind_inv H. destruct a as [[v count] |]; [| discriminate].
  destruct (v <? MIN_MIX_VALUE) eqn:Ev; [discriminate |]. apply Z.ltb_ge in Ev.
  destruct (negb _) eqn:Ec; [discriminate |].
  apply negb_false_iff, andb_true_iff in Ec. destruct Ec as [Ec1 Ec2].
  apply Z.leb_le in Ec1, Ec2.
  destruct (25 <? length (vin tx))%nat eqn:Em; [discriminate |]. apply Nat.ltb_ge in Em.
  injection H as <-. split; [reflexivity |]. split; [lia |]. split; [lia |].
  exists v, count. repeat split; [exact Ha | exact Ev | lia | lia].
Qed.

(** X10. The classifier accepts a transaction exactly when it has more than
    3 and at most 25 inputs, more than 3 outputs, an output value that
    occurs k > 2 times and strictly more often than any other, this value
    is at least 0.01 BTC, and the number of outputs is 2k - 1 or 2k.  The
    reason it returns with an acceptance is the empty string. *)
Theorem check_potential_joinmarket_tx_accepts_iff (tx : Tx) (desc : string) :
  check_potential_joinmarket_tx tx = Ok (true, desc)
  <-> desc = ""%string
      /\ (3 < length (vin tx) <= 25)%nat /\ (3 < length (vout tx))%nat
      /\ exists v count,
          unique_mix_value (vout_values tx) v count
          /\ MIN_MIX_VALUE <= v
          /\ (2 * count <= length (vout tx) + 1)%nat
          /\ (length (vout tx) <= 2 * count)%nat.
Proof.
  split.
  - intros H. apply check_potential_joinmarket_tx_true in H.
    destruct H as [Hd [Hi [Ho [v [count [Hg Hrest]]]]]].
    split; [exact Hd |]. split; [exact Hi |]. split; [exact Ho |].
    exists v, count. split; [| exact Hrest].
    exact (get_value_mixed_from_values_Some _ _ _ _ Hg).
  - intros [-> [Hi [Ho [v [count [Hu [Hv [Hc1 Hc2]]]]]]]].
    unfold check_potential_joinmarket_tx, get_value_mixed.
    rewrite (get_value_mixed_from_values_complete _ _ _ _ Hu). cbn [bind].
    unfold MIN_NUM_OUTPUTS, MIN_NUM_INPUTS.
    rewrite (proj2 (Nat.leb_gt _ _)) by lia.
    rewrite (proj2 (Nat.leb_gt _ _)) by lia.
    rewrite (proj2 (Z.ltb_ge _ _)) by exact Hv.
    rewrite (proj2 (Z.leb_le _ _)) by lia.
    rewrite (proj2 (Z.leb_le _ _)) by lia.
    cbn [andb negb].
    rewrite (proj2 (Nat.ltb_ge _ _)) by lia. reflexivity.
Qed.

(** ** What can go wrong after the classifier *)

Lemma to_joinmarket_tx_ends (tx : Tx) (r : result JoinMarketTx.t) :
  r = to_joinmarket_tx tx -> expected_to_joinmarket_tx tx r.
Proof.
  intros ->.
  unfold to_joinmarket_tx.
  destruct (check_potential_joinmarket_tx_total tx) as [is_ok [desc Hcheck]].
  rewrite Hcheck. cbn [bind]. destruct is_ok; cbn [negb]; [| exact Hcheck].
  apply check_potential_joinmarket_tx_true in Hcheck.
  destruct Hcheck as [_ [_ [_ [v [count [Hg [_ [Hc1 Hc2]]]]]]]].
  unfold get_value_mixed in Hg. unfold pair_up_inout_values. rewrite Hg.
  cbn [bind option_map fst].
  apply get_value_mixed_from_values_Some in Hg. destruct Hg as [Hcount [Hgt _]].
  pose proof (_pair_up_inout_values_outcome (vin_values tx) (vout_values tx) (Some v)) as H.
  pose proof (_pair_up_inout_values_not_msg (vin_values tx) (vout_values tx) (Some v)) as Hmsg.
  destruct (_pair_up_inout_values (vin_values tx) (vout_values tx) (Some v)) as [pairs | e];
    cbn [bind]; [exact I |].
  destruct e as [[s | l] | | | | | |]; cbn [expected_outcome expected_to_joinmarket_tx] in *;
    try contradiction.
  - exfalso. exact (Hmsg s eq_refl).
  - exact I.
  - unfold fee, total_vin_value, total_vout_value.
    destruct H as [H | H]; [lia |]. exfalso. apply H.
    cbn [mix_count]. rewrite <- Hcount. unfold vout_values. rewrite length_map. lia.
  - cbn [mix_count] in H. lia.
Qed.

(** X11. [to_joinmarket_tx] returns a paired transaction, or raises
    [Unpairable] with the classifier's reason or with the list of unpairable
    change values, or fails [assert txfee >= 0] on a transaction whose
    outputs exceed its inputs.  After the classifier has accepted, the
    assertion on the number of change values holds, the division is by at
    least 2, and no index is out of range. *)
Theorem to_joinmarket_tx_outcomes (tx : Tx) :
  expected_to_joinmarket_tx tx (to_joinmarket_tx tx).
Proof.
  destruct (to_joinmarket_tx tx) as [jmtx | e] eqn:E.
  - exact I.
  - apply to_joinmarket_tx_ends. symmetry. exact E.
Qed.

(** X12. On a transaction whose inputs cover its outputs, [process_tx]
    always returns: a paired transaction exactly when [to_joinmarket_tx]
    succeeds and [None] otherwise, so a scan over such transactions is
    never aborted by one of them. *)
Theorem process_tx_returns (tx : Tx) :
  0 <= fee tx ->
  exists r,
    process_tx tx = Ok r
    /\ forall jmtx, r = Some jmtx <-> to_joinmarket_tx tx = Ok jmtx.
Proof.
  intros Hfee. unfold process_tx.
  destruct (to_joinmarket_tx tx) as [jm | e] eqn:E.
  - exists (Some jm). split; [reflexivity |]. intros jmtx. split; congruence.
  - pose proof (to_joinmarket_tx_ends tx _ (eq_sym E)) as H.
    destruct e as [m | | | | | |]; cbn [expected_to_joinmarket_tx] in H;
      try contradiction; [| lia].
    exists None. split; [reflexivity |]. intros jmtx. split; discriminate.
Qed.

Lemma process_tx_returns_witness :
  exists r,
    process_tx example_tx = Ok r
    /\ forall jmtx, r = Some jmtx <-> to_joinmarket_tx example_tx = Ok jmtx.
Proof.
  apply (process_tx_returns example_tx). vm_compute. discriminate.
Defined.


(** ** Sets of addresses *)

Lemma existsb_eqb_In (a : string) (l : list string) :
  existsb (String.eqb a) l = true <-> In a l.
Proof.
  rewrite existsb_exists. split.
  - intros [b [Hb E]]. apply String.eqb_eq in E. subst b. exact Hb.
  - intros H. exists a. split; [exact H | apply String.eqb_refl].
Qed.

Lemma set_add_In (a b : string) (l : list string) :
  In a (set_add b l) <-> a = b \/ In a l.
Proof.
  unfold set_add. destruct (existsb (String.eqb b) l) eqn:E.
  - apply existsb_eqb_In in E. split; [right; assumption |].
    intros [-> | H]; assumption.
  - rewrite in_app_iff. cbn [In]. intuition congruence.
Qed.

Lemma set_add_NoDup (b : string) (l : list string) : NoDup l -> NoDup (set_add b l).
Proof.
  intros H. unfold set_add. destruct (existsb (String.eqb b) l) eqn:E; [exact H |].
  apply NoDup_app; [exact H | constructor; [intros [] | constructor] |].
  intros a Ha [<- | []]. apply existsb_eqb_In in Ha. congruence.
Qed.

Lemma set_update_In (a : string) (new l : list string) :
  In a (set_update l new) <-> In a new \/ In a l.
Proof.
  unfold set_update. revert l. induction new as [| b new IH]; intros l; cbn [fold_left In].
  - tauto.
  - rewrite IH, set_add_In. intuition congruence.
Qed.

Lemma set_update_NoDup (new l : list string) : NoDup l -> NoDup (set_update l new).
Proof.
  unfold set_update. revert l. induction new as [| b new IH]; intros l H; cbn [fold_left].
  - exact H.
  - apply IH, set_add_NoDup, H.
Qed.

Lemma has_maker_address_true (s l : list string) :
  has_maker_address s l = true <-> exists m, In m l /\ In m s.
Proof.
  unfold has_maker_address. rewrite existsb_exists. split.
  - intros [m [Hm E]]. exists m. split; [exact Hm | apply existsb_eqb_In, E].
  - intros [m [Hm Hs]]. exists m. split; [exact Hm | apply existsb_eqb_In, Hs].
Qed.

(** ** Pass 2: marking *)

Lemma add_maker_addresses_spec (addrs : list string) (ttx : UnmixedJoinMarketTx.t) :
  UnmixedJoinMarketTx.jmtx
    (fold_left UnmixedJoinMarketTx.add_maker_address addrs ttx)
  = UnmixedJoinMarketTx.jmtx ttx
  /\ UnmixedJoinMarketTx.maker_addresses
       (fold_left UnmixedJoinMarketTx.add_maker_address addrs ttx)
     = set_update (UnmixedJoinMarketTx.maker_addresses ttx) addrs.
Proof.
  revert ttx. induction addrs as [| a addrs IH]; intros ttx; cbn [fold_left].
  - split; reflexivity.
  - destruct (IH (UnmixedJoinMarketTx.add_maker_address ttx a)) as [H1 H2].
    rewrite H1, H2. split; reflexivity.
Qed.

Lemma mark_vouts_spec (s : list string) (vouts : list Vout) :
  forall ttx,
    NoDup (UnmixedJoinMarketTx.maker_addresses ttx) ->
    let ttx' := fold_left (mark_vout s) vouts ttx in
    UnmixedJoinMarketTx.jmtx ttx' = UnmixedJoinMarketTx.jmtx ttx
    /\ NoDup (UnmixedJoinMarketTx.maker_addresses ttx')
    /\ forall a,
        In a (UnmixedJoinMarketTx.maker_addresses ttx')
        <-> In a (UnmixedJoinMarketTx.maker_addresses ttx)
            \/ exists vout m,
                In vout vouts /\ In a (addresses vout)
                /\ In m (addresses vout) /\ In m s.
Proof.
  induction vouts as [| vout vouts IH]; intros ttx Hnd; cbn zeta; cbn [fold_left].
  - split; [reflexivity |]. split; [exact Hnd |]. intros a. split; [tauto |].
    intros [H | [vout [m [[] _]]]]. exact H.
  - assert (Hstep : UnmixedJoinMarketTx.jmtx (mark_vout s ttx vout)
                    = UnmixedJoinMarketTx.jmtx ttx
                    /\ NoDup (UnmixedJoinMarketTx.maker_addresses (mark_vout s ttx vout))
                    /\ forall a,
                        In a (UnmixedJoinMarketTx.maker_addresses (mark_vout s ttx vout))
                        <-> In a (UnmixedJoinMarketTx.maker_addresses ttx)
                            \/ (In a (addresses vout)
                                /\ exists m, In m (addresses vout) /\ In m s)).
    { unfold mark_vout, get_vout_addresses. cbn zeta.
      destruct (has_maker_address s (addresses vout)) eqn:E.
      - apply has_maker_address_true in E.
        destruct (add_maker_addresses_spec (addresses vout) ttx) as [H1 H2].
        rewrite H1, H2. split; [reflexivity |].
        split; [apply set_update_NoDup, Hnd |].
        intros a. rewrite set_update_In. tauto.
      - split; [reflexivity |]. split; [exact Hnd |]. intros a. split; [tauto |].
        intros [H | [_ H]]; [exact H |].
        apply has_maker_address_true in H. congruence. }
    destruct Hstep as [Hj [Hnd' Hin]].
    destruct (IH (mark_vout s ttx vout) Hnd') as [Hj' [Hnd'' Hin']].
    split; [congruence |]. split; [exact Hnd'' |].
    intros a. rewrite Hin', Hin. split.
    + intros [[H | [Ha [m [Hm Hs]]]] | [w [m [Hw H]]]].
      * left. exact H.
      * right. exists vout, m. repeat split; try assumption. left. reflexivity.
      * right. exists w, m. split; [right; exact Hw | exact H].
    + intros [H | [w [m [[<- | Hw] [Ha [Hm Hs]]]]]].
      * left. left. exact H.
      * left. right. split; [exact Ha |]. exists m. split; assumption.
      * right. exists w, m. repeat split; assumption.
Qed.

(** X13. Pass 2 marks exactly the co-output addresses: an address is among
    the maker addresses of a marked transaction if and only if it appears
    in an output of that transaction that also carries an address of the
    maker-address set.  The marked transaction keeps the transaction and
    its pairing, and no address is recorded twice. *)
Theorem mark_tx_maker_addresses (maker_address_set : list string) (tx : JoinMarketTx.t) :
  let ttx := mark_tx maker_address_set tx in
  UnmixedJoinMarketTx.jmtx ttx = tx
  /\ NoDup (UnmixedJoinMarketTx.maker_addresses ttx)
  /\ forall a,
      In a (UnmixedJoinMarketTx.maker_addresses ttx)
      <-> exists w m,
          In w (vout (JoinMarketTx.tx tx)) /\ In a (addresses w)
          /\ In m (addresses w) /\ In m maker_address_set.
Proof.
  cbn zeta. unfold mark_tx.
  destruct (mark_vouts_spec maker_address_set (vout (JoinMarketTx.tx tx))
              (UnmixedJoinMarketTx.mk tx []) (NoDup_nil _)) as [Hj [Hnd Hin]].
  split; [exact Hj |]. split; [exact Hnd |].
  intros a. rewrite Hin. cbn [UnmixedJoinMarketTx.maker_addresses In]. tauto.
Qed.

(** X14. After Pass 2, no address of the maker-address set is listed as a
    possible taker address of a marked transaction. *)
Theorem marked_possible_takers_avoid_makers (maker_address_set : list string)
    (tx : JoinMarketTx.t) (possible : list (list string)) :
  UnmixedJoinMarketTx.possible_taker_mix_addresses (mark_tx maker_address_set tx)
  = Ok possible ->
  forall addrs a, In addrs possible -> In a addrs -> ~ In a maker_address_set.
Proof.
  intros H addrs a Haddrs Ha Hs.
  destruct (mark_vouts_spec maker_address_set (vout (JoinMarketTx.tx tx))
              (UnmixedJoinMarketTx.mk tx []) (NoDup_nil _)) as [Hj [_ Hin]].
  fold (mark_tx maker_address_set tx) in Hj, Hin.
  unfold UnmixedJoinMarketTx.possible_taker_mix_addresses in H.
  bind_inv H. injection H as <-.
  apply in_map_iff in Haddrs. destruct Haddrs as [w [<- Hw]].
  destruct (possible_taker_mixed_vouts_In _ _ _ Ha0 Hw) as [Hw' Hno].
  rewrite Hj in Hw'.
  unfold UnmixedJoinMarketTx.no_maker_address in Hno.
  apply negb_true_iff in Hno.
  assert (Hyes : existsb
                   (fun a0 => existsb (String.eqb a0)
                      (UnmixedJoinMarketTx.maker_addresses (mark_tx maker_address_set tx)))
                   (get_vout_addresses w) = true).
  { apply existsb_exists. exists a. split; [exact Ha |].
    apply existsb_eqb_In, Hin. right. exists w, a. repeat split; assumption. }
  congruence.
Qed.

Lemma marked_possible_takers_avoid_makers_witness :
  ~ In "1MixOutputOfTheTakerxxxxxxxxxxxxxx"%string
       ["1MixOutputOfMakerOnexxxxxxxxxxxxxx"%string].
Proof.
  apply (marked_possible_takers_avoid_makers
           ["1MixOutputOfMakerOnexxxxxxxxxxxxxx"%string]
           (JoinMarketTx.mk example_tx example_pairs)
           [["1MixOutputOfMakerTwoxxxxxxxxxxxxxx"%string];
            ["1MixOutputOfTheTakerxxxxxxxxxxxxxx"%string]])
    with (addrs := ["1MixOutputOfTheTakerxxxxxxxxxxxxxx"%string]).
  - vm_compute. reflexivity.
  - right. left. reflexivity.
  - left. reflexivity.
Defined.


(** ** Pass 3: the unmix level as the maker-address set grows *)

Lemma filter_length_mono {A : Type} (f g : A -> bool) (l : list A) :
  (forall x, f x = true -> g x = true) ->
  (length (filter f l) <= length (filter g l))%nat.
Proof.
  intros Hfg. induction l as [| x l IH]; [constructor |]. cbn [filter].
  destruct (f x) eqn:E.
  - rewrite (Hfg x E). cbn [length]. lia.
  - destruct (g x); cbn [length]; lia.
Qed.

Lemma filter_true {A : Type} (f : A -> bool) (l : list A) :
  (forall x, f x = true) -> filter f l = l.
Proof.
  intros Hf. induction l as [| x l IH]; [reflexivity |]. cbn [filter].
  rewrite Hf, IH. reflexivity.
Qed.

Lemma Qdiv_le_mono (a b c : Z) :
  a <= b -> 0 < c -> (inject_Z a / inject_Z c <= inject_Z b / inject_Z c)%Q.
Proof.
  intros Hab Hc. destruct c as [| p | p]; try lia.
  unfold Qle, Qdiv, Qmult, Qinv, inject_Z. simpl. nia.
Qed.

Lemma no_maker_address_incl (jm : JoinMarketTx.t) (known more : list string) (w : Vout) :
  incl known more ->
  UnmixedJoinMarketTx.no_maker_address (UnmixedJoinMarketTx.mk jm more) w = true ->
  UnmixedJoinMarketTx.no_maker_address (UnmixedJoinMarketTx.mk jm known) w = true.
Proof.
  intros Hincl. unfold UnmixedJoinMarketTx.no_maker_address.
  cbn [UnmixedJoinMarketTx.maker_addresses]. rewrite !negb_true_iff.
  intros Hmore. apply not_true_is_false. intros E.
  apply existsb_exists in E. destruct E as [a [Ha E]]. apply existsb_eqb_In in E.
  assert (H : existsb (fun a0 => existsb (String.eqb a0) more) (get_vout_addresses w) = true).
  { apply existsb_exists. exists a. split; [exact Ha |]. apply existsb_eqb_In, Hincl, E. }
  congruence.
Qed.

(** X15. With no maker address known, the unmix level of a transaction that
    [to_joinmarket_tx] accepts is defined and equal to 0. *)
Theorem unmix_level_without_makers (t : Tx) (jm : JoinMarketTx.t) :
  to_joinmarket_tx t = Ok jm ->
  exists q,
    UnmixedJoinMarketTx.unmix_level (UnmixedJoinMarketTx.mk jm []) = Ok (Some q)
    /\ (q == 0)%Q.
Proof.
  intros H. destruct (unmix_level_value t jm [] H) as [v [_ [_ [_ [HP [Hgt Hl]]]]]].
  cbn zeta in *. rewrite filter_true in Hl.
  2:{ intros w. unfold UnmixedJoinMarketTx.no_maker_address.
      cbn [UnmixedJoinMarketTx.maker_addresses]. apply negb_true_iff.
      apply not_true_is_false. intros E.
      apply existsb_exists in E. destruct E as [a [_ E]]. discriminate E. }
  rewrite <- HP in Hl.
  destruct (Z.of_nat (JoinMarketTx.num_parties jm) =? 0) eqn:E;
    [apply Z.eqb_eq in E; lia |].
  eexists. split; [exact Hl |]. rewrite Z.sub_diag, binary64_div_0. reflexivity.
Qed.

Lemma unmix_level_without_makers_witness :
  exists q,
    UnmixedJoinMarketTx.unmix_level
      (UnmixedJoinMarketTx.mk (JoinMarketTx.mk example_tx example_pairs) [])
    = Ok (Some q)
    /\ (q == 0)%Q.
Proof.
  apply (unmix_level_without_makers example_tx (JoinMarketTx.mk example_tx example_pairs)).
  vm_compute. reflexivity.
Defined.

(** X16. Learning more maker addresses never lowers the unmix level: if the
    level of an accepted transaction is defined under a set of maker
    addresses, it is defined under every subset of it, and is no larger
    there. *)
Theorem unmix_level_monotone (t : Tx) (jm : JoinMarketTx.t)
    (known more : list string) (q' : Q) :
  to_joinmarket_tx t = Ok jm ->
  incl known more ->
  UnmixedJoinMarketTx.unmix_level (UnmixedJoinMarketTx.mk jm more) = Ok (Some q') ->
  exists q,
    UnmixedJoinMarketTx.unmix_level (UnmixedJoinMarketTx.mk jm known) = Ok (Some q)
    /\ (q <= q')%Q.
Proof.
  intros H Hincl Hmore.
  destruct (unmix_level_value t jm known H) as [v [_ [_ [Hv [HP [Hgt Hk]]]]]].
  destruct (unmix_level_value t jm more H) as [v' [_ [_ [Hv' [_ [_ Hm]]]]]].
  assert (v' = v) by congruence. subst v'. cbn zeta in *.
  pose proof (filter_length_mono _ _ (filter (fun vout => value vout =? v) (vout t))
                (fun w => no_maker_address_incl jm known more w Hincl)) as Hle.
  pose proof (filter_length_le
                (UnmixedJoinMarketTx.no_maker_address (UnmixedJoinMarketTx.mk jm known))
                (filter (fun vout => value vout =? v) (vout t))) as Hle'.
  rewrite Hm in Hmore. rewrite Hk.
  destruct (Z.of_nat (length (filter
              (UnmixedJoinMarketTx.no_maker_address (UnmixedJoinMarketTx.mk jm more)) _)) =? 0)
    eqn:Em; [discriminate |].
  apply Z.eqb_neq in Em. injection Hmore as <-.
  destruct (Z.of_nat (length (filter
              (UnmixedJoinMarketTx.no_maker_address (UnmixedJoinMarketTx.mk jm known)) _)) =? 0)
    eqn:Ek; [apply Z.eqb_eq in Ek; lia |].
  eexists. split; [reflexivity |].
  apply binary64_mono.
  - apply Qdiv_unit_interval; lia.
  - apply Qdiv_le_mono; lia.
  - apply Qdiv_unit_interval; lia.
Qed.

Lemma unmix_level_monotone_witness :
  exists q,
    UnmixedJoinMarketTx.unmix_level
      (UnmixedJoinMarketTx.mk (JoinMarketTx.mk example_tx example_pairs) [])
    = Ok (Some q)
    /\ (q <= 1 # 2)%Q.
Proof.
  apply (unmix_level_monotone example_tx (JoinMarketTx.mk example_tx example_pairs)
           [] ["1MixOutputOfMakerOnexxxxxxxxxxxxxx"%string]).
  - vm_compute. reflexivity.
  - intros a [].
  - vm_compute. reflexivity.
Defined.


(** ** Pass 1: which addresses are seeded *)

Lemma index_Ok (value : Z) (l : list (option Z)) (i : nat) :
  index value l = Ok i ->
  nth_error l i = Some (Some value)
  /\ forall j, (j < i)%nat -> nth_error l j <> Some (Some value).
Proof.
  revert i. induction l as [| [v |] l IH]; intros i; cbn [index].
  - discriminate.
  - destruct (v =? value) eqn:E.
    + intros [= <-]. apply Z.eqb_eq in E. subst v. split; [reflexivity | lia].
    + intros H. bind_inv H. injection H as <-. destruct (IH _ Ha) as [Hn Hmin].
      split; [exact Hn |]. intros [| j] Hj; cbn [nth_error].
      * apply Z.eqb_neq in E. congruence.
      * apply Hmin. lia.
  - intros H. bind_inv H. injection H as <-. destruct (IH _ Ha) as [Hn Hmin].
    split; [exact Hn |]. intros [| j] Hj; cbn [nth_error].
    + discriminate.
    + apply Hmin. lia.
Qed.

Lemma set_None_nth_error_eq (l : list (option Z)) (i : nat) :
  (i < length l)%nat -> nth_error (set_None l i) i = Some None.
Proof.
  revert i. induction l as [| x l IH]; intros [| i] H; cbn [length] in H; try lia.
  - reflexivity.
  - cbn [set_None nth_error]. apply IH. lia.
Qed.

Lemma set_None_nth_error_neq (l : list (option Z)) (i j : nat) :
  j <> i -> nth_error (set_None l i) j = nth_error l j.
Proof.
  revert i j. induction l as [| x l IH]; intros [| i] [| j] H;
    cbn [set_None nth_error]; try reflexivity; try congruence.
  apply IH. congruence.
Qed.

Lemma add_addresses_Ok (addrs addresses addresses' : list string) :
  add_addresses addrs addresses = Ok addresses' ->
  addresses' = set_update addresses addrs /\ Forall address_length_ok addrs.
Proof.
  revert addresses. induction addrs as [| a addrs IH]; intros addresses; cbn [add_addresses].
  - intros [= <-]. split; [reflexivity | constructor].
  - destruct ((30 <=? String.length a)%nat && (String.length a <=? 36)%nat) eqn:E;
      cbn [negb]; [| discriminate].
    intros H. destruct (IH _ H) as [-> Hall]. split; [reflexivity |].
    constructor; [| exact Hall].
    apply andb_true_iff in E. destruct E as [E1 E2].
    apply Nat.leb_le in E1, E2. split; assumption.
Qed.

Lemma seed_values_inv (jmtx : JoinMarketTx.t) (values : list Z) :
  forall vin_values addrs idxs vin_values' addrs',
    seeding_inv (JoinMarketTx.tx jmtx) vin_values addrs idxs ->
    seed_values jmtx values vin_values addrs = Ok (vin_values', addrs') ->
    exists new,
      seeding_inv (JoinMarketTx.tx jmtx) vin_values' addrs' (idxs ++ new)
      /\ Forall2 (input_has_value (JoinMarketTx.tx jmtx)) new values.
Proof.
  induction values as [| value values IH];
    intros vin_values addrs idxs vin_values' addrs' Hinv H; cbn [seed_values] in H.
  - injection H as <- <-. exists []. rewrite app_nil_r. split; [exact Hinv | constructor].
  - bind_inv H. rename a into i, Ha into Hi. bind_inv H. rename a into w, Ha into Hw.
    bind_inv H. rename a into addrs1, Ha into Ha1.
    apply index_Ok in Hi. destruct Hi as [Hi _]. apply getitem_Ok in Hw.
    apply add_addresses_Ok in Ha1. destruct Ha1 as [-> Hlen].
    destruct Hinv as [Hval [Hcons [Hnd [[Hnda Hin] Hall]]]].
    assert (Hlt : (i < length vin_values)%nat).
    { apply nth_error_Some. congruence. }
    assert (Hfresh : ~ In i idxs).
    { intros Hc. apply Hcons in Hc. congruence. }
    assert (Hinv1 : seeding_inv (JoinMarketTx.tx jmtx) (set_None vin_values i)
                      (set_update addrs (get_vout_addresses w)) (idxs ++ [i])).
    { split; [| split; [| split; [| split; [split |]]]].
      - intros j v Hj. destruct (Nat.eq_dec j i) as [-> | Hne].
        + rewrite set_None_nth_error_eq in Hj by exact Hlt. discriminate.
        + rewrite set_None_nth_error_neq in Hj by exact Hne. apply Hval, Hj.
      - intros j Hj. apply in_app_iff in Hj. destruct Hj as [Hj | [<- | []]].
        + rewrite set_None_nth_error_neq; [apply Hcons, Hj |]. congruence.
        + apply set_None_nth_error_eq, Hlt.
      - apply NoDup_app; [exact Hnd | constructor; [intros [] | constructor] |].
        intros j Hj [<- | []]. exact (Hfresh Hj).
      - apply set_update_NoDup, Hnda.
      - intros a. rewrite set_update_In, Hin. split.
        + intros [Ha | [j [w' [Hj H']]]].
          * exists i, w. split; [apply in_app_iff; right; left; reflexivity |].
            split; assumption.
          * exists j, w'. split; [apply in_app_iff; left; exact Hj | exact H'].
        + intros [j [w' [Hj [Hn Ha]]]]. apply in_app_iff in Hj.
          destruct Hj as [Hj | [<- | []]].
          * right. exists j, w'. repeat split; assumption.
          * left. unfold get_vout_addresses. congruence.
      - apply Forall_forall. intros a Ha. apply set_update_In in Ha.
        destruct Ha as [Ha | Ha].
        + exact (proj1 (Forall_forall _ _) Hlen a Ha).
        + exact (proj1 (Forall_forall _ _) Hall a Ha). }
    destruct (IH _ _ _ _ _ Hinv1 H) as [new [Hinv' Hnew]].
    exists (i :: new). rewrite <- app_assoc in Hinv'. split; [exact Hinv' |].
    constructor; [| exact Hnew]. exists w. split; [exact Hw |].
    destruct (Hval i value Hi) as [w' [Hw' Hv]]. congruence.
Qed.

Lemma seed_pairs_inv (jmtx : JoinMarketTx.t) (maker_pairs : list (list Z * list Z)) :
  forall vin_values addrs idxs vin_values' addrs',
    seeding_inv (JoinMarketTx.tx jmtx) vin_values addrs idxs ->
    seed_pairs jmtx maker_pairs vin_values addrs = Ok (vin_values', addrs') ->
    exists new,
      seeding_inv (JoinMarketTx.tx jmtx) vin_values' addrs' (idxs ++ new)
      /\ Forall2 (input_has_value (JoinMarketTx.tx jmtx)) new
           (concat (map fst maker_pairs)).
Proof.
  induction maker_pairs as [| p ps IH];
    intros vin_values addrs idxs vin_values' addrs' Hinv H; cbn [seed_pairs] in H.
  - injection H as <- <-. exists []. rewrite app_nil_r. split; [exact Hinv | constructor].
  - bind_inv H. destruct a as [l1 a1]. cbn [fst snd] in H.
    destruct (seed_values_inv jmtx _ _ _ _ _ _ Hinv Ha) as [new1 [Hinv1 Hnew1]].
    destruct (IH _ _ _ _ _ Hinv1 H) as [new2 [Hinv2 Hnew2]].
    exists (new1 ++ new2). rewrite app_assoc. split; [exact Hinv2 |].
    cbn [map concat]. apply Forall2_app; assumption.
Qed.

(** X17. When Pass 1 returns for a transaction, it has consumed one input
    per input value of the maker groups, in their order and no input twice,
    each input having the value it was looked up for; and it returns
    exactly the addresses of these inputs, each once, every one of them 30
    to 36 characters long. *)
Theorem seeded_addresses_are_maker_inputs (jmtx : JoinMarketTx.t) (addrs : list string) :
  extract_maker_addresses_from_tx jmtx = Ok addrs ->
  exists idxs,
    NoDup idxs
    /\ Forall2 (input_has_value (JoinMarketTx.tx jmtx)) idxs
         (concat (map fst (JoinMarketTx.maker_value_pairs jmtx)))
    /\ addresses_of_inputs (JoinMarketTx.tx jmtx) idxs addrs
    /\ Forall address_length_ok addrs.
Proof.
  unfold extract_maker_addresses_from_tx. cbn zeta. intros H. bind_inv H.
  destruct a as [l a]. injection H as <-. cbn [snd].
  assert (Hinv : seeding_inv (JoinMarketTx.tx jmtx)
                   (map Some (vin_values (JoinMarketTx.tx jmtx))) [] []).
  { split; [| split; [| split; [| split; [split |]]]].
    - intros i v Hi. unfold vin_values in Hi. rewrite !nth_error_map in Hi.
      destruct (nth_error (vin (JoinMarketTx.tx jmtx)) i) as [w |] eqn:E; [| discriminate].
      exists w. split; [exact E |]. cbn in Hi. congruence.
    - intros i [].
    - constructor.
    - constructor.
    - intros a'. split; [intros [] | intros [i [w [[] _]]]].
    - constructor. }
  destruct (seed_pairs_inv jmtx _ _ _ _ _ _ Hinv Ha) as [idxs [Hinv' Hidxs]].
  cbn [app] in Hinv'. destruct Hinv' as [_ [_ [Hnd [Haddr Hall]]]].
  exists idxs. repeat split; try assumption; apply Haddr.
Qed.

Lemma seeded_addresses_are_maker_inputs_witness :
  exists idxs,
    NoDup idxs
    /\ Forall2 (input_has_value example_tx) idxs
         (concat (map fst (JoinMarketTx.maker_value_pairs
                             (JoinMarketTx.mk example_tx example_pairs))))
    /\ addresses_of_inputs example_tx idxs
         ["1MakerOneFundingAddressxxxxxxxxxxx"%string;
          "1MakerTwoFundingAddressxxxxxxxxxxx"%string]
    /\ Forall address_length_ok
         ["1MakerOneFundingAddressxxxxxxxxxxx"%string;
          "1MakerTwoFundingAddressxxxxxxxxxxx"%string].
Proof.
  apply (seeded_addresses_are_maker_inputs (JoinMarketTx.mk example_tx example_pairs)).
  vm_compute. reflexivity.
Defined.


(** ** The corpus: loading, Pass 1 and Pass 2 over all transactions *)

Lemma odict_get_set_eq {V : Type} (key : string) (x : V) (d : list (string * V)) :
  odict_get key (odict_set key x d) = Some x.
Proof.
  induction d as [| [k y] d IH]; cbn [odict_set odict_get].
  - rewrite String.eqb_refl. reflexivity.
  - destruct (String.eqb k key) eqn:E; cbn [odict_get]; rewrite E; [reflexivity | exact IH].
Qed.

Lemma odict_get_set_neq {V : Type} (key key' : string) (x : V) (d : list (string * V)) :
  key' <> key -> odict_get key' (odict_set key x d) = odict_get key' d.
Proof.
  intros Hne. induction d as [| [k y] d IH]; cbn [odict_set odict_get].
  - rewrite (proj2 (String.eqb_neq _ _)); [reflexivity | congruence].
  - destruct (String.eqb k key) eqn:E; cbn [odict_get].
    + apply String.eqb_eq in E. subst k.
      rewrite (proj2 (String.eqb_neq _ _)); [reflexivity | congruence].
    + rewrite IH. reflexivity.
Qed.

Lemma odict_set_keys {V : Type} (key : string) (x : V) (d : list (string * V)) :
  map fst (odict_set key x d) = set_add key (map fst d).
Proof.
  unfold set_add. induction d as [| [k y] d IH]; cbn [odict_set map fst existsb app].
  - reflexivity.
  - rewrite (String.eqb_sym key k). destruct (String.eqb k key) eqn:E; cbn [orb map fst].
    + apply String.eqb_eq in E. subst k. reflexivity.
    + rewrite IH. destruct (existsb (String.eqb key) (map fst d)); reflexivity.
Qed.

Lemma odict_get_In {V : Type} (key : string) (x : V) (d : list (string * V)) :
  odict_get key d = Some x -> In (key, x) d.
Proof.
  induction d as [| [k y] d IH]; cbn [odict_get]; [discriminate |].
  destruct (String.eqb k key) eqn:E.
  - apply String.eqb_eq in E. intros [= ->]. left. congruence.
  - intros H. right. apply IH, H.
Qed.

Lemma find_app {A : Type} (f : A -> bool) (l1 l2 : list A) :
  find f (l1 ++ l2) = match find f l1 with Some x => Some x | None => find f l2 end.
Proof.
  induction l1 as [| x l1 IH]; cbn [app find]; [reflexivity |].
  destruct (f x); [reflexivity | exact IH].
Qed.

Lemma odict_load (loaded : list (string * JoinMarketTx.t)) :
  forall txs,
    let txs' := fold_left (fun txs tx => odict_set (fst tx) (snd tx) txs) loaded txs in
    map fst txs' = set_update (map fst txs) (map fst loaded)
    /\ forall txid,
        odict_get txid txs'
        = match last_loaded txid loaded with
          | Some tx => Some tx
          | None => odict_get txid txs
          end.
Proof.
  unfold last_loaded.
  induction loaded as [| [k x] loaded IH]; intros txs; cbn zeta; cbn [fold_left map fst snd].
  - split; reflexivity.
  - destruct (IH (odict_set k x txs)) as [Hk Hg]. cbn zeta in Hk, Hg. split.
    + rewrite Hk, odict_set_keys. reflexivity.
    + intros txid. rewrite Hg. cbn [rev]. rewrite find_app.
      destruct (find _ (rev loaded)); [reflexivity |]. cbn [find fst option_map snd].
      destruct (String.eqb k txid) eqn:E.
      * apply String.eqb_eq in E. subst k. apply odict_get_set_eq.
      * apply String.eqb_neq in E. apply odict_get_set_neq. congruence.
Qed.

(** X18. Loading keeps each transaction id once: the loaded corpus has no
    two entries with the same id, its ids are those found in the input
    files, and the entry kept for an id is the last one read with that
    id. *)
Theorem get_all_jmtxs_keeps_last_loaded (infiles : list (list (string * JoinMarketTx.t))) :
  let txs := get_all_jmtxs infiles in
  NoDup (map fst txs)
  /\ (forall txid, In txid (map fst txs) <-> In txid (map fst (concat infiles)))
  /\ forall txid, odict_get txid txs = last_loaded txid (concat infiles).
Proof.
  cbn zeta. unfold get_all_jmtxs.
  destruct (odict_load (concat infiles) []) as [Hk Hg]. cbn zeta in Hk, Hg.
  split; [| split].
  - rewrite Hk. apply set_update_NoDup. constructor.
  - intros txid. rewrite Hk, set_update_In. cbn [map In]. tauto.
  - intros txid. rewrite Hg. cbn [odict_get].
    destruct (last_loaded txid (concat infiles)); reflexivity.
Qed.

Lemma extract_maker_addresses_from_spec (jmtxs : list JoinMarketTx.t) :
  forall addresses,
    NoDup addresses ->
    match extract_maker_addresses_from jmtxs addresses with
    | Ok addresses' =>
        NoDup addresses'
        /\ Forall (fun jmtx => exists r, extract_maker_addresses_from_tx jmtx = Ok r) jmtxs
        /\ forall a, In a addresses'
             <-> In a addresses
                 \/ exists jmtx r, In jmtx jmtxs
                      /\ extract_maker_addresses_from_tx jmtx = Ok r /\ In a r
    | Raise e =>
        exists before jmtx after,
          jmtxs = before ++ jmtx :: after
          /\ Forall (fun jmtx => exists r, extract_maker_addresses_from_tx jmtx = Ok r) before
          /\ extract_maker_addresses_from_tx jmtx = Raise e
    end.
Proof.
  induction jmtxs as [| jmtx jmtxs IH]; intros addresses Hnd;
    cbn [extract_maker_addresses_from].
  - split; [exact Hnd |]. split; [constructor |]. intros a. split; [tauto |].
    intros [H | [jmtx [r [[] _]]]]. exact H.
  - destruct (extract_maker_addresses_from_tx jmtx) as [r | e] eqn:E; cbn [bind].
    + specialize (IH (set_update addresses r) (set_update_NoDup _ _ Hnd)).
      destruct (extract_maker_addresses_from jmtxs (set_update addresses r)) as [res | e].
      * destruct IH as [Hnd' [Hall Hin]]. split; [exact Hnd' |]. split.
        { constructor; [exists r; exact E | exact Hall]. }
        intros a. rewrite Hin, set_update_In. split.
        { intros [[H | H] | [j [r' [Hj H]]]].
          - right. exists jmtx, r. split; [left; reflexivity |]. split; assumption.
          - left. exact H.
          - right. exists j, r'. split; [right; exact Hj | exact H]. }
        { intros [H | [j [r' [[<- | Hj] [Hr Ha]]]]].
          - left. right. exact H.
          - left. left. congruence.
          - right. exists j, r'. repeat split; assumption. }
      * destruct IH as [before [j [after [-> [Hall Hj]]]]].
        exists (jmtx :: before), j, after. split; [reflexivity |].
        split; [constructor; [exists r; exact E | exact Hall] | exact Hj].
    + exists [], jmtx, jmtxs. split; [reflexivity |]. split; [constructor | exact E].
Qed.

(** X19. Pass 1 over the corpus returns the union of what it returns for
    each transaction, each address once, provided it returns for each of
    them; otherwise it fails with the exception of the first transaction,
    in corpus order, for which it fails. *)
Theorem extract_maker_addresses_is_union (jmtxs : list (string * JoinMarketTx.t)) :
  match extract_maker_addresses jmtxs with
  | Ok maker_address_set =>
      NoDup maker_address_set
      /\ Forall (fun item => exists r, extract_maker_addresses_from_tx (snd item) = Ok r) jmtxs
      /\ forall a, In a maker_address_set
           <-> exists item r, In item jmtxs
                 /\ extract_maker_addresses_from_tx (snd item) = Ok r /\ In a r
  | Raise e =>
      exists before item after,
        jmtxs = before ++ item :: after
        /\ Forall (fun item => exists r, extract_maker_addresses_from_tx (snd item) = Ok r)
             before
        /\ extract_maker_addresses_from_tx (snd item) = Raise e
  end.
Proof.
  unfold extract_maker_addresses.
  pose proof (extract_maker_addresses_from_spec (map snd jmtxs) [] (NoDup_nil _)) as H.
  destruct (extract_maker_addresses_from (map snd jmtxs) []) as [res | e].
  - destruct H as [Hnd [Hall Hin]]. split; [exact Hnd |]. split.
    + apply Forall_forall. intros item Hitem.
      exact (proj1 (Forall_forall _ _) Hall (snd item) (in_map snd _ _ Hitem)).
    + intros a. rewrite Hin. split.
      * intros [[] | [j [r [Hj H]]]]. apply in_map_iff in Hj.
        destruct Hj as [item [<- Hitem]]. exists item, r. split; assumption.
      * intros [item [r [Hitem H]]]. right. exists (snd item), r.
        split; [apply in_map, Hitem | exact H].
  - destruct H as [before [j [after [Heq [Hall Hj]]]]].
    apply map_eq_app in Heq. destruct Heq as [b [rest [-> [<- Hrest]]]].
    apply map_eq_cons in Hrest. destruct Hrest as [item [aft [-> [<- <-]]]].
    exists b, item, aft. split; [reflexivity |]. split; [| exact Hj].
    apply Forall_forall. intros it Hit.
    exact (proj1 (Forall_forall _ _) Hall (snd it) (in_map snd _ _ Hit)).
Qed.

Lemma mark_makers_load (s : list string) (jmtxs : list (string * JoinMarketTx.t)) :
  forall tjmtxs txid ttx,
    odict_get txid
      (fold_left (fun tjmtxs item => odict_set (fst item) (mark_tx s (snd item)) tjmtxs)
         jmtxs tjmtxs) = Some ttx ->
    odict_get txid tjmtxs = Some ttx
    \/ exists tx, In (txid, tx) jmtxs /\ ttx = mark_tx s tx.
Proof.
  induction jmtxs as [| [k x] jmtxs IH]; intros tjmtxs txid ttx; cbn [fold_left fst snd].
  - intros H. left. exact H.
  - intros H. apply IH in H. destruct H as [H | [tx [Hin ->]]].
    + destruct (string_dec txid k) as [-> | Hne].
      * rewrite odict_get_set_eq in H. injection H as <-.
        right. exists x. split; [left; reflexivity | reflexivity].
      * rewrite odict_get_set_neq in H by exact Hne. left. exact H.
    + right. exists tx. split; [right; exact Hin | reflexivity].
Qed.

(** X20. The linkage, end to end: an address that Pass 1 extracts from any
    transaction of the corpus is never listed as a possible taker address
    of any transaction that Pass 2 marked. *)
Theorem seeded_address_is_no_possible_taker (jmtxs : list (string * JoinMarketTx.t))
    (maker_address_set : list string) (item : string * JoinMarketTx.t)
    (seeded_addresses : list string) (a : string)
    (txid : string) (ttx : UnmixedJoinMarketTx.t) (possible : list (list string)) :
  extract_maker_addresses jmtxs = Ok maker_address_set ->
  In item jmtxs ->
  extract_maker_addresses_from_tx (snd item) = Ok seeded_addresses ->
  In a seeded_addresses ->
  odict_get txid (mark_makers jmtxs maker_address_set) = Some ttx ->
  UnmixedJoinMarketTx.possible_taker_mix_addresses ttx = Ok possible ->
  forall addrs, In addrs possible -> ~ In a addrs.
Proof.
  intros Hset Hitem Hseed Ha Hget Hposs addrs Haddrs Hin.
  assert (Hs : In a maker_address_set).
  { pose proof (extract_maker_addresses_from_spec (map snd jmtxs) [] (NoDup_nil _)) as H.
    unfold extract_maker_addresses in Hset. rewrite Hset in H.
    destruct H as [_ [_ H]]. apply H. right. exists (snd item), seeded_addresses.
    split; [apply in_map, Hitem |]. split; assumption. }
  unfold mark_makers in Hget. apply mark_makers_load in Hget.
  destruct Hget as [Hget | [tx [_ ->]]]; [discriminate Hget |].
  destruct (mark_vouts_spec maker_address_set (vout (JoinMarketTx.tx tx))
              (UnmixedJoinMarketTx.mk tx []) (NoDup_nil _)) as [Hj [_ Hmark]].
  fold (mark_tx maker_address_set tx) in Hj, Hmark.
  unfold UnmixedJoinMarketTx.possible_taker_mix_addresses in Hposs.
  bind_inv Hposs. injection Hposs as <-.
  apply in_map_iff in Haddrs. destruct Haddrs as [w [<- Hw]].
  destruct (possible_taker_mixed_vouts_In _ _ _ Ha0 Hw) as [Hw' Hno].
  rewrite Hj in Hw'.
  unfold UnmixedJoinMarketTx.no_maker_address in Hno. apply negb_true_iff in Hno.
  assert (Hyes : existsb
                   (fun a0 => existsb (String.eqb a0)
                      (UnmixedJoinMarketTx.maker_addresses (mark_tx maker_address_set tx)))
                   (get_vout_addresses w) = true).
  { apply existsb_exists. exists a. split; [exact Hin |].
    apply existsb_eqb_In, Hmark. right. exists w, a. repeat split; assumption. }
  congruence.
Qed.


Lemma seeded_address_is_no_possible_taker_witness :
  ~ In "1MakerOneFundingAddressxxxxxxxxxxx"%string
       ["1EarlierMixOutputTwoxxxxxxxxxxxxxx"%string].
Proof.
  apply (seeded_address_is_no_possible_taker example_corpus
           ["1EarlierFundingOfMakerOnexxxxxxxxx"%string;
            "1EarlierFundingOfMakerTwoxxxxxxxxx"%string;
            "1MakerOneFundingAddressxxxxxxxxxxx"%string;
            "1MakerTwoFundingAddressxxxxxxxxxxx"%string]
           ("later"%string, JoinMarketTx.mk example_tx example_pairs)
           ["1MakerOneFundingAddressxxxxxxxxxxx"%string;
            "1MakerTwoFundingAddressxxxxxxxxxxx"%string]
           "1MakerOneFundingAddressxxxxxxxxxxx"%string
           "earlier"%string
           (UnmixedJoinMarketTx.mk (JoinMarketTx.mk earlier_tx example_pairs)
              ["1MakerOneFundingAddressxxxxxxxxxxx"%string])
           [["1EarlierMixOutputTwoxxxxxxxxxxxxxx"%string];
            ["1EarlierMixOutputThreexxxxxxxxxxxx"%string]]).
  - vm_compute. reflexivity.
  - right. left. reflexivity.
  - vm_compute. reflexivity.
  - left. reflexivity.
  - vm_compute. reflexivity.
  - vm_compute. reflexivity.
  - left. reflexivity.
Defined.

Lemma odict_set_In {V : Type} (key : string) (x : V) (d : list (string * V))
    (e : string * V) :
  In e (odict_set key x d) -> e = (key, x) \/ In e d.
Proof.
  induction d as [| [k y] d IH]; cbn [odict_set].
  - intros [<- | []]. left. reflexivity.
  - destruct (String.eqb k key) eqn:E.
    + apply String.eqb_eq in E. subst k. intros [<- | H]; [left; reflexivity |].
      right. right. exact H.
    + intros [<- | H]; [right; left; reflexivity |].
      destruct (IH H) as [-> | H']; [left; reflexivity | right; right; exact H'].
Qed.

Lemma mark_makers_In (s : list string) (jmtxs : list (string * JoinMarketTx.t)) :
  forall tjmtxs e,
    In e (fold_left (fun tjmtxs item => odict_set (fst item) (mark_tx s (snd item)) tjmtxs)
            jmtxs tjmtxs) ->
    In e tjmtxs \/ exists item, In item jmtxs /\ e = (fst item, mark_tx s (snd item)).
Proof.
  induction jmtxs as [| item jmtxs IH]; intros tjmtxs e; cbn [fold_left].
  - intros H. left. exact H.
  - intros H. apply IH in H. destruct H as [H | [it [Hin ->]]].
    + apply odict_set_In in H. destruct H as [-> | H]; [| left; exact H].
      right. exists item. split; [left; reflexivity | reflexivity].
    + right. exists it. split; [right; exact Hin | reflexivity].
Qed.

Lemma unmix_level_in_range (t : Tx) (jm : JoinMarketTx.t) (maker_addresses : list string) :
  to_joinmarket_tx t = Ok jm ->
  exists level,
    UnmixedJoinMarketTx.unmix_level (UnmixedJoinMarketTx.mk jm maker_addresses) = Ok level
    /\ level_in_range level.
Proof.
  intros H.
  destruct (unmix_level_value t jm maker_addresses H) as [v [_ [_ [_ [HP [Hgt Hl]]]]]].
  cbn zeta in *. rewrite Hl.
  pose proof (filter_length_le
                (UnmixedJoinMarketTx.no_maker_address
                   (UnmixedJoinMarketTx.mk jm maker_addresses))
                (filter (fun vout => value vout =? v) (vout t))) as Hle.
  destruct (_ =? 0) eqn:E.
  - exists None. split; [reflexivity | exact I].
  - apply Z.eqb_neq in E. eexists. split; [reflexivity |].
    assert (Hq : (0 <= inject_Z (Z.of_nat (JoinMarketTx.num_parties jm)
                              - Z.of_nat (length (filter
                                  (UnmixedJoinMarketTx.no_maker_address
                                     (UnmixedJoinMarketTx.mk jm maker_addresses))
                                  (filter (fun vout => value vout =? v) (vout t)))))
                       / inject_Z (Z.of_nat (JoinMarketTx.num_parties jm) - 1) <= 1)%Q)
      by (apply Qdiv_unit_interval; lia).
    split; [apply binary64_nonneg | apply binary64_le_1]; apply Hq.
Qed.

Lemma get_unmix_levels_Forall (tjmtxs : list UnmixedJoinMarketTx.t) :
  Forall (fun ttx => exists level, get_unmix_level ttx = Ok level /\ level_in_range level)
    tjmtxs ->
  exists levels,
    get_unmix_levels tjmtxs = Ok levels
    /\ length levels = length tjmtxs
    /\ Forall level_in_range levels.
Proof.
  induction 1 as [| ttx tjmtxs [level [Hl Hr]] _ [levels [Hls [Hlen Hall]]]].
  - exists []. repeat split. constructor.
  - exists (level :: levels). cbn [get_unmix_levels]. rewrite Hl, Hls. cbn [bind length].
    split; [reflexivity |]. split; [congruence | constructor; assumption].
Qed.

(** X21. Pass 3 after Pass 2, over a corpus of transactions that
    [to_joinmarket_tx] accepted and for any set of maker addresses: the
    computation of the unmix levels does not fail, and gives one level per
    marked transaction, each of them [None] or a number between 0 and 1. *)
Theorem unmix_levels_of_marked_corpus (jmtxs : list (string * JoinMarketTx.t))
    (maker_address_set : list string) :
  Forall (fun item => exists t, to_joinmarket_tx t = Ok (snd item)) jmtxs ->
  let tjmtxs := mark_makers jmtxs maker_address_set in
  exists unmix_levels,
    get_unmix_levels (map snd tjmtxs) = Ok unmix_levels
    /\ length unmix_levels = length tjmtxs
    /\ Forall level_in_range unmix_levels.
Proof.
  intros Hacc tjmtxs.
  destruct (get_unmix_levels_Forall (map snd tjmtxs)) as [levels [H1 [H2 H3]]].
  - apply Forall_forall. intros ttx Hin. apply in_map_iff in Hin.
    destruct Hin as [[k ttx'] [Heq Hin]]. cbn [snd] in Heq. subst ttx'.
    subst tjmtxs. unfold mark_makers in Hin. apply mark_makers_In in Hin.
    destruct Hin as [[] | [item [Hitem [= -> ->]]]].
    destruct (proj1 (Forall_forall _ _) Hacc item Hitem) as [t Ht].
    destruct (mark_vouts_spec maker_address_set (vout (JoinMarketTx.tx (snd item)))
                (UnmixedJoinMarketTx.mk (snd item) []) (NoDup_nil _)) as [Hj _].
    fold (mark_tx maker_address_set (snd item)) in Hj. cbn in Hj.
    unfold get_unmix_level.
    destruct (mark_tx maker_address_set (snd item)) as [jm ms].
    cbn [UnmixedJoinMarketTx.jmtx] in Hj. subst jm.
    apply (unmix_level_in_range t), Ht.
  - exists levels. rewrite length_map in H2. repeat split; assumption.
Qed.

Lemma unmix_levels_of_marked_corpus_witness :
  exists unmix_levels,
    get_unmix_levels
      (map snd (mark_makers example_corpus ["1MakerOneFundingAddressxxxxxxxxxxx"%string]))
    = Ok unmix_levels
    /\ length unmix_levels
       = length (mark_makers example_corpus ["1MakerOneFundingAddressxxxxxxxxxxx"%string])
    /\ Forall level_in_range unmix_levels.
Proof.
  apply (unmix_levels_of_marked_corpus example_corpus
           ["1MakerOneFundingAddressxxxxxxxxxxx"%string]).
  constructor; [exists earlier_tx; vm_compute; reflexivity |].
  constructor; [exists example_tx; vm_compute; reflexivity | constructor].
Defined.

Lemma concat_fst_length (makers : list (list Z * list Z)) :
  Forall (fun p => fst p <> []) makers ->
  (length makers <= length (concat (map fst makers)))%nat.
Proof.
  induction 1 as [| p ps Hp _ IH]; [constructor |].
  cbn [map concat length]. rewrite length_app.
  destruct (fst p); [congruence | cbn [length]; lia].
Qed.

(** Every group but the first has an input of its own, and the classifier
    admits 25 inputs at most: an accepted transaction has 26 parties at
    most. *)
Lemma to_joinmarket_tx_num_parties_le (t : Tx) (jm : JoinMarketTx.t) :
  to_joinmarket_tx t = Ok jm -> (JoinMarketTx.num_parties jm <= 26)%nat.
Proof.
  intros H. apply to_joinmarket_tx_Ok in H. destruct H as [pairs [-> [Hcheck H]]].
  apply check_potential_joinmarket_tx_true in Hcheck.
  destruct Hcheck as [_ [[_ Hin] _]].
  pose proof (pair_up_inout_values_makers_Forall (fun p => fst p <> []) _ _ _ _ H
                (fun v x inv chg found bucket c => found_group_inputs v x inv chg found bucket c))
    as Hne.
  apply pair_up_inout_values_nonempty_shape in H; [| left; reflexivity].
  destruct H as [v [[[_ [_ ->]] | H] _]]; [cbn; lia |].
  destruct H as [v' [ti [tc [mk [cv [_ [-> [_ [_ [_ [_ [_ [HPi _]]]]]]]]]]]]].
  cbn [tl] in Hne. apply concat_fst_length in Hne.
  apply Permutation_length in HPi. rewrite length_app in HPi.
  unfold vin_values in HPi. rewrite length_map in HPi.
  unfold JoinMarketTx.num_parties. cbn [JoinMarketTx.pairs length]. lia.
Qed.

(** X22. The unmix level of an accepted transaction is 1 exactly when one
    single mix output is left as a possible taker output. *)
Theorem fully_unmixed_iff_single_candidate (t : Tx) (jm : JoinMarketTx.t)
    (maker_addresses : list string) (q : Q) :
  to_joinmarket_tx t = Ok jm ->
  let self := UnmixedJoinMarketTx.mk jm maker_addresses in
  UnmixedJoinMarketTx.unmix_level self = Ok (Some q) ->
  ((q == 1)%Q
   <-> exists vout, UnmixedJoinMarketTx.possible_taker_mixed_vouts self = Ok [vout]).
Proof.
  intros H self Hq.
  pose proof (to_joinmarket_tx_num_parties_le t jm H) as HP26.
  destruct (unmix_level_value t jm maker_addresses H) as [v [_ [Htx [Hv [HP [Hgt Hl]]]]]].
  cbn zeta in *. fold self in Hl. rewrite Hl in Hq.
  rewrite (possible_taker_mixed_vouts_Ok self v Hv).
  cbn [self UnmixedJoinMarketTx.jmtx]. rewrite Htx. fold self.
  pose proof (filter_length_le (UnmixedJoinMarketTx.no_maker_address self)
                (filter (fun vout => value vout =? v) (vout t))) as Hle.
  set (l := filter (UnmixedJoinMarketTx.no_maker_address self)
              (filter (fun vout => value vout =? v) (vout t))) in *.
  destruct (Z.of_nat (length l) =? 0) eqn:E; [discriminate |].
  apply Z.eqb_neq in E. injection Hq as <-. split.
  - intros Hone. destruct (Z.eq_dec (Z.of_nat (length l)) 1) as [H1 | H1].
    + destruct l as [| w [| w' l]]; cbn [length] in H1; try lia.
      exists w. reflexivity.
    + exfalso.
      assert (Hlt : (binary64 (inject_Z (Z.of_nat (JoinMarketTx.num_parties jm)
                                         - Z.of_nat (length l))
                               / inject_Z (Z.of_nat (JoinMarketTx.num_parties jm) - 1))
                     < 1)%Q).
      { apply binary64_div_lt_1; [lia |]. change (2 ^ 53) with 9007199254740992. lia. }
      rewrite Hone in Hlt. discriminate Hlt.
  - intros [w [= ->]]. cbn [length].
    apply binary64_div_1. lia.
Qed.

Lemma fully_unmixed_iff_single_candidate_witness :
  ((1 # 2 == 1)%Q
   <-> exists vout,
       UnmixedJoinMarketTx.possible_taker_mixed_vouts
         (UnmixedJoinMarketTx.mk (JoinMarketTx.mk example_tx example_pairs)
            ["1MixOutputOfMakerOnexxxxxxxxxxxxxx"%string])
       = Ok [vout]).
Proof.
  apply (fully_unmixed_iff_single_candidate example_tx
           (JoinMarketTx.mk example_tx example_pairs)
           ["1MixOutputOfMakerOnexxxxxxxxxxxxxx"%string] (1 # 2)).
  - vm_compute. reflexivity.
  - vm_compute. reflexivity.
Defined.


(** ** misc.py: gzip extensions and the file that [gzopen] opens *)

Lemma endswith_spec (s suffix : string) :
  endswith s suffix = true <-> exists p, s = (p ++ suffix)%string.
Proof.
  induction s as [| c s IH]; cbn [endswith].
  - rewrite orb_false_r, String.eqb_eq. split.
    + intros <-. exists EmptyString. reflexivity.
    + intros [p H]. destruct p; [exact H | discriminate H].
  - rewrite orb_true_iff, String.eqb_eq, IH. split.
    + intros [<- | [p ->]]; [exists EmptyString; reflexivity |].
      exists (String c p). reflexivity.
    + intros [[| c' p] H]; [left; exact H |].
      cbn [append] in H. injection H as <- ->. right. exists p. reflexivity.
Qed.

Lemma endswith_empty (s : string) : endswith s EmptyString = true.
Proof.
  induction s as [| c s IH]; cbn [endswith]; [reflexivity |].
  rewrite IH. apply orb_true_r.
Qed.

Lemma append_empty_r (s : string) : (s ++ EmptyString)%string = s.
Proof. induction s as [| c s IH]; cbn [append]; [reflexivity | rewrite IH; reflexivity]. Qed.

Lemma _to_gzip_extension_cases (path : string) :
  exists p,
    _to_gzip_extension path false = Ok p
    /\ gzip_like p = true
    /\ (gzip_like path = true -> p = path)
    /\ (gzip_like path = false -> p <> path).
Proof.
  unfold _to_gzip_extension, _modify_gzip_extension, GZIP_EXTENSIONS, gzip_like.
  cbn [negb andb existsb fst replace_extension orb].
  rewrite orb_false_r.
  destruct (endswith path ".tgz" || endswith path ".gz") eqn:E.
  - exists path. split; [reflexivity |]. split; [exact E |].
    split; [reflexivity | discriminate].
  - apply orb_false_iff in E. destruct E as [E1 E2].
    destruct (endswith path ".tar") eqn:Et.
    + eexists. split; [reflexivity |]. split.
      * apply orb_true_iff. left. apply endswith_spec. eexists. reflexivity.
      * split; [discriminate |]. intros _ Heq.
        assert (H : endswith path ".tgz" = true).
        { apply endswith_spec. eexists. symmetry. exact Heq. }
        congruence.
    + rewrite endswith_empty. cbn [String.length Nat.ltb Nat.leb].
      eexists. split; [reflexivity |]. split.
      * apply orb_true_iff. right. apply endswith_spec. eexists. reflexivity.
      * split; [discriminate |]. intros _ Heq.
        assert (H : endswith path ".gz" = true).
        { apply endswith_spec. eexists. symmetry. exact Heq. }
        congruence.
Qed.

Lemma _is_gzip_gzip_like (path : string) : _is_gzip path = Ok (gzip_like path).
Proof.
  unfold _is_gzip. destruct (_to_gzip_extension_cases path) as [p [-> [_ [Hy Hn]]]].
  cbn [bind]. destruct (gzip_like path) eqn:E.
  - rewrite (Hy eq_refl), String.eqb_refl. reflexivity.
  - rewrite (proj2 (String.eqb_neq _ _) (Hn eq_refl)). reflexivity.
Qed.

(** X23. [_to_gzip_extension] always returns, with a path that ends in
    [.tgz] or [.gz]; it leaves such a path as it is and changes every other
    path, so that applying it twice is applying it once, and [_is_gzip]
    holds exactly of the paths that end in [.tgz] or [.gz]. *)
Theorem to_gzip_extension_normalises (path : string) :
  exists p,
    _to_gzip_extension path false = Ok p
    /\ _is_gzip p = Ok true
    /\ _to_gzip_extension p false = Ok p
    /\ _is_gzip path = Ok (endswith path ".tgz" || endswith path ".gz")
    /\ (p = path <-> endswith path ".tgz" || endswith path ".gz" = true).
Proof.
  destruct (_to_gzip_extension_cases path) as [p [Hp [Hg [Hy Hn]]]].
  exists p. split; [exact Hp |]. split; [rewrite _is_gzip_gzip_like, Hg; reflexivity |].
  split.
  - destruct (_to_gzip_extension_cases p) as [p' [Hp' [_ [Hy' _]]]].
    rewrite Hp', (Hy' Hg). reflexivity.
  - split; [apply _is_gzip_gzip_like |]. fold (gzip_like path).
    destruct (gzip_like path) eqn:E.
    + split; [reflexivity | intros _; apply Hy; reflexivity].
    + split; [intros H; elim (Hn eq_refl H) | discriminate].
Qed.

Lemma gzopen_cases (isfile : string -> bool) (path mode : string) (c : Ascii.ascii) :
  String.get 0 mode = Some c ->
  exists gz_path,
    _to_gzip_extension path false = Ok gz_path
    /\ gzopen isfile path mode None
       = let target_path :=
           if (Ascii.eqb c "r" || Ascii.eqb c "a")%char
           then if negb (isfile path) && isfile gz_path then gz_path else path
           else path in
         Ok (if gzip_like target_path then GzipFile else builtin_open, target_path).
Proof.
  intros Hc. destruct (_to_gzip_extension_cases path) as [gz_path [Hgz _]].
  exists gz_path. split; [exact Hgz |]. unfold gzopen. rewrite Hc. cbn zeta.
  destruct (Ascii.eqb c "r" || Ascii.eqb c "a")%char.
  - rewrite Hgz. cbn [bind]. rewrite _is_gzip_gzip_like. reflexivity.
  - cbn [bind]. rewrite _is_gzip_gzip_like. reflexivity.
Qed.

(** X24. What is written through [gzopen] is read back through [gzopen]:
    when [gzopen], called in any mode and without [add_ext], opens a file,
    then once that file exists a call in a read mode for the same path opens
    the same file with the same function. *)
Theorem gzopen_reads_back (isfile : string -> bool) (path mode read_mode : string)
    (f : open_func) (target : string) :
  gzopen isfile path mode None = Ok (f, target) ->
  String.get 0 read_mode = Some "r"%char ->
  gzopen (created isfile target) path read_mode None = Ok (f, target).
Proof.
  intros H Hr. destruct (String.get 0 mode) as [c |] eqn:Hc.
  2:{ unfold gzopen in H. rewrite Hc in H. discriminate H. }
  destruct (gzopen_cases isfile path mode c Hc) as [gz_path [Hgz Hw]].
  destruct (gzopen_cases (created isfile target) path read_mode _ Hr) as [gz_path' [Hgz' Hrd]].
  assert (gz_path' = gz_path) by congruence. subst gz_path'.
  rewrite Hw in H. rewrite Hrd. cbn zeta in *. cbn [Ascii.eqb Bool.eqb andb orb].
  injection H as Hf Ht. unfold created.
  destruct (Ascii.eqb c "r" || Ascii.eqb c "a")%char.
  - destruct (isfile path) eqn:Eo; cbn [negb andb] in *.
    + subst target. rewrite String.eqb_refl. cbn [orb negb andb]. subst f. reflexivity.
    + destruct (isfile gz_path) eqn:Eg.
      * subst target. rewrite String.eqb_refl. cbn [orb].
        destruct (String.eqb path gz_path) eqn:E.
        { apply String.eqb_eq in E. congruence. }
        cbn [orb negb andb]. subst f. reflexivity.
      * subst target. rewrite String.eqb_refl. cbn [orb negb andb]. subst f. reflexivity.
  - subst target. rewrite String.eqb_refl. cbn [orb negb andb]. subst f. reflexivity.
Qed.

Lemma gzopen_reads_back_witness :
  gzopen (created (fun _ => false) "jmtxs.pkl"%string) "jmtxs.pkl"%string "rb"%string None
  = Ok (builtin_open, "jmtxs.pkl"%string).
Proof.
  apply (gzopen_reads_back (fun _ => false) "jmtxs.pkl"%string "ab"%string "rb"%string).
  - vm_compute. reflexivity.
  - reflexivity.
Defined.

(** X25. Without [add_ext], [gzopen] opens the path it is given, except when
    it reads or appends, no file exists at that path and one exists at the
    path with the gzip extension, which it then opens; in particular a file
    is created at the given path, never at the path with the extension
    added.  It opens the file as a gzip file exactly when the path opened
    ends in [.tgz] or [.gz], and fails only for an empty mode. *)
Theorem gzopen_target (isfile : string -> bool) (path mode : string) :
  match String.get 0 mode with
  | None => gzopen isfile path mode None = Raise IndexError
  | Some c =>
      exists gz_path f target,
        _to_gzip_extension path false = Ok gz_path
        /\ gzopen isfile path mode None = Ok (f, target)
        /\ (f = GzipFile <-> endswith target ".tgz" || endswith target ".gz" = true)
        /\ (target = path \/ target = gz_path)
        /\ (target <> path ->
            (c = "r" \/ c = "a")%char /\ isfile path = false /\ isfile gz_path = true)
        /\ (isfile target = false -> target = path)
  end.
Proof.
  destruct (String.get 0 mode) as [c |] eqn:Hc.
  2:{ unfold gzopen. rewrite Hc. reflexivity. }
  destruct (gzopen_cases isfile path mode c Hc) as [gz_path [Hgz H]].
  cbn zeta in H.
  set (target := if (Ascii.eqb c "r" || Ascii.eqb c "a")%char
                 then if negb (isfile path) && isfile gz_path then gz_path else path
                 else path) in *.
  exists gz_path, (if gzip_like target then GzipFile else builtin_open), target.
  split; [exact Hgz |]. split; [exact H |]. split.
  { fold (gzip_like target). destruct (gzip_like target); split; congruence. }
  subst target.
  destruct (Ascii.eqb c "r" || Ascii.eqb c "a")%char eqn:Em.
  - destruct (isfile path) eqn:Eo; cbn [negb andb].
    + split; [left; reflexivity |]. split; [congruence | reflexivity].
    + destruct (isfile gz_path) eqn:Eg.
      * split; [right; reflexivity |]. split; [| congruence].
        intros _. split; [| split; reflexivity].
        apply orb_true_iff in Em. destruct Em as [Em | Em]; apply Ascii.eqb_eq in Em; tauto.
      * split; [left; reflexivity |]. split; [congruence | reflexivity].
  - split; [left; reflexivity |]. split; [congruence | reflexivity].
Qed.


Lemma length_append (s1 s2 : string) :
  String.length (s1 ++ s2) = (String.length s1 + String.length s2)%nat.
Proof.
  induction s1 as [| c s1 IH]; cbn [append String.length]; [reflexivity |].
  rewrite IH. reflexivity.
Qed.

Lemma substring_prefix (s1 s2 : string) :
  substring 0 (String.length s1) (s1 ++ s2) = s1.
Proof.
  induction s1 as [| c s1 IH]; cbn [append String.length substring].
  - destruct s2; reflexivity.
  - rewrite IH. reflexivity.
Qed.

Lemma drop_last_append (base ext : string) :
  drop_last (base ++ ext) (String.length ext) = base.
Proof.
  unfold drop_last. rewrite length_append, Nat.add_sub. apply substring_prefix.
Qed.

Lemma append_suffix (p q s t : string) :
  (p ++ s)%string = (q ++ t)%string ->
  (String.length t <= String.length s)%nat ->
  endswith s t = true.
Proof.
  revert q. induction p as [| c p IH]; intros q H Hlen.
  - apply endswith_spec. exists q. exact H.
  - destruct q as [| c' q]; cbn [append] in H.
    + apply (f_equal String.length) in H. cbn [String.length] in H.
      rewrite length_append in H. lia.
    + injection H as _ H. exact (IH q H Hlen).
Qed.

(** X26. A path that ends in [.tar] gets [.tgz] in place of [.tar], and a
    path that ends in none of [.tgz], [.gz] and [.tar] gets [.gz]
    appended. *)
Theorem to_gzip_extension_rewrites (path : string) :
  _to_gzip_extension (path ++ ".tar") false = Ok (path ++ ".tgz")%string
  /\ _to_gzip_extension path false
     = Ok (if endswith path ".tgz" || endswith path ".gz" then path
           else if endswith path ".tar"
                then (drop_last path 4 ++ ".tgz")%string
                else (path ++ ".gz")%string)
  /\ drop_last (path ++ ".tar") 4 = path.
Proof.
  assert (Hgen : forall p,
             _to_gzip_extension p false
             = Ok (if endswith p ".tgz" || endswith p ".gz" then p
                   else if endswith p ".tar"
                        then (drop_last p 4 ++ ".tgz")%string
                        else (p ++ ".gz")%string)).
  { intros p. unfold _to_gzip_extension, _modify_gzip_extension, GZIP_EXTENSIONS.
    cbn [negb andb existsb fst replace_extension orb]. rewrite orb_false_r.
    destruct (endswith p ".tgz" || endswith p ".gz"); [reflexivity |].
    destruct (endswith p ".tar"); [reflexivity |].
    rewrite endswith_empty. reflexivity. }
  assert (Hdrop : drop_last (path ++ ".tar") 4 = path).
  { exact (drop_last_append path ".tar"). }
  split; [| split; [apply Hgen | exact Hdrop]].
  rewrite Hgen.
  assert (H1 : endswith (path ++ ".tar") ".tgz" = false).
  { apply not_true_is_false. intros H. apply endswith_spec in H. destruct H as [p H].
    apply append_suffix in H; [discriminate H | cbn; lia]. }
  assert (H2 : endswith (path ++ ".tar") ".gz" = false).
  { apply not_true_is_false. intros H. apply endswith_spec in H. destruct H as [p H].
    apply append_suffix in H; [discriminate H | cbn; lia]. }
  assert (H3 : endswith (path ++ ".tar") ".tar" = true).
  { apply endswith_spec. exists path. reflexivity. }
  rewrite H1, H2, H3, Hdrop. reflexivity.
Qed.


(** X27. For a transaction that [to_joinmarket_tx] accepts,
    [taker_input_values] and [taker_output_values] are the inputs and the
    outputs of the first group of the pairing, and what this group pays,
    inputs minus outputs, is the transaction fee plus the fees paid to the
    maker groups. *)
Theorem taker_pays_all_fees (t : Tx) (jm : JoinMarketTx.t) :
  to_joinmarket_tx t = Ok jm ->
  exists taker_inputs taker_outputs,
    JoinMarketTx.taker_input_values jm = Ok taker_inputs
    /\ JoinMarketTx.taker_output_values jm = Ok taker_outputs
    /\ hd_error (JoinMarketTx.pairs jm) = Some (taker_inputs, taker_outputs)
    /\ sum taker_inputs - sum taker_outputs
       = fee t + sum (map fee_paid_to_pair (JoinMarketTx.maker_value_pairs jm)).
Proof.
  intros H. apply to_joinmarket_tx_Ok in H. destruct H as [pairs [-> [_ H]]].
  apply pair_up_inout_values_nonempty_shape in H; [| left; reflexivity].
  destruct H as [v [Hshape Hnil]].
  pose proof (maker_value_pairs_tl t _ _ _ _ Hshape) as Hmakers.
  destruct Hshape as [[_ [_ ->]] | H]; [congruence |].
  destruct H as [v' [ti [tc [mk [cv [_ [-> [Hmk [_ [_ [_ [_ [HPi [HPo [_ [_ Ht]]]]]]]]]]]]]]]].
  cbn [tl] in Hmakers. exists ti, (v' :: tc). rewrite Hmakers.
  assert (Htaker : JoinMarketTx.taker_value_pair
                     (JoinMarketTx.mk t ((ti, v' :: tc) :: mk)) = Ok (ti, v' :: tc)).
  { unfold JoinMarketTx.taker_value_pair. cbn [JoinMarketTx.pairs filter].
    unfold fee_paid_by_pair at 1.
    destruct (0 <? - fee_paid_to_pair (ti, v' :: tc)) eqn:E; [| apply Z.ltb_ge in E; lia].
    reflexivity. }
  unfold JoinMarketTx.taker_input_values, JoinMarketTx.taker_output_values.
  rewrite Htaker. cbn [JoinMarketTx.pairs hd_error bind fst snd].
  split; [reflexivity |]. split; [reflexivity |]. split; [reflexivity |].
  unfold fee, total_vin_value, total_vout_value.
  rewrite (sum_Permutation _ _ HPi), (sum_Permutation _ _ HPo), sum_fees, !sum_app. lia.
Qed.

Lemma taker_pays_all_fees_witness :
  exists taker_inputs taker_outputs,
    JoinMarketTx.taker_input_values (JoinMarketTx.mk example_tx example_pairs)
    = Ok taker_inputs
    /\ JoinMarketTx.taker_output_values (JoinMarketTx.mk example_tx example_pairs)
       = Ok taker_outputs
    /\ hd_error (JoinMarketTx.pairs (JoinMarketTx.mk example_tx example_pairs))
       = Some (taker_inputs, taker_outputs)
    /\ sum taker_inputs - sum taker_outputs
       = fee example_tx
         + sum (map fee_paid_to_pair
                  (JoinMarketTx.maker_value_pairs
                     (JoinMarketTx.mk example_tx example_pairs))).
Proof.
  apply (taker_pays_all_fees example_tx (JoinMarketTx.mk example_tx example_pairs)).
  vm_compute. reflexivity.
Defined.
